(** * tutorial_metadata.py: comment scanner and metadata aggregator

    A shallow embedding of [src/Python2/tutorial_metadata.py] and the
    properties of its line scanner ([ProcessLine]), its aggregator
    ([ProcessComment]), the result classifier
    ([assess_processing_result]), the orchestrator ([process]) and the
    command line ([get_args], [get_file_names] and the main block).

    Python 2 [str] values are byte strings: they are lists of [ascii]
    here.  Exceptions are values of [exn] carried by [result].  The
    scanner is given twice: [ProcessLine.call] does not count the
    depth of Python's stack, [ProcessLine.call_within] does, and
    raises [RuntimeError] where the recursion limit is reached. *)

From Stdlib Require Import Ascii String.
From stdpp Require Import gmap strings list sorting.

Abbreviation str := (list ascii).
Coercion list_ascii_of_string : string >-> list.

(** ** Python byte strings *)

Module Py.

(** [string.whitespace]: the characters removed by [str.strip] and
    matched by the regular expression class [\s]. *)
Definition isspace (c : ascii) : bool :=
  match c with
  | "009" | "010" | "011" | "012" | "013" | " " => true
  | _ => false
  end%char.

Definition isupper (c : ascii) : bool :=
  (65 <=? nat_of_ascii c) && (nat_of_ascii c <=? 90).

Definition islower (c : ascii) : bool :=
  (97 <=? nat_of_ascii c) && (nat_of_ascii c <=? 122).

Definition lower_char (c : ascii) : ascii :=
  if isupper c then ascii_of_nat (nat_of_ascii c + 32) else c.

Definition upper_char (c : ascii) : ascii :=
  if islower c then ascii_of_nat (nat_of_ascii c - 32) else c.

(** [s.lower()] *)
Definition lower (s : str) : str := lower_char <$> s.

(** [s.capitalize()] *)
Definition capitalize (s : str) : str :=
  match s with
  | [] => []
  | c :: s' => upper_char c :: lower s'
  end.

(** [s.lstrip()], [s.rstrip()], [s.strip()] *)
Fixpoint lstrip (s : str) : str :=
  match s with
  | c :: s' => if isspace c then lstrip s' else s
  | [] => []
  end.

Definition rstrip (s : str) : str := reverse (lstrip (reverse s)).

Definition strip (s : str) : str := lstrip (rstrip s).

(** [s.startswith(sub)] *)
Fixpoint startswith (s sub : str) : bool :=
  match sub, s with
  | [], _ => true
  | c :: sub', d :: s' => bool_decide (c = d) && startswith s' sub'
  | _ :: _, [] => false
  end.

(** [s.find(sub)]: the lowest index at which [sub] occurs in [s],
    or [-1]. *)
Fixpoint find (s sub : str) : Z :=
  if startswith s sub then 0%Z
  else match s with
       | [] => (-1)%Z
       | _ :: s' =>
           let i := find s' sub in
           if (i <? 0)%Z then (-1)%Z else (i + 1)%Z
       end.

(** [sep.join(l)] *)
Fixpoint join (sep : str) (l : list str) : str :=
  match l with
  | [] => []
  | [x] => x
  | x :: l' => x ++ sep ++ join sep l'
  end.

(** Comparison of byte strings, as used by [sorted]: lexicographic
    on the byte values. *)
Definition le (s t : str) : Prop :=
  String.le (string_of_list_ascii s) (string_of_list_ascii t).

(** [sorted(l)] *)
Definition sorted (l : list str) : list str := merge_sort le l.

End Py.

(** ** The fragment of [re] used by the program

    Repetition is only ever applied to a single character or to the
    class [\s] in the patterns of the source, so [Star], [Plus] and
    [Opt] take a character class.  Matching is Python's: leftmost,
    greedy, backtracking, alternatives tried in order. *)

Module Re.

Inductive cclass :=
| Space                 (* \s *)
| Lit (c : ascii)       (* a literal character *)
| LitI (c : ascii).     (* a literal character under re.I *)

Definition cmatch (cl : cclass) (c : ascii) : bool :=
  match cl with
  | Space => Py.isspace c
  | Lit d => bool_decide (c = d)
  | LitI d => bool_decide (Py.lower_char c = Py.lower_char d)
  end.

Inductive regex :=
| Eps
| Bos                   (* ^ *)
| Eos                   (* $ *)
| Chr (cl : cclass)
| Star (cl : cclass)    (* cl*, greedy *)
| Seq (r1 r2 : regex)
| Alt (r1 r2 : regex)
| Group (r : regex).    (* the capturing group, number 1 *)

Definition Plus (cl : cclass) : regex := Seq (Chr cl) (Star cl).
Definition Opt (cl : cclass) : regex := Alt (Chr cl) Eps.

(** A literal string, and the same under [re.I]. *)
Fixpoint lit (s : str) : regex :=
  match s with
  | [] => Eps
  | [c] => Chr (Lit c)
  | c :: s' => Seq (Chr (Lit c)) (lit s')
  end.

Fixpoint litI (s : str) : regex :=
  match s with
  | [] => Eps
  | [c] => Chr (LitI c)
  | c :: s' => Seq (Chr (LitI c)) (litI s')
  end.

Section Engine.
Context {A : Type}.

(** The span of the capturing group, if it took part in the match. *)
Definition capture := option (nat * nat).

(** A continuation receives the position reached, the text that is
    left and the capture. *)
Definition cont := nat → str → capture → option A.

(** Greedy repetition of a character class: the longest run
    first, then shorter ones when the continuation fails. *)
Fixpoint star (cl : cclass) (k : nat → str → option A)
    (pos : nat) (s : str) : option A :=
  match s with
  | c :: s' =>
      if cmatch cl c then
        match star cl k (S pos) s' with
        | Some x => Some x
        | None => k pos s
        end
      else k pos s
  | [] => k pos []
  end.

Fixpoint run (r : regex) (pos : nat) (s : str) (cap : capture)
    (k : cont) : option A :=
  match r with
  | Eps => k pos s cap
  | Bos => if decide (pos = 0) then k pos s cap else None
  | Eos =>
      (* the end of the string, or just before a final newline *)
      if decide (s = [] ∨ s = ["010"%char]) then k pos s cap else None
  | Chr cl =>
      match s with
      | c :: s' => if cmatch cl c then k (S pos) s' cap else None
      | [] => None
      end
  | Star cl => star cl (λ p s', k p s' cap) pos s
  | Seq r1 r2 => run r1 pos s cap (λ p s' cap', run r2 p s' cap' k)
  | Alt r1 r2 =>
      match run r1 pos s cap k with
      | Some x => Some x
      | None => run r2 pos s cap k
      end
  | Group r1 => run r1 pos s cap (λ p s' _, k p s' (Some (pos, p)))
  end.
End Engine.

(** What a successful [pattern.match(s)] returns: [group()] and
    [group(1)]. *)
Record MatchObject := { group : str; group1 : option str }.

Definition slice (s : str) (span : nat * nat) : str :=
  take (span.2 - span.1) (drop span.1 s).

(** [re.compile(r).match(s)] *)
Definition rmatch (r : regex) (s : str) : option MatchObject :=
  run r 0 s None
    (λ p _ cap, Some {| group := take p s; group1 := slice s <$> cap |}).

(** The length of the match of [r] that starts at position [pos],
    where [s] is the text from [pos] on. *)
Definition match_len (r : regex) (pos : nat) (s : str) : option nat :=
  run r pos s None (λ p _ _, Some (p - pos)).

(** [re.sub(r, repl, s)] for a pattern that matches no empty string
    (every pattern the program substitutes or splits on consumes at
    least one character): the non-overlapping matches, found from
    left to right, are replaced by [repl].  [skip] counts the
    characters of the current match that are still to be dropped. *)
Fixpoint sub_from (r : regex) (repl : str) (pos skip : nat) (s : str) : str :=
  match s with
  | [] => []
  | c :: s' =>
      match skip with
      | S n => sub_from r repl (S pos) n s'
      | 0 =>
          match match_len r pos s with
          | Some (S n) => repl ++ sub_from r repl (S pos) n s'
          | _ => c :: sub_from r repl (S pos) 0 s'
          end
      end
  end.

Definition sub (r : regex) (repl s : str) : str := sub_from r repl 0 0 s.

(** [re.split(r, s)], under the same proviso. *)
Fixpoint split_from (r : regex) (pos skip : nat) (s : str) : list str :=
  match s with
  | [] => [[]]
  | c :: s' =>
      match skip with
      | S n => split_from r (S pos) n s'
      | 0 =>
          match match_len r pos s with
          | Some (S n) => [] :: split_from r (S pos) n s'
          | _ =>
              match split_from r (S pos) 0 s' with
              | piece :: pieces => (c :: piece) :: pieces
              | [] => [[c]]
              end
          end
      end
  end.

Definition split (r : regex) (s : str) : list str := split_from r 0 0 s.

End Re.

Import Re.

(** ** Exceptions *)

Inductive exn :=
| ValueError (msg : str)
| TypeError
| IndexError
| AssertionError (msg : str)
| RuntimeError.                (* maximum recursion depth exceeded *)

Inductive result (A : Type) :=
| Ok (a : A)
| Raise (e : exn).
Arguments Ok {A} a.
Arguments Raise {A} e.

Global Instance result_bind : MBind result := λ A B f m,
  match m with
  | Ok a => f a
  | Raise e => Raise e
  end.

(** ** Module-level helpers of the source *)

(** [normalise_text]: [re.sub("\s+", " ", string.strip())] *)
Definition normalise_text (string : str) : str :=
  Re.sub (Plus Space) " " (Py.strip string).

(** [split_on_commas]: the terms of [re.split(",\s*", string)] that
    are not empty, each normalised. *)
Definition split_on_commas (string : str) : list str :=
  normalise_text <$>
    filter (λ t, t ≠ []) (Re.split (Seq (Chr (Lit ",")) (Star Space)) string).

(** [tail_after] *)
Definition tail_after (string head : str) : result str :=
  let hl := length head in
  let sl := length string in
  if decide (sl < hl) then Raise (ValueError "HEAD longer than STRING.")
  else Ok (drop hl string).

Declare Scope re_scope.
Delimit Scope re_scope with re.
Bind Scope re_scope with regex.
Infix "⋅" := Seq (at level 45, right associativity) : re_scope.
Infix "||" := Alt : re_scope.

(** ** class Comment *)

Module Comment.

Record t := mk {
  lineNo : nat;
  current : option str;       (* [None] is Python's None *)
  error : str;
  warning : str;
  heading : str;
  keywords : str }.

(** [Comment(lineNo, string)] *)
Definition init (lineNo : nat) (string : option str) : t :=
  mk lineNo string "" "" "" "".

Definition updateWarningOrError (fieldName message : str) (self : t)
    : result t :=
  if decide (fieldName = "__error") then
    Ok (mk (lineNo self) (current self) message (warning self)
          (heading self) (keywords self))
  else if decide (fieldName = "__warning") then
    Ok (mk (lineNo self) (current self) (error self) message
          (heading self) (keywords self))
  else
    Raise (ValueError ("Unknown field name: '" ++ fieldName ++ "'")).

Definition addError (message : str) (self : t) : result t :=
  updateWarningOrError "__error" message self.

Definition addWarning (message : str) (self : t) : result t :=
  updateWarningOrError "__warning" message self.

Definition setCurrent (value : option str) (self : t) : t :=
  mk (lineNo self) value (error self) (warning self)
     (heading self) (keywords self).

Definition setHeading (h : str) (self : t) : t :=
  mk (lineNo self) (current self) (error self) (warning self)
     h (keywords self).

Definition setKeywords (k : str) (self : t) : t :=
  mk (lineNo self) (current self) (error self) (warning self)
     (heading self) k.

End Comment.

(** ** Comment marks *)

(** The mark that opens a comment in ML and TLA+: a parenthesis and a
    star. *)
Definition paren_star : str := ["("%char; "*"%char].

(** [is_comment]: [^\s*(#+|/\*|//|--|\(\*|;+)\s*]; the group holds
    one of the six opening marks. *)
Definition opening_mark_re : regex :=
  (Plus (Lit "#") || lit "/*" || lit "//" || lit "--" || lit paren_star
   || Plus (Lit ";"))%re.

Definition is_comment_re : regex :=
  (Bos ⋅ Star Space ⋅ Group opening_mark_re ⋅ Star Space)%re.

Definition is_comment (line : str) : option MatchObject :=
  rmatch is_comment_re line.

(** [single_char_comment_mark_regex]: the pattern text
    ["\s*{}\s*".format(commentMark)].  The marks that reach this
    function are runs of [#] or of [;], or [--], or [//]; none of
    their characters is special in a pattern, so the mark stands for
    itself. *)
Definition single_char_comment_mark_regex (commentMark : str) : regex :=
  (Star Space ⋅ lit commentMark ⋅ Star Space)%re.

(** [s[0]] *)
Definition index0 (s : str) : result ascii :=
  match s with
  | c :: _ => Ok c
  | [] => Raise IndexError
  end.

(** [secondary_comment_matcher]: the pattern whose [match] is
    returned; [None] when the function falls off its last [elif]. *)
Definition secondary_comment_matcher (initial_comment_mark : str)
    : result (option regex) :=
  c0 ← index0 initial_comment_mark;
  if bool_decide (c0 = "#"%char)
     || bool_decide (c0 = ";"%char)
     || bool_decide (take 2 initial_comment_mark = "--")
     || bool_decide (take 2 initial_comment_mark = "//") then
    Ok (Some (Bos ⋅ single_char_comment_mark_regex initial_comment_mark)%re)
  else if decide (take 2 initial_comment_mark = "/*") then
    Ok (Some (Bos ⋅ Star Space ⋅ Group (lit "/*" || Plus (Lit "*"))
              ⋅ Star Space)%re)
  else if decide (take 2 initial_comment_mark = paren_star) then
    Ok (Some (Bos ⋅ Star Space ⋅ Group (lit paren_star || Plus (Lit "*"))
              ⋅ Star Space)%re)
  else Ok None.

(** [define_comment_border_regex] *)
Definition define_comment_border_regex (initial_comment_mark : str)
    : result (option regex) :=
  c0 ← index0 initial_comment_mark;
  if bool_decide (c0 = "#"%char)
     || bool_decide (c0 = ";"%char)
     || bool_decide (take 2 initial_comment_mark = "--")
     || bool_decide (take 2 initial_comment_mark = "//") then
    Ok (Some (single_char_comment_mark_regex initial_comment_mark ⋅ Eos)%re)
  else if decide (take 2 initial_comment_mark = "/*") then
    Ok (Some (Star Space ⋅ Plus (Lit "*") ⋅ Opt (Lit "/") ⋅ Star Space
              ⋅ Eos)%re)
  else if decide (take 2 initial_comment_mark = paren_star) then
    Ok (Some (Star Space ⋅ Plus (Lit "*") ⋅ Opt (Lit ")") ⋅ Star Space
              ⋅ Eos)%re)
  else Ok None.

(** ** class ProcessLine

    The file object is the list of the lines that are still to be
    read; the other fields of the instance are in the record. *)

Module ProcessLine.

Record t := mk {
  lineNo : nat;
  isSecondComment : option regex;
  borderCommentRE : option regex }.

(** [ProcessLine(fp)] *)
Definition init : t := mk 0 None None.

Definition newComment (self : t) (commentText : option str) : Comment.t :=
  Comment.init (lineNo self) commentText.

(** [__commentText] *)
Definition commentText (self : t) (line : str)
    (comment_mark_match : option MatchObject) : result (option str) :=
  match comment_mark_match with
  | Some mo =>
      let mark_and_whitespaces := group mo in
      comment_text ← tail_after line mark_and_whitespaces;
      match borderCommentRE self with
      | Some border =>
          let comment_text := Re.sub border "" comment_text in
          Ok (Some (Py.strip comment_text))
      | None => Raise TypeError
      end
  | None => Ok None
  end.

(** A call returns the comment, the lines left in the file and the
    instance as the call leaves it. *)
Definition outcome : Type := Comment.t * (list str * t).

Section Methods.
(** [call] is [self.__call__] on the lines [fp] that follow the
    line being looked at. *)
Context (call : t → result outcome) (fp : list str).

(** [__getFirstComment] *)
Definition getFirstComment (self : t) (line : str) : result outcome :=
  let comment_mark_match := is_comment line in
  match comment_mark_match with
  | None => Ok (newComment self (Some []), (fp, self))
  | Some mo =>
      if decide (take 3 line = "#!/") then call self
      else
        match group1 mo with
        | None => Raise TypeError
        | Some comment_mark =>
            border ← define_comment_border_regex comment_mark;
            let self := mk (lineNo self) (isSecondComment self) border in
            text ← commentText self line comment_mark_match;
            if decide (text = Some []) then call self
            else
              second ← secondary_comment_matcher comment_mark;
              let self := mk (lineNo self) second (borderCommentRE self) in
              Ok (newComment self text, (fp, self))
        end
  end.

(** [__getComment] *)
Definition getComment (self : t) (line : str) : result outcome :=
  match isSecondComment self with
  | None => getFirstComment self line
  | Some second =>
      let secondary_comment_mark_match := rmatch second line in
      text ← commentText self line secondary_comment_mark_match;
      (* Load a new line from the opened file if the comment is empty *)
      if decide (text = Some []) then call self
      else if decide (text ≠ None) then Ok (newComment self text, (fp, self))
      else Ok (newComment self (Some []), (fp, self))
  end.
End Methods.

(** [__call__]: [readline] gives the next line, or the empty string
    once the file is exhausted.  The scanner calls itself to pass
    over a line; here the depth of these calls is not counted (see
    [call_within] for the scanner under the limit of Python's
    stack). *)
Fixpoint call (fp : list str) (self : t) : result outcome :=
  match fp with
  | [] =>
      let self := mk (S (lineNo self)) (isSecondComment self)
                     (borderCommentRE self) in
      Ok (newComment self (Some []), ([], self))
  | raw :: fp' =>
      let line := Py.rstrip raw in
      let self := mk (S (lineNo self)) (isSecondComment self)
                     (borderCommentRE self) in
      if decide (line = []) then Ok (newComment self (Some []), (fp', self))
      else getComment (call fp') fp' self line
  end.

(** A call of a method takes a place on Python's stack: with
    [depth] nested calls still allowed the body runs with one less,
    and a call made when none is left raises [RuntimeError]. *)
Definition enter {A} (depth : nat) (body : nat → result A) : result A :=
  match depth with
  | 0 => Raise RuntimeError
  | S depth => body depth
  end.

(** [__call__] under the recursion limit of the interpreter.  To pass
    over a line the scanner calls itself from inside [__getComment]
    or [__getFirstComment], so every line passed over keeps two or
    three calls on the stack.  [depth] is the number of nested calls
    still allowed when [__call__] is called.  The program never
    changes the limit, which is 1000 by default, so [depth] is below
    1000 in a run.  The calls of [__call__], [__getComment] and
    [__getFirstComment] are counted; the helpers return before the
    scanner calls itself again, and what they take on top is left
    out: the program reaches the limit no later than this function
    does. *)
Fixpoint call_within (depth : nat) (fp : list str) (self : t) {struct fp}
    : result outcome :=
  enter depth (λ depth,
    match fp with
    | [] =>
        let self := mk (S (lineNo self)) (isSecondComment self)
                       (borderCommentRE self) in
        Ok (newComment self (Some []), ([], self))
    | raw :: fp' =>
        let line := Py.rstrip raw in
        let self := mk (S (lineNo self)) (isSecondComment self)
                       (borderCommentRE self) in
        if decide (line = []) then Ok (newComment self (Some []), (fp', self))
        else
          (* [self.__getComment(line)] *)
          enter depth (λ depth,
            match isSecondComment self with
            | None =>
                (* [self.__getFirstComment(line)] *)
                enter depth (λ depth,
                  getFirstComment (call_within depth fp') fp' self line)
            | Some _ => getComment (call_within depth fp') fp' self line
            end)
    end).

End ProcessLine.

(** ** Headings and keyword lines *)

(** [is_heading]: [^\s*Tutorial\s+] under [re.I] *)
Definition is_heading_re : regex :=
  (Bos ⋅ Star Space ⋅ litI "Tutorial" ⋅ Plus Space)%re.

Definition is_heading (s : str) : option MatchObject := rmatch is_heading_re s.

(** [is_kwords]: [^\s*KWords\s*:] under [re.I] *)
Definition is_kwords_re : regex :=
  (Bos ⋅ Star Space ⋅ litI "KWords" ⋅ Star Space ⋅ Chr (Lit ":"))%re.

Definition is_kwords (s : str) : option MatchObject := rmatch is_kwords_re s.

(** [prefix and prefix.group() or None]: an empty group counts as
    false. *)
Definition group_or_None (prefix : option MatchObject) : option str :=
  match prefix with
  | Some mo => if decide (group mo = []) then None else Some (group mo)
  | None => None
  end.

Definition read_heading_prefix (s : str) : option str :=
  group_or_None (is_heading s).

Definition read_kwords_prefix (s : str) : option str :=
  group_or_None (is_kwords s).

(** ** class ProcessComment *)

Module ProcessComment.

Record t := mk {
  heading : str;
  headingLC : str;              (* heading in lower-case letters *)
  keywordsSet : gset str;
  keywordsAllowed : bool }.

Definition init : t := mk "" "" ∅ false.

(** [__tutorialHeading] *)
Definition tutorialHeading (headingPrefix commentLine : str) : result str :=
  tail ← tail_after commentLine headingPrefix;
  Ok (Py.capitalize (normalise_text headingPrefix) ++ " "
      ++ normalise_text tail).

(** [__tutorialKeywords] *)
Definition tutorialKeywords (keywordsPrefix commentLine : str) : result str :=
  tail ← tail_after commentLine keywordsPrefix;
  Ok (normalise_text tail).

(** [values_of_set] and [__keywordsToString] *)
Definition values_of_set (s : gset str) : list str := elements s.

Definition keywordsToString (self : t) : str :=
  Py.join ", " (Py.sorted (values_of_set (keywordsSet self))).

(** [__storeHeading] *)
Definition storeHeading (h : str) (self : t) : t :=
  let heading := normalise_text h in
  mk heading (Py.lower heading) (keywordsSet self) (keywordsAllowed self).

(** [__updateHeading] *)
Definition updateHeading (newHeading : str) (comment : Comment.t) (self : t)
    : result (t * Comment.t) :=
  if decide (heading self = []) then
    Ok (storeHeading newHeading self, Comment.setCurrent None comment)
  else
    let _newHeading := Py.lower newHeading in
    if decide (headingLC self = _newHeading) then
      Ok (self, Comment.setCurrent None comment)
    else if decide (Py.find (headingLC self) _newHeading = 0%Z) then
      let self' := storeHeading newHeading self in
      let comment := Comment.setCurrent None comment in
      comment ← Comment.addWarning
        ("will use newly found, shorter heading '" ++ newHeading ++ "'")
        comment;
      Ok (self', comment)
    else if decide (Py.find _newHeading (headingLC self) = 0%Z) then
      Ok (self, Comment.setCurrent None comment)
    else
      comment ← Comment.addError
        ("heading '" ++ newHeading
         ++ "' different from previous files' heading '"
         ++ heading self ++ "'" ++ ["010"%char])
        comment;
      Ok (self, comment).

(** [__updateKeywords] *)
Definition updateKeywords (keywords : str) (comment : Comment.t) (self : t)
    : t * Comment.t :=
  (mk (heading self) (headingLC self)
      (foldl (λ set kw, set ∪ {[kw]}) (keywordsSet self)
         (split_on_commas keywords))
      (keywordsAllowed self),
   Comment.setCurrent None comment).

Definition setKeywordsAllowed (b : bool) (self : t) : t :=
  mk (heading self) (headingLC self) (keywordsSet self) b.

(** [__call__] *)
Definition call (comment : Comment.t) (self : t) : result (t * Comment.t) :=
  match Comment.current comment with
  | None => Raise TypeError
  | Some currentCommentLine =>
      match read_heading_prefix currentCommentLine with
      | Some headingPrefix =>
          let self := setKeywordsAllowed true self in
          newHeading ← tutorialHeading headingPrefix currentCommentLine;
          updateHeading newHeading comment self
      | None =>
          match read_kwords_prefix currentCommentLine with
          | Some kwordsPrefix =>
              if negb (keywordsAllowed self) then
                comment ← Comment.addWarning
                  ("Found keywords definition in file with no Tutorial line"
                   ++ ": '" ++ currentCommentLine ++ "'")
                  comment;
                Ok (self, comment)
              else
                keywords ← tutorialKeywords kwordsPrefix currentCommentLine;
                Ok (updateKeywords keywords comment self)
          | None =>
              let self := setKeywordsAllowed false self in
              let comment := Comment.setHeading (heading self) comment in
              Ok (self, Comment.setKeywords (keywordsToString self) comment)
          end
      end
  end.

End ProcessComment.

(** ** The result classifier *)

Inductive code := NOT_DONE | DONE | WARNING | ERROR.

(** The second component of the pair: the comment or a message. *)
Inductive payload :=
| PComment (comment : Comment.t)
| PMessage (message : str).

Definition assess_processing_result (comment : Comment.t) : code * payload :=
  if decide (Comment.error comment ≠ []) then
    (ERROR, PMessage (Comment.error comment))
  else
    let warning := Comment.warning comment in
    if decide (warning ≠ []) then (WARNING, PMessage warning)
    else if decide (Comment.current comment = None) then
      (NOT_DONE, PComment comment)
    else (DONE, PComment comment).

(** ** The orchestrator *)

(** What has been written on the two streams. *)
Record io := mkio { stdout : str; stderr : str }.

Definition write_stdout (s : str) (o : io) : io := mkio (stdout o ++ s) (stderr o).
Definition write_stderr (s : str) (o : io) : io := mkio (stdout o) (stderr o ++ s).

(** [print s] *)
Definition print (s : str) (o : io) : io := write_stdout (s ++ ["010"%char]) o.

Definition handle_error (message fileName : str) (o : io) : io :=
  write_stderr (fileName ++ ":" ++ message ++ ["010"%char]) o.

Definition handle_warning (message fileName : str) (o : io) : io :=
  write_stderr ("Warning:" ++ fileName ++ ":" ++ message ++ ["010"%char]) o.

(** [display_metadata] *)
Definition display_metadata (comment : Comment.t) (o : io) : result io :=
  let heading := Comment.heading comment in
  let keywords := Comment.keywords comment in
  if decide (heading ≠ [] ∧ keywords ≠ []) then
    Ok (print (heading ++ ["010"%char] ++ "Keywords: " ++ keywords) o)
  else if decide (heading ≠ [] ∧ keywords = []) then
    Ok (print heading
          (write_stderr ("Warning: failed to find any tutorial keywords."
                         ++ ["010"%char]) o))
  else if decide (heading = [] ∧ keywords ≠ []) then
    Raise (AssertionError "Found keywords but no tutorial heading.")
  else Ok o.

(** How a run ends: [exit(n)], an exception nobody catches, or (in
    the model only) a loop that was given too little fuel. *)
Inductive status :=
| Exited (n : nat)
| Uncaught (e : exn)
| OutOfFuel.

(** How the [while True] loop over one file ends: by [break], with
    the comment assigned to [result], or by ending the run. *)
Inductive loop_end :=
| Break (processComment : ProcessComment.t) (result : Comment.t) (o : io)
| Stop (st : status) (o : io).

(** The body of [with open(fn, 'r') as fp]: [fp] holds the lines not
    read yet, [next_comment] the scanner's fields. *)
Fixpoint scan_file (fuel : nat) (fn : str) (processComment : ProcessComment.t)
    (fp : list str) (next_comment : ProcessLine.t) (o : io) : loop_end :=
  match fuel with
  | 0 => Stop OutOfFuel o
  | S fuel =>
      match ProcessLine.call fp next_comment with
      | Raise e => Stop (Uncaught e) o
      | Ok (comment, (fp, next_comment)) =>
          match ProcessComment.call comment processComment with
          | Raise e => Stop (Uncaught e) o
          | Ok (processComment, comment) =>
              match assess_processing_result comment with
              | (ERROR, PMessage result) =>
                  let o := handle_error result fn o in
                  let o := write_stderr ("Processing aborted." ++ ["010"%char]) o in
                  Stop (Exited 1) o
              | (WARNING, PMessage result) =>
                  let o := handle_warning result fn o in
                  scan_file fuel fn processComment fp next_comment o
              | (DONE, PComment result) => Break processComment result o
              | _ => scan_file fuel fn processComment fp next_comment o
              end
          end
      end
  end.

(** A file of the run: its name and its lines. *)
Definition file : Type := str * list str.

(** The [for fn in fileNames] loop.  A file of [n] lines is given
    [n + 1] turns of the inner loop. *)
Fixpoint scan_files (files : list file) (processComment : ProcessComment.t)
    (result : option Comment.t) (o : io)
    : (ProcessComment.t * option Comment.t * io) + (status * io) :=
  match files with
  | [] => inl (processComment, result, o)
  | (fn, lines) :: files =>
      match scan_file (S (length lines)) fn processComment lines
              ProcessLine.init o with
      | Break processComment result o =>
          scan_files files processComment (Some result) o
      | Stop st o => inr (st, o)
      end
  end.

(** [process]: the streams and the way the run ends. *)
Definition process (fileNames : list file) : status * io :=
  match scan_files fileNames ProcessComment.init None (mkio [] []) with
  | inr r => r
  | inl (_, result, o) =>
      match result with
      | None =>
          (Exited 1,
           write_stderr ("AssertionError: input file names list empty."
                         ++ ["010"%char]) o)
      | Some result =>
          match display_metadata result o with
          | Ok o => (Exited 0, o)
          | Raise (AssertionError e) =>
              (Exited 1,
               write_stderr ("AssertionError: " ++ e ++ "." ++ ["010"%char]) o)
          | Raise e => (Uncaught e, o)
          end
      end
  end.

(** ** The run with a given scanner

    [process] again, with the function that stands for
    [next_comment()] as a parameter: [scan_file], [scan_files] and
    [process] are the instances at [ProcessLine.call].  Nothing in
    [process] catches the [RuntimeError] of the scanner: it ends the
    run. *)

Section Scanner.
Context (next_comment_call :
           list str → ProcessLine.t → result ProcessLine.outcome).

Fixpoint scan_file_with (fuel : nat) (fn : str)
    (processComment : ProcessComment.t) (fp : list str)
    (next_comment : ProcessLine.t) (o : io) : loop_end :=
  match fuel with
  | 0 => Stop OutOfFuel o
  | S fuel =>
      match next_comment_call fp next_comment with
      | Raise e => Stop (Uncaught e) o
      | Ok (comment, (fp, next_comment)) =>
          match ProcessComment.call comment processComment with
          | Raise e => Stop (Uncaught e) o
          | Ok (processComment, comment) =>
              match assess_processing_result comment with
              | (ERROR, PMessage result) =>
                  let o := handle_error result fn o in
                  let o := write_stderr ("Processing aborted." ++ ["010"%char]) o in
                  Stop (Exited 1) o
              | (WARNING, PMessage result) =>
                  let o := handle_warning result fn o in
                  scan_file_with fuel fn processComment fp next_comment o
              | (DONE, PComment result) => Break processComment result o
              | _ => scan_file_with fuel fn processComment fp next_comment o
              end
          end
      end
  end.

Fixpoint scan_files_with (files : list file)
    (processComment : ProcessComment.t) (result : option Comment.t) (o : io)
    : (ProcessComment.t * option Comment.t * io) + (status * io) :=
  match files with
  | [] => inl (processComment, result, o)
  | (fn, lines) :: files =>
      match scan_file_with (S (length lines)) fn processComment lines
              ProcessLine.init o with
      | Break processComment result o =>
          scan_files_with files processComment (Some result) o
      | Stop st o => inr (st, o)
      end
  end.

Definition process_with (fileNames : list file) : status * io :=
  match scan_files_with fileNames ProcessComment.init None (mkio [] []) with
  | inr r => r
  | inl (_, result, o) =>
      match result with
      | None =>
          (Exited 1,
           write_stderr ("AssertionError: input file names list empty."
                         ++ ["010"%char]) o)
      | Some result =>
          match display_metadata result o with
          | Ok o => (Exited 0, o)
          | Raise (AssertionError e) =>
              (Exited 1,
               write_stderr ("AssertionError: " ++ e ++ "." ++ ["010"%char]) o)
          | Raise e => (Uncaught e, o)
          end
      end
  end.

End Scanner.

(** [process] when [depth] nested calls are still allowed at each
    [next_comment()]. *)
Definition process_within (depth : nat) (fileNames : list file)
    : status * io :=
  process_with (ProcessLine.call_within depth) fileNames.

(** ** The command line and the enumeration of the files

    What the program reads from its environment is gathered in a
    record: the command line, the test [os.path.exists], the outcome
    of the shell command run by [subprocess.check_output], and the
    lines of the files (all of them readable, as [process] supposes). *)

(** The outcome of [subprocess.check_output(cmd, shell=True)]: the
    output of the command, a [CalledProcessError], or another
    exception, given by the text [sys.exc_info()[0]] is formatted
    to. *)
Inductive shell_result :=
| Output (names : str)
| CalledProcessError
| OtherError (exc_type : str).

Record env := mkenv {
  argv : list str;
  path_exists : str → bool;
  check_output : str → shell_result;
  read_lines : str → list str }.

Definition nl : str := ["010"%char].
Definition tab : str := ["009"%char].
Definition dq : str := ["034"%char].

(** [l[i]] *)
Definition item {A} (l : list A) (i : nat) : result A :=
  match l !! i with
  | Some x => Ok x
  | None => Raise IndexError
  end.

(** [command_line_syntax] *)
Definition command_line_syntax (programName : str) : str :=
  programName ++ " [ [-h|--help] | <directory name> ]".

(** [report_command_line_error] *)
Definition report_command_line_error (argv : list str) (msg : str) (o : io)
    : result io :=
  argv0 ← item argv 0;
  Ok (write_stderr ("Error:" ++ msg ++ nl ++ "Syntax: "
                    ++ command_line_syntax argv0 ++ nl) o).

(** The lines of the text [display_manual] writes after the syntax. *)
Definition manual_lines : list str :=
  ["where" : str;
   "  -h|--help" ++ tab ++ tab ++ "leads to the display of the current page";
   "  <direectory name>" ++ tab ++ "is the name of the directory to browse";
   [];
   "The program browses the file tree rooted at <directory name> for ASCII files" : str;
   "with an opening comment section containing tutorial metadata. At the end of the" : str;
   "execution, the metadata found, if any, are displayed on stdout." : str;
   [];
   "The files contributing metadata should start with the said comment section." : str;
   "Otherwise, they are skipped." : str;
   [];
   "The metadata consist in:" : str;
   "1) a non-empty comment line starting with " ++ dq ++ "Tutorial" ++ dq;
   "2) One or several consecutive comment lines starting with " ++ dq ++ "KWords" ++ dq;
   [];
   "In case the " ++ dq ++ "Tutorial" ++ dq ++ " line is not always the same, the smallest version, i.e.,";
   "the most generic version, is retained as long as it is included in all longer" : str;
   "versions." : str;
   [];
   "All the versions have to fully include the smaller versions, otherwise the" : str;
   "program considers them part of different tutorial metadata, raises an error and" : str;
   "aborts. The program considers that the file tree can contain only one tutorial." : str;
   [];
   "If a file contains keywords but no " ++ dq ++ "Tutorial" ++ dq ++ " line, a warning is displayed and";
   "the file is skipped." : str;
   [];
   "The output printed on stdout is comprised of, first, the " ++ dq ++ "Tutorial" ++ dq ++ " line,";
   "followed by a " ++ dq ++ "KWords" ++ dq ++ " line listing, in alphabetical order, all the keywords";
   "collected." : str;
   [];
   "If the processing only led to collecting " ++ dq ++ "Tutorial" ++ dq ++ " lines, the resulting";
   dq ++ "Tutorial" ++ dq ++ " line (see above) is displayed but a warning reports, on stderr, the";
   "lack of keywords." : str;
   [];
   "The program's exit status code is 0 if the execution was successful," : str;
   "non-zero otherwise." : str].

(** Lines, each ended by a newline. *)
Definition unlines (ls : list str) : str := concat ((λ l, l ++ nl) <$> ls).

Definition manual_text : str := nl ++ unlines manual_lines.

(** [display_manual] *)
Definition display_manual (argv : list str) (o : io) : result io :=
  argv0 ← item argv 0;
  let o := write_stderr (command_line_syntax argv0 ++ nl) o in
  Ok (write_stderr manual_text o).

(** [get_args]: the value returned ([None] is Python's None) and the
    streams. *)
Definition get_args (e : env) (o : io) : result (option str * io) :=
  let args := argv e in
  if bool_decide (("-h" : str) ∈ args) || bool_decide (("--help" : str) ∈ args)
  then
    o ← display_manual args o;
    Ok (Some [], o)
  else if decide (length args < 2) then
    o ← report_command_line_error args "Error: invalid command line" o;
    Ok (None, o)
  else
    args1 ← item args 1;
    if path_exists e args1 then Ok (Some args1, o)
    else
      o ← report_command_line_error args
             ("Error: non-existent directory: '" ++ args1 ++ "'") o;
      Ok (None, o).

(** The shell command of [get_file_names]. *)
Definition all_text_files (directoryPath : str) : str :=
  "find " ++ directoryPath
  ++ " -type f| xargs file| grep ' text'| awk -F: '{print $1}'".

(** The test of the generator expression of [get_file_names]:
    the name is not empty and ends neither with [~] nor with [#]. *)
Definition kept_name (fn : str) : Prop :=
  fn ≠ [] ∧ last fn ≠ Some "~"%char ∧ last fn ≠ Some "#"%char.

(** [get_file_names]: the names the returned generator yields, or
    [None]. *)
Definition get_file_names (e : env) (directoryPath : str) (o : io)
    : option (list str) * io :=
  match check_output e (all_text_files directoryPath) with
  | Output names =>
      if decide (length names = 0) then (None, o)
      else (Some (filter kept_name (Re.split (Chr (Lit "010")) names)), o)
  | CalledProcessError =>
      (None,
       write_stderr ("Failed to execute: " ++ all_text_files directoryPath
                     ++ nl) o)
  | OtherError exc_type =>
      (None, write_stderr ("Error: " ++ exc_type ++ nl) o)
  end.

(** What is written by [o], then what is written by [o']. *)
Definition io_app (o o' : io) : io :=
  mkio (stdout o ++ stdout o') (stderr o ++ stderr o').

(** The body of [if __name__ == '__main__'].  A script that reaches
    its end without a call of [exit] ends with status 0. *)
Definition main (e : env) : status * io :=
  match get_args e (mkio [] []) with
  | Raise ex => (Uncaught ex, mkio [] [])
  | Ok (None, o) => (Exited 1, o)
  | Ok (Some directoryName, o) =>
      if decide (directoryName = []) then (Exited 0, o)
      else
        match get_file_names e directoryName o with
        | (Some fileNames, o) =>
            (* Exit happens in process() *)
            let '(st, o') :=
              process ((λ fn, (fn, read_lines e fn)) <$> fileNames) in
            (st, io_app o o')
        | (None, o) => (Exited 0, o)
        end
  end.

(** ** The example of the header comment of the source *)

(** File #1 and file #2 of that comment, line by line. *)
Definition file1 : list str :=
  ["## Tutorial #1: summary tut.1" : str; "# KWords: kw1, kw2" : str].

Definition file2 : list str :=
  [" /* Tutorial #1: summary tut.1 *" : str;
   " * KWords: kw1, kw3  *" : str;
   " * KWords: kw4  */" : str].

(** The states and environments of the other examples. *)

(** The aggregator after the heading line [Tutorial x] and the
    keyword line [KWords: a, b c]. *)
Definition two_keywords_state : ProcessComment.t :=
  ProcessComment.mk "Tutorial x" "tutorial x"
    (∅ ∪ {["a" : str]} ∪ {["b c" : str]}) true.

(** The aggregator after the heading line [Tutorial x] alone. *)
Definition one_heading_state : ProcessComment.t :=
  ProcessComment.mk "Tutorial x" "tutorial x" ∅ true.

(** The scanner once it has met a first comment line that opens
    with one [#]. *)
Definition hash_scanner (lineNo : nat) : ProcessLine.t :=
  ProcessLine.mk lineNo
    (Some (Bos ⋅ single_char_comment_mark_regex "#")%re)
    (Some (single_char_comment_mark_regex "#" ⋅ Eos)%re).

(** Environments of the examples: the directory [d] exists and the
    shell command gives the outcome [r]; every file holds a heading
    line and a keyword line. *)
Definition example_env (args : list str) (r : shell_result) : env :=
  mkenv args (λ p, bool_decide (p = ("d" : str))) (λ _, r)
    (λ _, ["# Tutorial x" : str; "# KWords: a" : str]).

(** * Vocabulary of the properties *)

(** The words a pattern can consume, anchors apart. *)
Fixpoint matches (r : regex) (w : str) : Prop :=
  match r with
  | Eps | Bos | Eos => w = []
  | Chr cl => ∃ c, w = [c] ∧ cmatch cl c = true
  | Star cl => Forall (λ c, cmatch cl c = true) w
  | Seq r1 r2 => ∃ w1 w2, w = w1 ++ w2 ∧ matches r1 w1 ∧ matches r2 w2
  | Alt r1 r2 => matches r1 w ∨ matches r2 w
  | Group r1 => matches r1 w
  end.

(** Whether a pattern holds the capturing group. *)
Fixpoint has_group (r : regex) : bool :=
  match r with
  | Group _ => true
  | Seq r1 r2 | Alt r1 r2 => has_group r1 || has_group r2
  | _ => false
  end.

(** The scanner's fields are consistent when a pattern for the
    continuation lines comes with a border pattern. *)
Definition wf (self : ProcessLine.t) : Prop :=
  ProcessLine.isSecondComment self ≠ None →
  ProcessLine.borderCommentRE self ≠ None.

(** The snapshot that closes a block. *)
Definition closing (pc : ProcessComment.t) (c : Comment.t) : Comment.t :=
  Comment.setKeywords (ProcessComment.keywordsToString pc)
    (Comment.setHeading (ProcessComment.heading pc) c).

(** One state of the aggregator leads to another by a call. *)
Definition agg_step (pc pc' : ProcessComment.t) : Prop :=
  ∃ c c', ProcessComment.call c pc = Ok (pc', c').

(** The states the aggregator can reach. *)
Definition reachable (pc : ProcessComment.t) : Prop :=
  rtc agg_step ProcessComment.init pc.

(** [result], when assigned, is the snapshot of the aggregator. *)
Definition snapshot_of (pc : ProcessComment.t) (result : option Comment.t)
    : Prop :=
  ∀ r, result = Some r →
    Comment.heading r = ProcessComment.heading pc
    ∧ Comment.keywords r = ProcessComment.keywordsToString pc.

(** The first [n] records the scanner produces for a file: the
    results of [n] successive calls of [next_comment()]. *)
Fixpoint pull (n : nat) (fp : list str) (self : ProcessLine.t)
    : result (list Comment.t) :=
  match n with
  | 0 => Ok []
  | S n =>
      '(c, (fp', self')) ← ProcessLine.call fp self;
      cs ← pull n fp' self';
      Ok (c :: cs)
  end.

(** Texts made of white space only, and texts with none. *)
Definition allspace (w : str) : Prop := Forall (λ c, Py.isspace c = true) w.

Definition nospace (w : str) : Prop := Forall (λ c, Py.isspace c = false) w.

(** No white space at either end: what [strip] leaves. *)
Definition trimmed (s : str) : Prop :=
  (∀ c s', s = c :: s' → Py.isspace c = false)
  ∧ (∀ s' c, s = s' ++ [c] → Py.isspace c = false).

(** Each run of white space becomes one space: the last character of
    the run is the one that is replaced, the others are dropped. *)
Fixpoint collapse (s : str) : str :=
  match s with
  | [] => []
  | c :: s' =>
      if Py.isspace c then
        match s' with
        | d :: _ => if Py.isspace d then collapse s' else " "%char :: collapse s'
        | [] => [" "%char]
        end
      else c :: collapse s'
  end.

(** The length of the run of white space a text starts with. *)
Fixpoint span (s : str) : nat :=
  match s with
  | c :: s' => if Py.isspace c then S (span s') else 0
  | [] => 0
  end.

(** What [normalise_text] returns is a text it leaves alone. *)
Definition normal (s : str) : Prop := normalise_text s = s.

(** A heading candidate: the heading the aggregator extracts from a
    text of the scanner (a stripped text) that is a heading line. *)
Definition heading_candidate (h : str) : Prop :=
  ∃ line p, Py.strip line = line ∧ read_heading_prefix line = Some p
    ∧ ProcessComment.tutorialHeading p line = Ok h.

(** The invariant of the aggregator: keywords, and an open gate, come
    with a stored heading. *)
Definition gate_inv (pc : ProcessComment.t) : Prop :=
  (ProcessComment.keywordsSet pc ≠ ∅ → ProcessComment.heading pc ≠ [])
  ∧ (ProcessComment.keywordsAllowed pc = true → ProcessComment.heading pc ≠ []).

(** A line the scanner passes over while it looks for the first
    comment of a file: a shebang line, or a comment that is empty
    once its mark and its border are taken away. *)
Definition discarded (raw : str) : Prop :=
  Py.rstrip raw ≠ []
  ∧ ∃ mo, is_comment (Py.rstrip raw) = Some mo
    ∧ (take 3 (Py.rstrip raw) = "#!/"
       ∨ ∃ mark border,
           group1 mo = Some mark
           ∧ define_comment_border_regex mark = Ok (Some border)
           ∧ Py.strip (Re.sub border ""
                         (drop (length (group mo)) (Py.rstrip raw))) = []).

(** [a] is a prefix of [b] when case is ignored: the test the
    aggregator makes with [find] on the lower-case texts. *)
Definition ci_prefix (a b : str) : Prop :=
  Py.startswith (Py.lower b) (Py.lower a) = true.

(** Two headings fed to the reconciliation step in the order [X],
    [Y], on fresh records: the first call signals nothing, the second
    leaves [stored] as the heading and signals [warn] and [err] (empty
    when nothing is signalled). *)
Definition reconciled (X Y : str) (pc : ProcessComment.t)
    (n1 : nat) (t1 : option str) (n2 : nat) (t2 : option str)
    (stored warn err : str) : Prop :=
  ∃ pc1 c1 pc2 c2,
    ProcessComment.updateHeading X (Comment.init n1 t1) pc = Ok (pc1, c1)
    ∧ ProcessComment.heading pc1 = X
    ∧ Comment.warning c1 = [] ∧ Comment.error c1 = []
    ∧ ProcessComment.updateHeading Y (Comment.init n2 t2) pc1 = Ok (pc2, c2)
    ∧ ProcessComment.heading pc2 = stored
    ∧ Comment.warning c2 = warn ∧ Comment.error c2 = err.

(** The claim C2 as it is worded: whenever [A] is a prefix of [B],
    case apart, [A] is what stays stored in both orders, and the
    order [B], [A] signals a warning. *)
Definition shorter_always_wins : Prop :=
  ∀ A B pc n1 t1 n2 t2,
    heading_candidate A → heading_candidate B →
    ProcessComment.heading pc = [] → ci_prefix A B →
    reconciled A B pc n1 t1 n2 t2 A [] []
    ∧ ∃ w, w ≠ [] ∧ reconciled B A pc n1 t1 n2 t2 A w [].

(** The aggregator after it has consumed the texts, in order. *)
Fixpoint consume (texts : list str) (pc : ProcessComment.t)
    : result ProcessComment.t :=
  match texts with
  | [] => Ok pc
  | text :: texts =>
      '(pc', _) ← ProcessComment.call (Comment.init 0 (Some text)) pc;
      consume texts pc'
  end.

(** The keywords as they would be displayed after the texts. *)
Definition rendering (texts : list str) : result str :=
  pc ← consume texts ProcessComment.init;
  Ok (ProcessComment.keywordsToString pc).

(** Whether a text starts with white space. *)
Definition head_space (y : str) : bool :=
  match y with
  | c :: _ => Py.isspace c
  | [] => false
  end.

(** The keyword lines of the example, as the scanner hands them
    over, in several spellings: other case, no space or several after
    a comma or around the colon, white space before a comma. *)
Definition k1_k2_lines : list str :=
  ["KWords: k1, k2" : str; "KWords: k1,   k2" : str; "KWords:k1,k2" : str;
   "kwords  :   k1 ,k2" : str; "KWords: k1, k2, k1" : str].

Definition k2_k3_lines : list str :=
  ["KWords: k2, k3" : str; "KWords: k2,    k3" : str; "KWORDS:k3,,k2" : str].

(** Every white-space character of the text is one space, and a
    character that is not white space follows it. *)
Fixpoint single_spaced (s : str) : Prop :=
  match s with
  | [] => True
  | c :: s' =>
      (Py.isspace c = true → c = " "%char ∧ s' ≠ [] ∧ head_space s' = false)
      ∧ single_spaced s'
  end.

(** What holds of every keyword of the set: it is not empty, it is
    normalised and it holds no comma. *)
Definition keyword_inv (pc : ProcessComment.t) : Prop :=
  ∀ k, k ∈ ProcessComment.keywordsSet pc →
    k ≠ [] ∧ normal k ∧ ","%char ∉ k.


(** The invariant of the stored heading: its lower-case copy goes
    with it, it is normalised, and when it is not empty it starts
    with the capitalised word. *)
Definition heading_inv (pc : ProcessComment.t) : Prop :=
  ProcessComment.headingLC pc = Py.lower (ProcessComment.heading pc)
  ∧ normal (ProcessComment.heading pc)
  ∧ (ProcessComment.heading pc = []
     ∨ Py.startswith (ProcessComment.heading pc) "Tutorial" = true).

(** The headings fed in order to the reconciliation step, each on a
    fresh record, as long as no error is signalled: the state that
    is reached, or [None] after an error. *)
Fixpoint accept (hs : list str) (pc : ProcessComment.t)
    : option ProcessComment.t :=
  match hs with
  | [] => Some pc
  | h :: hs =>
      match ProcessComment.updateHeading h (Comment.init 0 None) pc with
      | Ok (pc', c') =>
          if decide (Comment.error c' = []) then accept hs pc' else None
      | Raise _ => None
      end
  end.

(** The command line names a directory to browse: no help option,
    and a second argument that is not empty and exists. *)
Definition browses (e : env) (argv0 dir : str) (rest : list str) : Prop :=
  (("-h" : str) ∉ argv e) ∧ (("--help" : str) ∉ argv e)
  ∧ argv e = argv0 :: dir :: rest
  ∧ path_exists e dir = true ∧ dir ≠ [].

(** A file made of the heading line [# Tutorial y] and of the
    keyword line [# KWords: k1, k2, ...], given by its name and its
    keywords. *)
Definition heading_keywords_file (y : str) (f : str * list str) : file :=
  (f.1, [("#" : str) ++ " " ++ "Tutorial" ++ " " ++ y;
         ("#" : str) ++ " " ++ "KWords" ++ ":" ++ " " ++ Py.join ", " f.2]).

(** * Properties *)

(** ** Regular expressions: what a match consumes *)

Section EngineFacts.

Context {A : Type}.

Lemma star_sound cl (k : nat → str → option A) pos s x :
  star cl k pos s = Some x →
  ∃ w s', s = w ++ s' ∧ Forall (λ c, cmatch cl c = true) w
          ∧ k (pos + length w) s' = Some x.
Proof.
  revert pos. induction s as [|c s IH]; intros pos; simpl.
  - intros Hk. exists [], []. rewrite Nat.add_0_r. auto.
  - destruct (cmatch cl c) eqn:Hc.
    + destruct (star cl k (S pos) s) as [y|] eqn:Hs.
      * intros [= ->]. destruct (IH _ Hs) as (w & s' & -> & Hw & Hk).
        exists (c :: w), s'. simpl.
        replace (pos + S (length w)) with (S pos + length w) by lia. auto.
      * intros Hk. exists [], (c :: s). rewrite Nat.add_0_r. auto.
    + intros Hk. exists [], (c :: s). rewrite Nat.add_0_r. auto.
Qed.

Lemma run_sound r : ∀ pos s cap (k : @cont A) x,
  run r pos s cap k = Some x →
  ∃ w s' cap', s = w ++ s' ∧ matches r w
               ∧ (has_group r = false → cap' = cap)
               ∧ k (pos + length w) s' cap' = Some x.
Proof.
  induction r as [| | |cl|cl|r1 IH1 r2 IH2|r1 IH1 r2 IH2|r1 IH1];
    intros pos s cap k x; simpl.
  - intros Hk. exists [], s, cap. rewrite Nat.add_0_r. auto.
  - case_decide; [|done]. intros Hk. exists [], s, cap.
    rewrite Nat.add_0_r. auto.
  - case_decide; [|done]. intros Hk. exists [], s, cap.
    rewrite Nat.add_0_r. auto.
  - destruct s as [|c s]; [done|]. destruct (cmatch cl c) eqn:Hc; [|done].
    intros Hk. exists [c], s, cap. simpl.
    replace (pos + 1) with (S pos) by lia. eauto 10.
  - intros Hs. apply star_sound in Hs as (w & s' & -> & Hw & Hk).
    exists w, s', cap. auto.
  - intros H1. apply IH1 in H1 as (w1 & s1 & cap1 & -> & Hw1 & Hc1 & H2).
    apply IH2 in H2 as (w2 & s2 & cap2 & -> & Hw2 & Hc2 & Hk).
    exists (w1 ++ w2), s2, cap2. rewrite length_app, Nat.add_assoc, <-(assoc_L (++)).
    repeat split; eauto.
    intros [? ?]%orb_false_iff. rewrite Hc2, Hc1; auto.
  - destruct (run r1 pos s cap k) as [y|] eqn:H1.
    + intros [= ->]. apply IH1 in H1 as (w & s' & cap' & -> & Hw & Hc & Hk).
      exists w, s', cap'. repeat split; auto.
      intros [? ?]%orb_false_iff; auto.
    + intros H2. apply IH2 in H2 as (w & s' & cap' & -> & Hw & Hc & Hk).
      exists w, s', cap'. repeat split; auto.
      intros [? ?]%orb_false_iff; auto.
  - intros H1. apply IH1 in H1 as (w & s' & cap' & -> & Hw & Hc & Hk).
    exists w, s', (Some (pos, pos + length w)). repeat split; auto. done.
Qed.

Lemma run_seq_sound r1 r2 pos s cap (k : @cont A) x :
  run (Seq r1 r2) pos s cap k = Some x →
  ∃ w s' cap', s = w ++ s' ∧ matches r1 w
               ∧ (has_group r1 = false → cap' = cap)
               ∧ run r2 (pos + length w) s' cap' k = Some x.
Proof. apply (run_sound r1). Qed.

Lemma run_group_sound r pos s cap (k : @cont A) x :
  run (Group r) pos s cap k = Some x →
  ∃ w s', s = w ++ s' ∧ matches r w
          ∧ k (pos + length w) s' (Some (pos, pos + length w)) = Some x.
Proof.
  intros H. apply (run_sound r) in H as (w & s' & ? & -> & ? & _ & ?). eauto.
Qed.

Lemma run_seq_group_sound r1 r2 pos s cap (k : @cont A) x :
  run (Seq (Group r1) r2) pos s cap k = Some x →
  ∃ w s', s = w ++ s' ∧ matches r1 w
          ∧ run r2 (pos + length w) s' (Some (pos, pos + length w)) k
            = Some x.
Proof. apply (run_group_sound r1). Qed.

End EngineFacts.

(** [group()] is a prefix of the text, made of what the pattern
    consumes. *)
Lemma rmatch_sound r s mo :
  rmatch r s = Some mo → ∃ s', s = group mo ++ s' ∧ matches r (group mo).
Proof.
  unfold rmatch. intros H.
  apply run_sound in H as (w & s' & cap' & -> & Hw & _ & [= <-]).
  simpl. rewrite take_app_length. eauto.
Qed.

Lemma tail_after_prefix (w s' : str) : tail_after (w ++ s') w = Ok s'.
Proof.
  unfold tail_after. rewrite length_app. case_decide; [lia|].
  by rewrite drop_app_length.
Qed.

Lemma tail_after_group r s mo :
  rmatch r s = Some mo → ∃ s', s = group mo ++ s' ∧ tail_after s (group mo) = Ok s'.
Proof.
  intros (s' & Hs & _)%rmatch_sound. exists s'. split; [done|].
  rewrite Hs at 1. apply tail_after_prefix.
Qed.

(** ** The line scanner *)

Lemma slice_app (w1 w2 s' : str) :
  slice (w1 ++ w2 ++ s') (length w1, length w1 + length w2) = w2.
Proof.
  unfold slice. simpl. rewrite drop_app_length.
  replace (length w1 + length w2 - length w1) with (length w2) by lia.
  apply take_app_length.
Qed.

Lemma is_comment_group1 line mo :
  is_comment line = Some mo →
  ∃ mark, group1 mo = Some mark ∧ matches opening_mark_re mark.
Proof.
  unfold is_comment, rmatch, is_comment_re. intros H.
  apply run_seq_sound in H as (w0 & s0 & cap0 & -> & Hw0 & Hc0 & H).
  simpl in Hw0. subst w0. rewrite (Hc0 eq_refl) in H.
  apply run_seq_sound in H as (w1 & s1 & cap1 & -> & _ & Hc1 & H).
  rewrite (Hc1 eq_refl) in H.
  apply run_seq_group_sound in H as (w2 & s2 & -> & Hw2 & H).
  apply (run_sound (Star Space)) in H
    as (w3 & s3 & cap3 & -> & _ & Hc3 & [= <-]). rewrite (Hc3 eq_refl).
  exists w2. split; [|done]. cbn [group1 fmap option_fmap option_map].
  f_equal. apply (slice_app w1 w2 (w3 ++ s3)).
Qed.

(** Each opening mark determines a border pattern and a pattern for
    the continuation lines. *)
Lemma opening_mark_profile mark :
  matches opening_mark_re mark →
  ∃ border second,
    define_comment_border_regex mark = Ok (Some border)
    ∧ secondary_comment_matcher mark = Ok (Some second).
Proof.
  unfold opening_mark_re, paren_star.
  cbn [matches Plus lit list_ascii_of_string].
  intros [[[[[H|H]|H]|H]|H]|H].
  - destruct H as (? & w & -> & (c & -> & ->%bool_decide_eq_true) & _).
    eexists _, _. split; reflexivity.
  - destruct H as (? & ? & -> & (c & -> & ->%bool_decide_eq_true)
                   & (d & -> & ->%bool_decide_eq_true)).
    eexists _, _. split; reflexivity.
  - destruct H as (? & ? & -> & (c & -> & ->%bool_decide_eq_true)
                   & (d & -> & ->%bool_decide_eq_true)).
    eexists _, _. split; reflexivity.
  - destruct H as (? & ? & -> & (c & -> & ->%bool_decide_eq_true)
                   & (d & -> & ->%bool_decide_eq_true)).
    eexists _, _. split; reflexivity.
  - destruct H as (? & ? & -> & (c & -> & ->%bool_decide_eq_true)
                   & (d & -> & ->%bool_decide_eq_true)).
    eexists _, _. split; reflexivity.
  - destruct H as (? & w & -> & (c & -> & ->%bool_decide_eq_true) & _).
    eexists _, _. split; reflexivity.
Qed.

Lemma wf_init : wf ProcessLine.init.
Proof. intros H. by destruct H. Qed.

Lemma commentText_match self r line mo border :
  rmatch r line = Some mo →
  ProcessLine.borderCommentRE self = Some border →
  ∃ tail, line = group mo ++ tail
    ∧ ProcessLine.commentText self line (Some mo)
      = Ok (Some (Py.strip (Re.sub border "" tail))).
Proof.
  intros (tail & Hl & Ht)%tail_after_group Hb. exists tail. split; [done|].
  unfold ProcessLine.commentText. rewrite Ht. simpl. by rewrite Hb.
Qed.

(** What one call of the scanner does: it returns a fresh record that
    holds a text, and it either finds the file exhausted and says so
    with an empty text, or consumes at least one line. *)
Lemma call_spec fp : ∀ self, wf self →
  ∃ text fp' self',
    ProcessLine.call fp self
    = Ok (Comment.init (ProcessLine.lineNo self') (Some text), (fp', self'))
    ∧ wf self'
    ∧ ((fp = [] ∧ fp' = [] ∧ text = []) ∨ length fp' < length fp).
Proof.
  induction fp as [|raw fp IH]; intros self Hwf.
  - simpl. eexists [], [], _. split; [reflexivity|]. split; [exact Hwf|]. auto.
  - cbn [ProcessLine.call].
    set (self1 := ProcessLine.mk _ _ _).
    assert (Hwf1 : wf self1) by exact Hwf.
    assert (Hrec : ∀ self2, wf self2 →
      ∃ text fp' self',
        ProcessLine.call fp self2
        = Ok (Comment.init (ProcessLine.lineNo self') (Some text), (fp', self'))
        ∧ wf self' ∧ length fp' < length (raw :: fp)).
    { intros self2 H2. destruct (IH self2 H2) as (t & fp' & s' & -> & ? & Hl).
      eexists t, fp', s'. repeat split; auto.
      destruct Hl as [(-> & -> & _)|?]; simpl in *; lia. }
    assert (Hstop : ∃ text fp' self',
      Ok (ProcessLine.newComment self1 (Some []), (fp, self1))
      = Ok (Comment.init (ProcessLine.lineNo self') (Some text), (fp', self'))
      ∧ wf self'
      ∧ ((raw :: fp = [] ∧ fp' = [] ∧ text = [])
         ∨ length fp' < length (raw :: fp))).
    { eexists [], fp, self1. repeat split; auto; right; simpl; lia. }
    case_decide as Hline; [exact Hstop|].
    unfold ProcessLine.getComment.
    destruct (ProcessLine.isSecondComment self1) as [second|] eqn:Hsec.
    + destruct (ProcessLine.borderCommentRE self1) as [border|] eqn:Hb;
        [|by destruct Hwf1; rewrite ?Hsec].
      destruct (rmatch second (Py.rstrip raw)) as [mo|] eqn:Hm.
      * destruct (commentText_match _ _ _ _ _ Hm Hb) as (tail & _ & ->).
        cbn [mbind result_bind].
        case_decide as Ht.
        { destruct (Hrec self1 Hwf1) as (t & fp' & s' & -> & ? & ?).
          eexists _, _, _. eauto. }
        rewrite decide_True by done.
        eexists _, fp, self1. repeat split; auto; right; simpl; lia.
      * cbn [ProcessLine.commentText mbind result_bind].
        rewrite decide_False by done. rewrite decide_False by (by intros []).
        exact Hstop.
    + unfold ProcessLine.getFirstComment.
      destruct (is_comment (Py.rstrip raw)) as [mo|] eqn:Hm; [|exact Hstop].
      case_decide as Hsh.
      { destruct (Hrec self1 Hwf1) as (t & fp' & s' & -> & ? & ?).
        eexists _, _, _. eauto. }
      destruct (is_comment_group1 _ _ Hm) as (mark & -> & Hmark).
      destruct (opening_mark_profile _ Hmark) as (border & second & -> & Hs2).
      cbn [mbind result_bind].
      set (self2 := ProcessLine.mk _ _ (Some border)).
      destruct (commentText_match self2 _ _ _ border Hm eq_refl)
        as (tail & _ & ->).
      cbn [mbind result_bind].
      case_decide as Ht.
      { assert (Hwf2 : wf self2) by (intros H; by destruct H).
        destruct (Hrec self2 Hwf2) as (t & fp' & s' & -> & ? & ?).
        eexists _, _, _. eauto. }
      rewrite Hs2. cbn [mbind result_bind].
      eexists _, fp, _. split; [reflexivity|]. split.
      * intros _. done.
      * right. simpl. lia.
Qed.

(** ** The aggregator *)

Lemma group_or_None_inv r line p :
  group_or_None (rmatch r line) = Some p →
  p ≠ [] ∧ ∃ tail, line = p ++ tail ∧ matches r p
                   ∧ tail_after line p = Ok tail.
Proof.
  unfold group_or_None. destruct (rmatch r line) as [mo|] eqn:Hm; [|done].
  case_decide; [done|]. intros [= <-]. split; [done|].
  destruct (rmatch_sound _ _ _ Hm) as (tail & Hl & Hw).
  exists tail. repeat split; auto. rewrite Hl at 1. apply tail_after_prefix.
Qed.

Lemma addWarning_ok msg c :
  Comment.addWarning msg c
  = Ok (Comment.mk (Comment.lineNo c) (Comment.current c) (Comment.error c)
          msg (Comment.heading c) (Comment.keywords c)).
Proof. reflexivity. Qed.

Lemma addError_ok msg c :
  Comment.addError msg c
  = Ok (Comment.mk (Comment.lineNo c) (Comment.current c) msg
          (Comment.warning c) (Comment.heading c) (Comment.keywords c)).
Proof. reflexivity. Qed.

(** The aggregator raises no exception on a record that holds a
    text. *)
Lemma updateHeading_total h c pc :
  ∃ pc' c', ProcessComment.updateHeading h c pc = Ok (pc', c').
Proof.
  unfold ProcessComment.updateHeading.
  repeat case_decide; rewrite ?addWarning_ok, ?addError_ok; eauto.
Qed.

Lemma ProcessComment_call_total c pc line :
  Comment.current c = Some line →
  ∃ pc' c', ProcessComment.call c pc = Ok (pc', c').
Proof.
  intros Hc. unfold ProcessComment.call. rewrite Hc.
  destruct (read_heading_prefix line) as [p|] eqn:Hh.
  - apply group_or_None_inv in Hh as (_ & tail & _ & _ & Ht).
    unfold ProcessComment.tutorialHeading. rewrite Ht.
    cbn [mbind result_bind]. apply updateHeading_total.
  - destruct (read_kwords_prefix line) as [p|] eqn:Hk; [|eauto].
    apply group_or_None_inv in Hk as (_ & tail & _ & _ & Ht).
    destruct (negb _).
    + rewrite addWarning_ok. cbn [mbind result_bind]. eauto.
    + unfold ProcessComment.tutorialKeywords. rewrite Ht.
      cbn [mbind result_bind]. destruct (ProcessComment.updateKeywords _ _ _).
      eauto.
Qed.

(** A record of the scanner is classified as [DONE] only when the
    aggregator has taken its text for neither a heading nor a keyword
    line; the gate is then cleared and nothing else changes. *)
Lemma ProcessComment_call_done n text pc pc' c' :
  ProcessComment.call (Comment.init n (Some text)) pc = Ok (pc', c') →
  (assess_processing_result c').1 = DONE →
  read_heading_prefix text = None ∧ read_kwords_prefix text = None
  ∧ pc' = ProcessComment.setKeywordsAllowed false pc
  ∧ c' = closing pc (Comment.init n (Some text)).
Proof.
  unfold ProcessComment.call. cbn [Comment.current Comment.init].
  destruct (read_heading_prefix text) as [p|] eqn:Hh.
  - apply group_or_None_inv in Hh as (_ & tail & _ & _ & Ht).
    unfold ProcessComment.tutorialHeading. rewrite Ht.
    cbn [mbind result_bind]. unfold ProcessComment.updateHeading.
    repeat case_decide; rewrite ?addWarning_ok, ?addError_ok;
      cbn [mbind result_bind]; intros [= <- <-];
      unfold assess_processing_result; cbn; repeat case_decide; done.
  - destruct (read_kwords_prefix text) as [p|] eqn:Hk.
    + apply group_or_None_inv in Hk as (_ & tail & _ & _ & Ht).
      destruct (negb _).
      * rewrite addWarning_ok. cbn [mbind result_bind]. intros [= <- <-].
        unfold assess_processing_result; cbn; repeat case_decide; done.
      * unfold ProcessComment.tutorialKeywords. rewrite Ht.
        cbn [mbind result_bind]. unfold ProcessComment.updateKeywords.
        intros [= <- <-].
        unfold assess_processing_result; cbn; repeat case_decide; done.
    + intros [= <- <-]. done.
Qed.

(** Conversely a text that is neither closes the block. *)
Lemma ProcessComment_call_closing c text pc :
  Comment.current c = Some text →
  read_heading_prefix text = None → read_kwords_prefix text = None →
  ProcessComment.call c pc
  = Ok (ProcessComment.setKeywordsAllowed false pc, closing pc c).
Proof.
  intros Hc Hh Hk. unfold ProcessComment.call. by rewrite Hc, Hh, Hk.
Qed.

(** ** The classifier and the loop over one file *)

Lemma assess_cases c :
  (Comment.error c ≠ []
   ∧ assess_processing_result c = (ERROR, PMessage (Comment.error c)))
  ∨ (Comment.error c = [] ∧ Comment.warning c ≠ []
     ∧ assess_processing_result c = (WARNING, PMessage (Comment.warning c)))
  ∨ (Comment.error c = [] ∧ Comment.warning c = [] ∧ Comment.current c = None
     ∧ assess_processing_result c = (NOT_DONE, PComment c))
  ∨ (Comment.error c = [] ∧ Comment.warning c = [] ∧ Comment.current c ≠ None
     ∧ assess_processing_result c = (DONE, PComment c)).
Proof.
  unfold assess_processing_result.
  destruct (decide (Comment.error c = [])),
    (decide (Comment.warning c = [])); repeat case_decide; tauto.
Qed.

Lemma empty_text_closes n pc :
  ProcessComment.call (Comment.init n (Some [])) pc
  = Ok (ProcessComment.setKeywordsAllowed false pc,
        closing pc (Comment.init n (Some []))).
Proof. by apply ProcessComment_call_closing with (text := []). Qed.

(** The loop over a file of fewer than [fuel] lines ends, by [break]
    or by [exit(1)], and writes nothing on standard output. *)
Lemma scan_file_spec fuel : ∀ fn pc fp pl o,
  wf pl → length fp < fuel →
  (∃ pc' r o',
     scan_file fuel fn pc fp pl o = Break pc' r o'
     ∧ rtc agg_step pc pc'
     ∧ ProcessComment.keywordsAllowed pc' = false
     ∧ Comment.heading r = ProcessComment.heading pc'
     ∧ Comment.keywords r = ProcessComment.keywordsToString pc'
     ∧ stdout o' = stdout o)
  ∨ (∃ o', scan_file fuel fn pc fp pl o = Stop (Exited 1) o'
           ∧ stdout o' = stdout o).
Proof.
  induction fuel as [|fuel IH]; intros fn pc fp pl o Hwf Hlen; [lia|].
  cbn [scan_file].
  destruct (call_spec fp pl Hwf) as (text & fp' & pl' & -> & Hwf' & Hfp).
  destruct (ProcessComment_call_total
              (Comment.init (ProcessLine.lineNo pl') (Some text)) pc text
              eq_refl) as (pc1 & c1 & Hagg).
  rewrite Hagg.
  assert (Hstep : agg_step pc pc1) by (eexists _, _; exact Hagg).
  assert (Hmore : (assess_processing_result c1).1 ≠ DONE →
                  length fp' < fuel).
  { intros Hnd. destruct Hfp as [(-> & -> & ->)|?]; [|lia].
    rewrite empty_text_closes in Hagg. injection Hagg as <- <-.
    by destruct Hnd. }
  assert (Hloop : (assess_processing_result c1).1 ≠ DONE → ∀ o1,
    stdout o1 = stdout o →
    (∃ pc' r o',
       scan_file fuel fn pc1 fp' pl' o1 = Break pc' r o'
       ∧ rtc agg_step pc pc'
       ∧ ProcessComment.keywordsAllowed pc' = false
       ∧ Comment.heading r = ProcessComment.heading pc'
       ∧ Comment.keywords r = ProcessComment.keywordsToString pc'
       ∧ stdout o' = stdout o)
    ∨ (∃ o', scan_file fuel fn pc1 fp' pl' o1 = Stop (Exited 1) o'
             ∧ stdout o' = stdout o)).
  { intros Hnd o1 Ho1.
    destruct (IH fn pc1 fp' pl' o1 Hwf' (Hmore Hnd))
      as [(pc' & r & o' & -> & Hr & ? & ? & ? & ?)|(o' & -> & ?)].
    - left. eexists _, _, _. split; [done|].
      repeat split; auto; [by eapply rtc_l|congruence].
    - right. eexists. split; [done|congruence]. }
  destruct (assess_cases c1)
    as [(_ & Ha)|[(_ & _ & Ha)|[(_ & _ & _ & Ha)|(_ & _ & _ & Ha)]]];
    rewrite Ha in *.
  - right. eexists. split; [done|]. done.
  - apply Hloop; done.
  - apply Hloop; done.
  - left. apply ProcessComment_call_done in Hagg as (_ & _ & -> & ->);
      [|by rewrite Ha].
    eexists _, _, _. split; [done|].
    repeat split; auto. by apply rtc_once.
Qed.

(** ** The loop over the files *)

Lemma scan_files_spec files : ∀ pc result o,
  snapshot_of pc result → ProcessComment.keywordsAllowed pc = false →
  (∃ pc' result' o',
     scan_files files pc result o = inl (pc', result', o')
     ∧ rtc agg_step pc pc'
     ∧ snapshot_of pc' result'
     ∧ ProcessComment.keywordsAllowed pc' = false
     ∧ (result' = None → files = [] ∧ result = None)
     ∧ stdout o' = stdout o)
  ∨ (∃ o', scan_files files pc result o = inr (Exited 1, o')
           ∧ stdout o' = stdout o).
Proof.
  induction files as [|[fn lines] files IH]; intros pc result o Hsnap Hgate.
  - left. eexists _, _, _. split; [done|]. split_and!; auto. reflexivity.
  - cbn [scan_files].
    destruct (scan_file_spec (S (length lines)) fn pc lines ProcessLine.init o
                wf_init (Nat.lt_succ_diag_r _))
      as [(pc1 & r & o1 & -> & Hr & Hg1 & Hh & Hk & Ho)|(o1 & -> & Ho)].
    + destruct (IH pc1 (Some r) o1) as
        [(pc' & result' & o' & -> & Hr' & Hs' & Hg' & Hn & Ho')|(o' & -> & Ho')];
        [by intros ? [= <-]|done|..].
      * left. eexists _, _, _. split; [done|].
        split_and!; auto; try congruence; [by etrans|].
        intros Hnone. by destruct (Hn Hnone).
      * right. eexists. split; [done|congruence].
    + right. eexists. split; [done|congruence].
Qed.

Lemma snapshot_of_init : snapshot_of ProcessComment.init None.
Proof. by intros r. Qed.



Lemma pull_spec n : ∀ fp self, wf self →
  ∃ records, pull n fp self = Ok records ∧ length records = n
    ∧ Forall (λ c, Comment.error c = [] ∧ Comment.warning c = []
                   ∧ ∃ text, Comment.current c = Some text) records.
Proof.
  induction n as [|n IH]; intros fp self Hwf.
  - exists []. by repeat split.
  - destruct (call_spec fp self Hwf) as (text & fp' & self' & Hc & Hwf' & _).
    destruct (IH fp' self' Hwf') as (cs & Hcs & Hlen & Hall).
    eexists (_ :: cs). cbn [pull]. rewrite Hc. cbn [mbind result_bind].
    rewrite Hcs. cbn [mbind result_bind]. split; [done|].
    split; [by rewrite <-Hlen|]. constructor; [|done]. simpl. eauto.
Qed.

(** With the stack not counted, the line scanner is total and never
    fails: whatever the lines of the file, any number of successive
    calls return records, and each record has an empty error field
    and an empty warning field.  The end of the file, a blank line and
    a line that does not match the continuation pattern of the file
    each give a record whose text is the empty string, the one that
    closes the block. *)
Lemma scanner_total_never_fails :
  (∀ (lines : list str) (n : nat),
     ∃ records, pull n lines ProcessLine.init = Ok records
       ∧ length records = n
       ∧ Forall (λ c, Comment.error c = [] ∧ Comment.warning c = []
                      ∧ ∃ text, Comment.current c = Some text) records)
  ∧ (∀ self, ∃ self',
       ProcessLine.call [] self
       = Ok (Comment.init (ProcessLine.lineNo self') (Some []), ([], self')))
  ∧ (∀ raw fp self, Py.rstrip raw = [] → ∃ self',
       ProcessLine.call (raw :: fp) self
       = Ok (Comment.init (ProcessLine.lineNo self') (Some []), (fp, self')))
  ∧ (∀ raw fp self second,
       ProcessLine.isSecondComment self = Some second →
       Py.rstrip raw ≠ [] →
       rmatch second (Py.rstrip raw) = None →
       ∃ self',
         ProcessLine.call (raw :: fp) self
         = Ok (Comment.init (ProcessLine.lineNo self') (Some []), (fp, self'))).
Proof.
  split_and!.
  - intros lines n. apply pull_spec, wf_init.
  - intros self. eexists. reflexivity.
  - intros raw fp self Hraw. eexists. cbn [ProcessLine.call].
    rewrite decide_True by done. reflexivity.
  - intros raw fp self second Hsec Hraw Hm. eexists. cbn [ProcessLine.call].
    rewrite decide_False by done. unfold ProcessLine.getComment.
    cbn [ProcessLine.isSecondComment]. rewrite Hsec, Hm.
    cbn [ProcessLine.commentText mbind result_bind].
    rewrite decide_False by done. rewrite decide_False by (by intros []).
    reflexivity.
Qed.


(** ** Byte strings: white space, stripping, case *)

Lemma isspace_lower_char c : Py.isspace (Py.lower_char c) = Py.isspace c.
Proof. by destruct c as [[] [] [] [] [] [] [] []]. Qed.

Lemma lower_char_idemp c : Py.lower_char (Py.lower_char c) = Py.lower_char c.
Proof. by destruct c as [[] [] [] [] [] [] [] []]. Qed.

Lemma upper_of_lower_t c :
  Py.lower_char c = "t"%char → Py.upper_char c = "T"%char.
Proof. by destruct c as [[] [] [] [] [] [] [] []]. Qed.

Lemma lower_length s : length (Py.lower s) = length s.
Proof. apply length_fmap. Qed.

Lemma nospace_lower s : nospace (Py.lower s) ↔ nospace s.
Proof.
  unfold nospace, Py.lower. rewrite Forall_fmap. apply Forall_iff.
  intros c. simpl. by rewrite isspace_lower_char.
Qed.

Lemma lstrip_allspace w s : allspace w → Py.lstrip (w ++ s) = Py.lstrip s.
Proof. induction 1 as [|c w Hc _ IH]; [done|]. simpl. by rewrite Hc. Qed.

Lemma lstrip_cons_nospace c s :
  Py.isspace c = false → Py.lstrip (c :: s) = c :: s.
Proof. intros Hc. simpl. by rewrite Hc. Qed.

Lemma lstrip_split s : ∃ w, allspace w ∧ s = w ++ Py.lstrip s.
Proof.
  induction s as [|c s (w & Hw & Hs)].
  { exists []. split; [constructor|done]. }
  simpl. destruct (Py.isspace c) eqn:Hc.
  - exists (c :: w). split; [by constructor|]. simpl. by f_equal.
  - exists []. split; [constructor|done].
Qed.

Lemma lstrip_head s c s' : Py.lstrip s = c :: s' → Py.isspace c = false.
Proof.
  induction s as [|d s IH]; [done|]. simpl.
  destruct (Py.isspace d) eqn:Hd; [done|]. by intros [= <- _].
Qed.

Lemma lstrip_nil s : Py.lstrip s = [] ↔ allspace s.
Proof.
  induction s as [|c s IH]; [split; [constructor|done]|].
  simpl. destruct (Py.isspace c) eqn:Hc.
  - rewrite IH. split; [by constructor|by inversion 1].
  - split; [done|]. inversion 1; congruence.
Qed.

Lemma allspace_reverse w : allspace (reverse w) ↔ allspace w.
Proof. unfold allspace. by rewrite Forall_reverse. Qed.

Lemma rstrip_allspace s w : allspace w → Py.rstrip (s ++ w) = Py.rstrip s.
Proof.
  intros Hw. unfold Py.rstrip. rewrite reverse_app.
  by rewrite lstrip_allspace by by apply allspace_reverse.
Qed.

Lemma rstrip_snoc_nospace s c :
  Py.isspace c = false → Py.rstrip (s ++ [c]) = s ++ [c].
Proof.
  intros Hc. unfold Py.rstrip. rewrite reverse_app. simpl.
  rewrite Hc. by rewrite reverse_cons, reverse_involutive.
Qed.

Lemma rstrip_split s : ∃ w, allspace w ∧ s = Py.rstrip s ++ w.
Proof.
  destruct (lstrip_split (reverse s)) as (w & Hw & Hs).
  exists (reverse w). split; [by apply allspace_reverse|].
  unfold Py.rstrip. rewrite <-reverse_app, <-Hs. by rewrite reverse_involutive.
Qed.

Lemma rstrip_last s s' c : Py.rstrip s = s' ++ [c] → Py.isspace c = false.
Proof.
  unfold Py.rstrip. intros H. apply (f_equal reverse) in H.
  rewrite reverse_involutive, reverse_app in H. by apply lstrip_head in H.
Qed.

Lemma rstrip_nil s : Py.rstrip s = [] ↔ allspace s.
Proof.
  unfold Py.rstrip. rewrite <-allspace_reverse, <-lstrip_nil.
  split; [|by intros ->].
  intros H. apply (f_equal reverse) in H. by rewrite reverse_involutive in H.
Qed.

Lemma lstrip_last s s' c : Py.lstrip s = s' ++ [c] → ∃ s'', s = s'' ++ [c].
Proof.
  destruct (lstrip_split s) as (w & _ & Hs). intros H. rewrite H in Hs.
  exists (w ++ s'). by rewrite <-(assoc_L (++)).
Qed.

Lemma strip_trimmed s : trimmed (Py.strip s).
Proof.
  unfold Py.strip. split.
  - intros c s'. apply lstrip_head.
  - intros s' c H. apply lstrip_last in H as (s'' & H).
    by apply rstrip_last in H.
Qed.

Lemma trimmed_strip s : trimmed s → Py.strip s = s.
Proof.
  intros [Hh Hl]. unfold Py.strip.
  assert (Hr : Py.rstrip s = s).
  { destruct s as [|c s _] using rev_ind; [done|].
    apply rstrip_snoc_nospace. by eapply Hl. }
  rewrite Hr. destruct s as [|c s]; [done|].
  apply lstrip_cons_nospace. by eapply Hh.
Qed.

Lemma strip_idemp s : Py.strip (Py.strip s) = Py.strip s.
Proof. apply trimmed_strip, strip_trimmed. Qed.

Lemma strip_nil s : Py.strip s = [] ↔ allspace s.
Proof.
  unfold Py.strip. rewrite lstrip_nil. split.
  - intros H. destruct (rstrip_split s) as (w & Hw & ->).
    apply Forall_app. done.
  - intros H. apply rstrip_nil in H. rewrite H. constructor.
Qed.

(** [strip] removes the white space around a word that has none at
    its ends. *)
Lemma strip_around w1 t w2 :
  allspace w1 → allspace w2 → trimmed t → Py.strip (w1 ++ t ++ w2) = t.
Proof.
  intros H1 H2 Ht. unfold Py.strip.
  rewrite (assoc_L (++)), rstrip_allspace by done.
  destruct t as [|c t _] using rev_ind.
  - rewrite app_nil_r. apply rstrip_nil in H1. by rewrite H1.
  - rewrite (assoc_L (++)), rstrip_snoc_nospace by by eapply Ht.
    rewrite <-(assoc_L (++)), lstrip_allspace by done.
    fold (Py.strip (t ++ [c])). rewrite <-(trimmed_strip (t ++ [c])) at 2 by done.
    unfold Py.strip. by rewrite rstrip_snoc_nospace by by eapply Ht.
Qed.

(** ** [re.sub("\s+", " ", s)] as a function on the text *)

Lemma drop_span s : drop (span s) s = Py.lstrip s.
Proof.
  induction s as [|c s IH]; [done|]. simpl. by destruct (Py.isspace c).
Qed.

Lemma length_lstrip s : length (Py.lstrip s) ≤ length s.
Proof. rewrite <-drop_span, length_drop. lia. Qed.

(** A greedy run whose continuation always succeeds takes the whole
    run. *)
Lemma star_space_greedy {A} (k : nat → str → option A) : ∀ s pos,
  (∀ p s', is_Some (k p s')) →
  star Space k pos s = k (pos + span s) (Py.lstrip s).
Proof.
  intros s pos Hk. revert pos.
  induction s as [|c s IH]; intros pos; simpl.
  - by rewrite Nat.add_0_r.
  - destruct (Py.isspace c) eqn:Hc.
    + rewrite IH. replace (S pos + span s) with (pos + S (span s)) by lia.
      by destruct (Hk (pos + S (span s)) (Py.lstrip s)) as [x ->].
    + by rewrite Nat.add_0_r.
Qed.

Lemma match_len_plus_space pos s :
  match_len (Plus Space) pos s
  = match s with
    | c :: s' => if Py.isspace c then Some (S (span s')) else None
    | [] => None
    end.
Proof.
  unfold match_len, Plus. cbn [run]. destruct s as [|c s]; [done|].
  cbn [cmatch]. destruct (Py.isspace c); [|done].
  rewrite star_space_greedy by eauto. f_equal. lia.
Qed.

(** The characters of a match that are still to be dropped are
    dropped. *)
Lemma sub_from_skip r repl : ∀ n pos s,
  sub_from r repl pos n s = sub_from r repl (pos + n) 0 (drop n s).
Proof.
  induction n as [|n IH]; intros pos s.
  - by rewrite Nat.add_0_r.
  - destruct s as [|c s]; [done|]. cbn [sub_from drop]. rewrite IH.
    f_equal. lia.
Qed.

Lemma collapse_cons c s :
  collapse (c :: s)
  = if Py.isspace c then
      match s with
      | d :: _ => if Py.isspace d then collapse s else " "%char :: collapse s
      | [] => [" "%char]
      end
    else c :: collapse s.
Proof. done. Qed.

Lemma collapse_space c s :
  Py.isspace c = true → collapse (c :: s) = " "%char :: collapse (Py.lstrip s).
Proof.
  intros Hc. revert c Hc. induction s as [|d s IH]; intros c Hc.
  - simpl. by rewrite Hc.
  - rewrite collapse_cons, Hc. cbn [Py.lstrip].
    destruct (Py.isspace d) eqn:Hd; [|done]. by apply IH.
Qed.

Lemma collapse_nospace c s :
  Py.isspace c = false → collapse (c :: s) = c :: collapse s.
Proof. intros Hc. simpl. by rewrite Hc. Qed.

Lemma sub_plus_space_collapse s : ∀ pos,
  sub_from (Plus Space) " " pos 0 s = collapse s.
Proof.
  assert (H : ∀ n (s : str), length s ≤ n → ∀ pos,
            sub_from (Plus Space) " " pos 0 s = collapse s);
    [|by apply (H (length s))].
  clear s. induction n as [|n IH]; intros [|c s] Hn pos;
    [done|simpl in Hn; lia|done|].
  simpl in Hn. cbn [sub_from].
  rewrite match_len_plus_space. destruct (Py.isspace c) eqn:Hc.
  - rewrite sub_from_skip, drop_span, collapse_space by done.
    cbn [list_ascii_of_string app]. f_equal.
    apply IH. pose proof (length_lstrip s). lia.
  - rewrite collapse_nospace by done. f_equal. apply IH. lia.
Qed.

Lemma normalise_text_collapse s : normalise_text s = collapse (Py.strip s).
Proof. apply sub_plus_space_collapse. Qed.

Lemma collapse_nil s : collapse s = [] ↔ s = [].
Proof.
  split; [|by intros ->]. induction s as [|c s IH]; [done|].
  rewrite collapse_cons. destruct (Py.isspace c); [|done].
  destruct s as [|d s]; [done|]. destruct (Py.isspace d); [|done].
  intros H. by specialize (IH H).
Qed.

Lemma collapse_app_nospace a b : nospace a → collapse (a ++ b) = a ++ collapse b.
Proof.
  induction 1 as [|c a Hc _ IH]; [done|].
  rewrite <-app_comm_cons, collapse_nospace by done. by rewrite IH.
Qed.

Lemma collapse_snoc s c :
  Py.isspace c = false → collapse (s ++ [c]) = collapse s ++ [c].
Proof.
  intros Hc. induction s as [|d s IH]; [by simpl; rewrite Hc|].
  rewrite <-app_comm_cons, !collapse_cons. destruct (Py.isspace d).
  - destruct s as [|e s]; [by simpl; rewrite Hc|].
    rewrite <-app_comm_cons in *. destruct (Py.isspace e); by rewrite IH.
  - by rewrite IH.
Qed.

Lemma collapse_idemp s : collapse (collapse s) = collapse s.
Proof.
  induction s as [|c s IH]; [done|].
  rewrite (collapse_cons c s). destruct (Py.isspace c) eqn:Hc.
  - destruct s as [|d s]; [done|]. destruct (Py.isspace d) eqn:Hd; [done|].
    rewrite (collapse_nospace d s Hd) in IH |- *.
    rewrite collapse_cons. simpl (Py.isspace " "). cbn iota. rewrite Hd.
    by rewrite IH.
  - rewrite collapse_nospace by done. by rewrite IH.
Qed.

Lemma collapse_trimmed s : trimmed s → trimmed (collapse s).
Proof.
  intros [Hh Hl]. split.
  - intros c s' H. destruct s as [|d s]; [done|].
    rewrite collapse_nospace in H by by eapply Hh.
    injection H as <- _. by eapply Hh.
  - intros s' c H. destruct s as [|d s _] using rev_ind; [by destruct s'|].
    rewrite collapse_snoc in H by by eapply Hl.
    apply app_inj_tail in H as [_ <-]. by eapply Hl.
Qed.

Lemma normalise_text_trimmed s : trimmed (normalise_text s).
Proof. rewrite normalise_text_collapse. apply collapse_trimmed, strip_trimmed. Qed.

Lemma normalise_text_normal s : normal (normalise_text s).
Proof.
  unfold normal. rewrite (normalise_text_collapse (normalise_text s)).
  rewrite trimmed_strip by apply normalise_text_trimmed.
  rewrite normalise_text_collapse. apply collapse_idemp.
Qed.

Lemma normalise_text_nil s : normalise_text s = [] ↔ allspace s.
Proof. by rewrite normalise_text_collapse, collapse_nil, strip_nil. Qed.

Lemma normal_trimmed s : normal s → trimmed s.
Proof. intros <-. apply normalise_text_trimmed. Qed.

Lemma normal_collapse s : normal s → collapse s = s.
Proof.
  intros H. pose proof (normal_trimmed _ H) as Ht. unfold normal in H.
  by rewrite normalise_text_collapse, trimmed_strip in H.
Qed.

(** A word without white space, a space and a normal text that is not
    empty make a normal text. *)
Lemma normal_word_space a y :
  a ≠ [] → nospace a → y ≠ [] → normal y → normal (a ++ " " ++ y).
Proof.
  intros Ha Hna Hy Hny. pose proof (normal_trimmed _ Hny) as [Hyh Hyl].
  assert (Hta : trimmed a).
  { split.
    - intros c s' ->. by inversion Hna.
    - intros s' c ->. apply Forall_app in Hna as [_ H]. by inversion H. }
  unfold normal. rewrite normalise_text_collapse.
  destruct y as [|d y]; [done|].
  assert (Hd : Py.isspace d = false) by by eapply Hyh.
  replace (a ++ " " ++ d :: y) with ((a ++ " ") ++ d :: y)
    by by rewrite <-(assoc_L (++)).
  assert (Ht : trimmed ((a ++ " ") ++ d :: y)).
  { rewrite <-(assoc_L (++)). split.
    - intros c s' H. destruct a as [|e a]; [done|].
      injection H as <- _. by inversion Hna.
    - intros s' c H.
      destruct (d :: y) as [|e y' _] using rev_ind; [done|].
      rewrite !(assoc_L (++)) in H. apply app_inj_tail in H as [_ <-].
      by eapply Hyl. }
  rewrite trimmed_strip by done.
  rewrite <-(assoc_L (++)), collapse_app_nospace by done.
  f_equal. cbn [list_ascii_of_string app].
  rewrite collapse_cons. simpl (Py.isspace " "). cbn iota. rewrite Hd.
  f_equal. by apply normal_collapse.
Qed.

(** ** The shape of headings and of keyword lines *)

Lemma litI_matches s : ∀ w, matches (litI s) w → Py.lower w = Py.lower s.
Proof.
  induction s as [|c s IH]; intros w; [by intros ->|].
  destruct s as [|d s].
  - intros (c' & -> & Hc%bool_decide_eq_true). simpl. by rewrite Hc.
  - intros (w1 & w2 & -> & (c' & -> & Hc%bool_decide_eq_true) & H2).
    apply IH in H2. simpl in *. by rewrite Hc, H2.
Qed.

Lemma nospace_trimmed t : nospace t → trimmed t.
Proof.
  intros Ht. split.
  - intros c s' ->. by inversion Ht.
  - intros s' c ->. apply Forall_app in Ht as [_ H]. by inversion H.
Qed.

Lemma normalise_text_word w1 t w2 :
  allspace w1 → allspace w2 → nospace t → normalise_text (w1 ++ t ++ w2) = t.
Proof.
  intros H1 H2 Ht. rewrite normalise_text_collapse.
  rewrite strip_around by auto using nospace_trimmed.
  rewrite <-(app_nil_r t) at 1. rewrite collapse_app_nospace by done.
  apply app_nil_r.
Qed.

(** What [is_heading] consumes: white space, the word Tutorial in any
    case, and at least one character of white space. *)
Lemma heading_prefix_shape p :
  matches is_heading_re p →
  ∃ w1 t w2, p = w1 ++ t ++ w2 ∧ allspace w1
    ∧ Py.lower t = Py.lower "Tutorial" ∧ allspace w2 ∧ w2 ≠ [].
Proof.
  unfold is_heading_re, Plus. cbn [matches].
  intros (? & ? & -> & -> & w1 & ? & -> & H1 & t & ? & -> & Ht
          & ? & w2 & -> & (c & -> & Hc) & H2).
  exists w1, t, (c :: w2). split; [done|]. split; [done|].
  split; [by apply litI_matches|]. split; [by constructor|done].
Qed.

(** What [is_kwords] consumes: white space, the word KWords in any
    case, white space and a colon. *)
Lemma kwords_prefix_shape p :
  matches is_kwords_re p →
  ∃ w1 t w2, p = w1 ++ t ++ w2 ++ ":" ∧ allspace w1
    ∧ Py.lower t = Py.lower "KWords" ∧ allspace w2.
Proof.
  unfold is_kwords_re. cbn [matches].
  intros (? & ? & -> & -> & w1 & ? & -> & H1 & t & ? & -> & Ht
          & w2 & ? & -> & H2 & (c & -> & ->%bool_decide_eq_true)).
  exists w1, t, w2. split; [done|]. split; [done|].
  split; [by apply litI_matches|done].
Qed.

Lemma nospace_of_lower t (w : str) :
  Py.lower t = Py.lower w → nospace w → nospace t.
Proof. intros H Hw. apply nospace_lower. rewrite H. by apply nospace_lower. Qed.

Lemma nospace_Tutorial : nospace "Tutorial".
Proof. repeat constructor. Qed.

Lemma capitalize_tutorial t :
  Py.lower t = Py.lower "Tutorial" → Py.capitalize t = "Tutorial".
Proof.
  destruct t as [|c t]; [done|]. intros [= Hc Ht].
  unfold Py.capitalize. fold (Py.lower t). rewrite Ht.
  by rewrite (upper_of_lower_t c Hc).
Qed.

(** The heading extracted from a heading line: the word Tutorial, a
    space and the normalised rest of the line. *)
Lemma tutorialHeading_shape line p :
  read_heading_prefix line = Some p →
  ∃ tail, line = p ++ tail
    ∧ ProcessComment.tutorialHeading p line
      = Ok ("Tutorial" ++ " " ++ normalise_text tail)
    ∧ ∃ w1 t w2, p = w1 ++ t ++ w2 ∧ allspace w1 ∧ allspace w2 ∧ w2 ≠ [].
Proof.
  intros (_ & tail & Hl & Hp & Ht)%group_or_None_inv.
  exists tail. split; [done|].
  apply heading_prefix_shape in Hp as (w1 & t & w2 & -> & H1 & Hlow & H2 & Hne).
  split; [|by eauto 10].
  unfold ProcessComment.tutorialHeading. rewrite Ht. cbn [mbind result_bind].
  rewrite normalise_text_word
    by eauto using nospace_of_lower, nospace_Tutorial.
  by rewrite (capitalize_tutorial t Hlow).
Qed.

Lemma trimmed_allspace_suffix a w : trimmed (a ++ w) → allspace w → w = [].
Proof.
  intros [_ Hl] Hw. destruct w as [|c w _] using rev_ind; [done|].
  apply Forall_app in Hw as [_ Hc]. inversion Hc as [|?? Hc' _]; subst.
  rewrite (assoc_L (++)) in Hl. specialize (Hl _ _ eq_refl). congruence.
Qed.

Lemma heading_candidate_normal h :
  heading_candidate h → normal h ∧ h ≠ [].
Proof.
  intros (line & p & Hs & Hp & Hh).
  destruct (tutorialHeading_shape _ _ Hp)
    as (tail & Hl & Hh' & w1 & t & w2 & -> & H1 & H2 & Hne).
  replace h with ("Tutorial" ++ " " ++ normalise_text tail : str)
    by congruence.
  split; [|done].
  apply normal_word_space;
    [done|apply nospace_Tutorial| |apply normalise_text_normal].
  rewrite normalise_text_nil. intros Htail.
  assert (Ht : trimmed line) by (rewrite <-Hs; apply strip_trimmed).
  rewrite Hl, <-!(assoc_L (++)), !(assoc_L (++)), <-(assoc_L (++)) in Ht.
  apply trimmed_allspace_suffix in Ht; [|by apply Forall_app].
  by apply app_eq_nil in Ht as [-> _].
Qed.

(** The texts of the scanner are stripped, so the headings the
    aggregator extracts from them are heading candidates. *)
Lemma call_text_stripped fp : ∀ pl c fp' pl',
  ProcessLine.call fp pl = Ok (c, (fp', pl')) →
  ∃ text, Comment.current c = Some text ∧ Py.strip text = text.
Proof.
  induction fp as [|raw fp IH]; intros pl c fp' pl'.
  - intros [= <- _ _]. by exists [].
  - cbn [ProcessLine.call]. case_decide as Hline.
    { intros [= <- _ _]. by exists []. }
    unfold ProcessLine.getComment, ProcessLine.getFirstComment,
      ProcessLine.commentText, ProcessLine.newComment.
    intros H.
    repeat (first
      [ progress cbn [mbind result_bind] in H
      | match type of H with
        | context [match ?x with _ => _ end] => destruct x eqn:?
        end
      | match type of H with
        | context [mbind _ ?m] =>
            lazymatch m with
            | context [mbind _ _] => fail
            | _ => destruct m eqn:?
            end
        end ]);
      try done; try (by eapply IH); injection H as <- _ _;
      eexists; (split; [reflexivity|]); first [done|apply strip_idemp].
Qed.

Lemma scanned_heading_candidate fp pl c fp' pl' line p h :
  ProcessLine.call fp pl = Ok (c, (fp', pl')) →
  Comment.current c = Some line →
  read_heading_prefix line = Some p →
  ProcessComment.tutorialHeading p line = Ok h → heading_candidate h.
Proof.
  intros (text & Ht & Hs)%call_text_stripped Hc Hp Hh.
  rewrite Ht in Hc. injection Hc as ->. by exists line, p.
Qed.

(** Whatever the line, the heading extracted from it is not blank. *)
Lemma tutorialHeading_nonblank line p h :
  read_heading_prefix line = Some p →
  ProcessComment.tutorialHeading p line = Ok h → normalise_text h ≠ [].
Proof.
  intros Hp Hh. destruct (tutorialHeading_shape _ _ Hp) as (tail & _ & Hh' & _).
  replace h with ("Tutorial" ++ " " ++ normalise_text tail : str)
    by congruence.
  rewrite normalise_text_nil. by inversion 1.
Qed.

(** ** Keywords come with a heading *)

Lemma gate_inv_init : gate_inv ProcessComment.init.
Proof. split; done. Qed.

Lemma gate_inv_heading pc :
  ProcessComment.heading pc ≠ [] → gate_inv pc.
Proof. by split. Qed.

Lemma updateHeading_heading h c pc pc' c' :
  normalise_text h ≠ [] →
  ProcessComment.updateHeading h c pc = Ok (pc', c') →
  ProcessComment.heading pc' ≠ [].
Proof.
  intros Hh. unfold ProcessComment.updateHeading.
  repeat case_decide; rewrite ?addWarning_ok, ?addError_ok;
    cbn [mbind result_bind]; intros [= <- <-]; done.
Qed.

Lemma call_preserves_gate_inv c pc pc' c' :
  gate_inv pc → ProcessComment.call c pc = Ok (pc', c') → gate_inv pc'.
Proof.
  intros [Hk Hg]. unfold ProcessComment.call.
  destruct (Comment.current c) as [line|]; [|done].
  destruct (read_heading_prefix line) as [p|] eqn:Hp.
  - destruct (tutorialHeading_shape _ _ Hp) as (tail & _ & Hh & _).
    pose proof (tutorialHeading_nonblank _ _ _ Hp Hh) as Hne.
    rewrite Hh. cbn [mbind result_bind]. intros H.
    eapply gate_inv_heading, updateHeading_heading; eauto.
  - destruct (read_kwords_prefix line) as [q|] eqn:Hq.
    + apply group_or_None_inv in Hq as (_ & tail & _ & _ & Ht).
      destruct (ProcessComment.keywordsAllowed pc) eqn:Hgate; cbn [negb].
      * unfold ProcessComment.tutorialKeywords. rewrite Ht.
        cbn [mbind result_bind]. intros [= <- <-].
        apply gate_inv_heading. cbn. by apply Hg.
      * rewrite addWarning_ok. cbn [mbind result_bind].
        intros [= <- <-]. split; [done|]. by rewrite Hgate.
    + intros [= <- <-]. split; [done|]. done.
Qed.

Lemma reachable_gate_inv pc : reachable pc → gate_inv pc.
Proof.
  revert pc. apply rtc_ind_r; [apply gate_inv_init|].
  intros pc1 pc2 _ (c & c' & Hstep) IH. by eapply call_preserves_gate_inv.
Qed.

Lemma keywordsToString_nonempty pc :
  ProcessComment.keywordsToString pc ≠ [] → ProcessComment.keywordsSet pc ≠ ∅.
Proof.
  intros H Hset. apply H. unfold ProcessComment.keywordsToString,
    ProcessComment.values_of_set. rewrite Hset, elements_empty. done.
Qed.

Lemma display_metadata_ok r o :
  (Comment.keywords r ≠ [] → Comment.heading r ≠ []) →
  ∃ o', display_metadata r o = Ok o'.
Proof.
  intros H. unfold display_metadata. repeat case_decide; eauto.
  tauto.
Qed.

(** C9. In every state the aggregator can reach, a keyword set that
    is not empty comes with a stored heading that is not empty; so
    does every snapshot taken when a block closes; and the final
    display never raises its [AssertionError]. *)
Theorem keywords_imply_heading :
  (∀ pc, reachable pc →
     ProcessComment.keywordsSet pc ≠ ∅ → ProcessComment.heading pc ≠ [])
  ∧ (∀ pc n text pc' c',
       reachable pc →
       ProcessComment.call (Comment.init n (Some text)) pc = Ok (pc', c') →
       (assess_processing_result c').1 = DONE →
       Comment.keywords c' ≠ [] → Comment.heading c' ≠ [])
  ∧ (∀ files pc r o,
       scan_files files ProcessComment.init None (mkio [] [])
       = inl (pc, Some r, o) →
       (Comment.keywords r ≠ [] → Comment.heading r ≠ [])
       ∧ ∃ o', display_metadata r o = Ok o').
Proof.
  split_and!.
  - intros pc Hr. by destruct (reachable_gate_inv pc Hr).
  - intros pc n text pc' c' Hr Hc Hd Hk.
    apply ProcessComment_call_done in Hc as (_ & _ & _ & ->); [|done].
    cbn in *. apply keywordsToString_nonempty in Hk.
    destruct (reachable_gate_inv pc Hr) as [Hinv _]. by apply Hinv.
  - intros files pc r o Hrun.
    assert (Hkh : Comment.keywords r ≠ [] → Comment.heading r ≠ []).
    { destruct (scan_files_spec files ProcessComment.init None (mkio [] [])
                  snapshot_of_init eq_refl)
        as [(pc1 & result1 & o1 & Heq & Hr & Hsnap & _)|(o1 & Heq & _)];
        rewrite Heq in Hrun; [|done].
      injection Hrun as -> -> ->.
      destruct (Hsnap r eq_refl) as [-> ->]. intros Hk.
      apply keywordsToString_nonempty in Hk.
      destruct (reachable_gate_inv pc Hr) as [Hinv _]. by apply Hinv. }
    split; [done|]. by apply display_metadata_ok.
Qed.

(** ** Keyword lines before any heading *)

Lemma lstrip_word w t rest c t' :
  allspace w → t = c :: t' → Py.isspace c = false →
  Py.lstrip (w ++ t ++ rest) = c :: t' ++ rest.
Proof.
  intros Hw -> Hc. rewrite lstrip_allspace by done.
  by rewrite <-app_comm_cons, lstrip_cons_nospace.
Qed.

(** A keyword line is not a heading line. *)
Lemma kwords_not_heading line q :
  read_kwords_prefix line = Some q → read_heading_prefix line = None.
Proof.
  intros (_ & tailq & Hlq & Hq & _)%group_or_None_inv.
  destruct (read_heading_prefix line) as [p|] eqn:Hp; [|done]. exfalso.
  apply group_or_None_inv in Hp as (_ & tailp & Hlp & Hp & _).
  apply heading_prefix_shape in Hp as (w1 & t & w2 & -> & H1 & Ht & _).
  apply kwords_prefix_shape in Hq as (v1 & k & v2 & -> & G1 & Hk & _).
  destruct t as [|c t]; [done|]. destruct k as [|d k]; [done|].
  injection Ht as Hc _. injection Hk as Hd _.
  assert (Hcs : Py.isspace c = false)
    by by rewrite <-isspace_lower_char, Hc.
  assert (Hds : Py.isspace d = false)
    by by rewrite <-isspace_lower_char, Hd.
  pose proof (f_equal Py.lstrip Hlp) as E1.
  rewrite <-!(assoc_L (++)) in E1.
  rewrite (lstrip_word w1 (c :: t) _ c t H1 eq_refl Hcs) in E1.
  pose proof (f_equal Py.lstrip Hlq) as E2.
  rewrite <-!(assoc_L (++)) in E2.
  rewrite (lstrip_word v1 (d :: k) _ d k G1 eq_refl Hds) in E2.
  rewrite E1 in E2. injection E2 as -> _. by rewrite Hc in Hd.
Qed.

(** The records of the scanner are fresh: no error, no warning, no
    heading, no keywords. *)
Lemma call_fresh fp : ∀ pl c fp' pl',
  ProcessLine.call fp pl = Ok (c, (fp', pl')) →
  ∃ n text, c = Comment.init n text.
Proof.
  induction fp as [|raw fp IH]; intros pl c fp' pl'.
  - intros [= <- _ _]. by eexists _, _.
  - cbn [ProcessLine.call]. case_decide as Hline.
    { intros [= <- _ _]. by eexists _, _. }
    unfold ProcessLine.getComment, ProcessLine.getFirstComment,
      ProcessLine.commentText, ProcessLine.newComment.
    intros H.
    repeat (first
      [ progress cbn [mbind result_bind] in H
      | match type of H with
        | context [mbind _ ?m] => destruct m eqn:?
        end
      | match type of H with
        | context [match ?x with _ => _ end] => destruct x eqn:?
        end ]);
      try done; try (by eapply IH); injection H as <- _ _; by eexists _, _.
Qed.

Lemma setKeywordsAllowed_id pc :
  ProcessComment.keywordsAllowed pc = false →
  ProcessComment.setKeywordsAllowed false pc = pc.
Proof. destruct pc. simpl. by intros ->. Qed.

(** C6. A keyword line that reaches the aggregator while the gate is
    false leaves the aggregator as it is (keyword set and gate
    included) and is answered by the record of the line with one
    warning and no error, which is classified [WARNING], not [DONE].
    The loop over the file writes that one warning on the error
    stream and calls the scanner again: when the next record closes
    the block, the loop ends by [break] with the snapshot of the
    unchanged aggregator, having written this warning and nothing
    else; when the next record is a keyword line again, a second
    warning follows the first and the loop goes on. *)
Theorem keywords_before_heading fp pl c fp' pl' pc line q fuel fn o :
  ProcessLine.call fp pl = Ok (c, (fp', pl')) →
  Comment.current c = Some line →
  read_kwords_prefix line = Some q →
  ProcessComment.keywordsAllowed pc = false →
  let w := "Found keywords definition in file with no Tutorial line"
           ++ ": '" ++ line ++ "'" in
  let c' := Comment.mk (Comment.lineNo c) (Some line) [] w [] [] in
  let o' := mkio (stdout o) (stderr o ++ "Warning:" ++ fn ++ ":" ++ w ++ nl) in
  ProcessComment.call c pc = Ok (pc, c')
  ∧ assess_processing_result c' = (WARNING, PMessage w)
  ∧ scan_file (S fuel) fn pc fp pl o = scan_file fuel fn pc fp' pl' o'
  ∧ ∀ c2 fp2 pl2,
      ProcessLine.call fp' pl' = Ok (c2, (fp2, pl2)) →
      (Comment.current c2 = Some [] →
       scan_file (S (S fuel)) fn pc fp pl o = Break pc (closing pc c2) o')
      ∧ (∀ line2 q2,
           Comment.current c2 = Some line2 →
           read_kwords_prefix line2 = Some q2 →
           scan_file (S (S fuel)) fn pc fp pl o
           = scan_file fuel fn pc fp2 pl2
               (mkio (stdout o)
                  (stderr o' ++ "Warning:" ++ fn ++ ":"
                   ++ ("Found keywords definition in file with no Tutorial line"
                       ++ ": '" ++ line2 ++ "'") ++ nl))).
Proof.
  intros Hcall Hcur Hq Hgate w c' o'.
  assert (Hagg : ∀ n l p, read_kwords_prefix l = Some p →
    ProcessComment.call (Comment.init n (Some l)) pc
    = Ok (pc, Comment.mk n (Some l) []
                ("Found keywords definition in file with no Tutorial line"
                 ++ ": '" ++ l ++ "'") [] [])).
  { intros n l p Hp. unfold ProcessComment.call.
    cbn [Comment.current Comment.init].
    rewrite (kwords_not_heading _ _ Hp), Hp, Hgate. reflexivity. }
  assert (Hstep : ∀ f n l p fpa pla fpb plb oa,
    read_kwords_prefix l = Some p →
    ProcessLine.call fpa pla = Ok (Comment.init n (Some l), (fpb, plb)) →
    scan_file (S f) fn pc fpa pla oa
    = scan_file f fn pc fpb plb
        (mkio (stdout oa)
           (stderr oa ++ "Warning:" ++ fn ++ ":"
            ++ ("Found keywords definition in file with no Tutorial line"
                ++ ": '" ++ l ++ "'") ++ nl))).
  { intros f n l p fpa pla fpb plb oa Hp Hc. cbn [scan_file].
    rewrite Hc, (Hagg n l p Hp). reflexivity. }
  destruct (call_fresh _ _ _ _ _ Hcall) as (n & text & ->).
  cbn in Hcur. subst text.
  split; [exact (Hagg n line q Hq)|]. split; [done|].
  split; [exact (Hstep fuel n line q _ _ _ _ o Hq Hcall)|].
  intros c2 fp2 pl2 Hcall2.
  destruct (call_fresh _ _ _ _ _ Hcall2) as (n2 & text2 & ->).
  split.
  - cbn [Comment.current Comment.init]. intros [= ->].
    rewrite (Hstep (S fuel) n line q _ _ _ _ o Hq Hcall).
    cbn [scan_file]. rewrite Hcall2, empty_text_closes.
    rewrite setKeywordsAllowed_id by done. reflexivity.
  - cbn [Comment.current Comment.init]. intros line2 q2 [= ->] Hq2.
    rewrite (Hstep (S fuel) n line q _ _ _ _ o Hq Hcall).
    rewrite (Hstep fuel n2 line2 q2 _ _ _ _ _ Hq2 Hcall2).
    reflexivity.
Qed.

(** The claim at a file that holds one keyword line, and at a file
    that holds two: what the loop returns. *)
Lemma keywords_before_heading_witness :
  ProcessComment.call (Comment.init 1 (Some ("KWords: x" : str)))
    ProcessComment.init
  = Ok (ProcessComment.init,
        Comment.mk 1 (Some ("KWords: x" : str)) []
          "Found keywords definition in file with no Tutorial line: 'KWords: x'"
          [] [])
  ∧ assess_processing_result
      (Comment.mk 1 (Some ("KWords: x" : str)) []
         "Found keywords definition in file with no Tutorial line: 'KWords: x'"
         [] [])
    = (WARNING,
       PMessage
         "Found keywords definition in file with no Tutorial line: 'KWords: x'")
  ∧ scan_file 2 "f" ProcessComment.init ["# KWords: x" : str]
      ProcessLine.init (mkio [] [])
    = Break ProcessComment.init (Comment.mk 2 (Some []) [] [] [] [])
        (mkio []
           ("Warning:f:Found keywords definition in file with no Tutorial line: 'KWords: x'"
            ++ nl))
  ∧ scan_file 3 "f" ProcessComment.init
      ["# KWords: x" : str; "# KWords: y, z" : str]
      ProcessLine.init (mkio [] [])
    = Break ProcessComment.init (Comment.mk 3 (Some []) [] [] [] [])
        (mkio []
           ("Warning:f:Found keywords definition in file with no Tutorial line: 'KWords: x'"
            ++ nl
            ++ "Warning:f:Found keywords definition in file with no Tutorial line: 'KWords: y, z'"
            ++ nl)).
Proof.
  destruct (keywords_before_heading ["# KWords: x" : str] ProcessLine.init
              (Comment.init 1 (Some ("KWords: x" : str))) [] (hash_scanner 1)
              ProcessComment.init "KWords: x" "KWords:" 0 "f" (mkio [] []))
    as (H1 & H2 & _ & H3); [vm_compute; reflexivity..|].
  destruct (H3 (Comment.init 2 (Some [])) [] (hash_scanner 2) eq_refl)
    as [H4 _].
  destruct (keywords_before_heading
              ["# KWords: x" : str; "# KWords: y, z" : str] ProcessLine.init
              (Comment.init 1 (Some ("KWords: x" : str)))
              ["# KWords: y, z" : str] (hash_scanner 1)
              ProcessComment.init "KWords: x" "KWords:" 1 "f" (mkio [] []))
    as (_ & _ & _ & H5); [vm_compute; reflexivity..|].
  destruct (H5 (Comment.init 2 (Some ("KWords: y, z" : str))) []
              (hash_scanner 2) eq_refl) as [_ H6].
  split; [exact H1|]. split; [exact H2|]. split; [exact (H4 eq_refl)|].
  rewrite (H6 "KWords: y, z" "KWords:" eq_refl eq_refl).
  vm_compute. reflexivity.
Defined.

(** ** Files that do not start with a comment *)

Lemma discarded_call raw fp self :
  discarded raw → ProcessLine.isSecondComment self = None →
  ∃ border,
    ProcessLine.call (raw :: fp) self
    = ProcessLine.call fp (ProcessLine.mk (S (ProcessLine.lineNo self)) None
                             border).
Proof.
  intros (Hraw & mo & Hm & Hd) Hsec. cbn [ProcessLine.call].
  rewrite decide_False by done. unfold ProcessLine.getComment.
  cbn [ProcessLine.isSecondComment]. rewrite Hsec.
  unfold ProcessLine.getFirstComment. rewrite Hm.
  destruct Hd as [Hsh|(mark & border & Hg & Hb & Htext)].
  - rewrite decide_True by done. eauto.
  - case_decide; [eauto|]. rewrite Hg, Hb. cbn [mbind result_bind].
    unfold ProcessLine.commentText.
    destruct (tail_after_group _ _ _ Hm) as (tail & Hl & ->).
    cbn [mbind result_bind ProcessLine.borderCommentRE].
    rewrite Hl, drop_app_length in Htext. rewrite Htext.
    rewrite decide_True by done. eauto.
Qed.

(** With no profile yet, the scanner answers a line that opens no
    comment, behind any number of discarded lines, with the empty
    text. *)
Lemma skip_file_call pre : ∀ self l rest,
  Forall discarded pre → is_comment (Py.rstrip l) = None →
  ProcessLine.isSecondComment self = None →
  ∃ self',
    ProcessLine.call (pre ++ l :: rest) self
    = Ok (Comment.init (ProcessLine.lineNo self') (Some []), (rest, self')).
Proof.
  induction pre as [|raw pre IH]; intros self l rest Hpre Hl Hsec.
  - cbn [app ProcessLine.call]. case_decide; [by eexists|].
    unfold ProcessLine.getComment. cbn [ProcessLine.isSecondComment].
    rewrite Hsec. unfold ProcessLine.getFirstComment. rewrite Hl.
    by eexists.
  - inversion Hpre as [|? ? Hraw Hpre']; subst.
    destruct (discarded_call raw (pre ++ l :: rest) self Hraw Hsec)
      as (border & Hc).
    rewrite <-app_comm_cons, Hc. by apply IH.
Qed.

(** With the stack not counted, a file whose first line that is not
    discarded opens no comment is skipped: whatever files were
    processed before it, the loop over the file ends at once by
    [break]; it writes no error and no warning; heading, keyword set
    and gate of the aggregator are what they were before the file;
    and the record it leaves in [result] carries the heading and the
    keywords accumulated so far. *)
Lemma file_without_comment files pc result o fn pre l rest :
  scan_files files ProcessComment.init None (mkio [] [])
  = inl (pc, result, o) →
  Forall discarded pre →
  is_comment (Py.rstrip l) = None →
  ∃ r,
    scan_file (S (length (pre ++ l :: rest))) fn pc (pre ++ l :: rest)
      ProcessLine.init o
    = Break pc r o
    ∧ Comment.heading r = ProcessComment.heading pc
    ∧ Comment.keywords r = ProcessComment.keywordsToString pc
    ∧ Comment.error r = [] ∧ Comment.warning r = []
    ∧ scan_files (files ++ [(fn, pre ++ l :: rest)]) ProcessComment.init None
        (mkio [] [])
      = inl (pc, Some r, o).
Proof.
  intros Hrun Hpre Hl.
  assert (Hgate : ProcessComment.keywordsAllowed pc = false).
  { destruct (scan_files_spec files ProcessComment.init None (mkio [] [])
                snapshot_of_init eq_refl)
      as [(pc1 & r1 & o1 & Heq & _ & _ & Hg & _)|(o1 & Heq & _)];
      rewrite Heq in Hrun; [|done]. by injection Hrun as <- _ _. }
  destruct (skip_file_call pre ProcessLine.init l rest Hpre Hl eq_refl)
    as (self' & Hcall).
  set (c := Comment.init (ProcessLine.lineNo self') (Some [])) in *.
  assert (Hloop :
    scan_file (S (length (pre ++ l :: rest))) fn pc (pre ++ l :: rest)
      ProcessLine.init o = Break pc (closing pc c) o).
  { cbn [scan_file]. rewrite Hcall. unfold c. rewrite empty_text_closes.
    rewrite setKeywordsAllowed_id by done. reflexivity. }
  exists (closing pc c). split; [exact Hloop|]. split_and!; try done.
  clear Hgate Hcall. revert Hrun Hloop.
  generalize (pre ++ l :: rest). intros lines.
  generalize (closing pc c). intros r.
  generalize ProcessComment.init, (@None Comment.t), (mkio [] []).
  induction files as [|[fn' lines'] files IH]; intros pc0 res0 o0 Hrun Hloop.
  - injection Hrun as -> _ ->. cbn [app scan_files]. by rewrite Hloop.
  - cbn [app scan_files] in *.
    destruct (scan_file _ fn' pc0 lines' ProcessLine.init o0); [|done].
    by apply IH.
Qed.

Lemma discarded_shebang : discarded "#!/bin/sh".
Proof.
  split; [done|]. eexists. split; [reflexivity|]. by left.
Qed.

Lemma discarded_border : discarded "###".
Proof.
  split; [done|]. eexists. split; [reflexivity|]. right.
  eexists _, _. split; [reflexivity|]. split; [reflexivity|]. reflexivity.
Qed.

(** A C file that follows the first file of the example: a shebang
    line and a decorative line are passed over, the third line opens
    no comment. *)
Lemma file_without_comment_witness :
  ∃ r,
    scan_file 5 "g"
      (ProcessComment.mk "Tutorial #1: summary tut.1"
         "tutorial #1: summary tut.1" ∅ false)
      ["#!/bin/sh" : str; "###" : str; "int main() {" : str;
       "// Tutorial 2" : str]
      ProcessLine.init (mkio [] [])
    = Break
        (ProcessComment.mk "Tutorial #1: summary tut.1"
           "tutorial #1: summary tut.1" ∅ false)
        r (mkio [] [])
    ∧ Comment.heading r = "Tutorial #1: summary tut.1"
    ∧ Comment.keywords r
      = ProcessComment.keywordsToString
          (ProcessComment.mk "Tutorial #1: summary tut.1"
             "tutorial #1: summary tut.1" ∅ false)
    ∧ Comment.error r = [] ∧ Comment.warning r = []
    ∧ scan_files
        ([("f1" : str, file1)]
         ++ [("g" : str,
              ["#!/bin/sh" : str; "###" : str] ++ ("int main() {" : str)
              :: ["// Tutorial 2" : str])])
        ProcessComment.init None (mkio [] [])
      = inl (ProcessComment.mk "Tutorial #1: summary tut.1"
               "tutorial #1: summary tut.1" ∅ false,
             Some r, mkio [] []).
Proof.
  apply (file_without_comment [("f1" : str, file1)]
           (ProcessComment.mk "Tutorial #1: summary tut.1"
              "tutorial #1: summary tut.1" ∅ false)
           (Some (Comment.mk 2 (Some []) [] [] "Tutorial #1: summary tut.1" []))
           (mkio [] []) "g" ["#!/bin/sh" : str; "###" : str]
           "int main() {" ["// Tutorial 2" : str]).
  - vm_compute. reflexivity.
  - exact (Forall_cons_2 _ _ _ discarded_shebang
             (Forall_cons_2 _ _ _ discarded_border (Forall_nil_2 _))).
  - vm_compute. reflexivity.
Defined.

(** ** Reconciliation of headings *)

Lemma startswith_prefix s sub :
  Py.startswith s sub = true ↔ ∃ rest, s = sub ++ rest.
Proof.
  revert s. induction sub as [|c sub IH]; intros s.
  - destruct s; simpl; split; eauto.
  - destruct s as [|d s]; simpl; [split; [done|by intros (? & ?)]|].
    rewrite andb_true_iff, bool_decide_eq_true, IH. split.
    + intros (-> & rest & ->). eauto.
    + intros (rest & [= -> ->]). eauto.
Qed.

Lemma startswith_refl s : Py.startswith s s = true.
Proof. apply startswith_prefix. exists []. by rewrite app_nil_r. Qed.

Lemma startswith_length s sub :
  Py.startswith s sub = true → length sub ≤ length s.
Proof.
  intros (rest & ->)%startswith_prefix. rewrite length_app. lia.
Qed.

Lemma startswith_same_length s sub :
  Py.startswith s sub = true → length s = length sub → s = sub.
Proof.
  intros (rest & ->)%startswith_prefix. rewrite length_app. intros H.
  destruct rest; [by rewrite app_nil_r|simpl in H; lia].
Qed.

(** [s.find(sub) == 0] says that [s] starts with [sub]. *)
Lemma find_zero s sub : Py.find s sub = 0%Z ↔ Py.startswith s sub = true.
Proof.
  assert (E : Py.find s sub
              = if Py.startswith s sub then 0%Z
                else match s with
                     | [] => (-1)%Z
                     | _ :: s' =>
                         if (Py.find s' sub <? 0)%Z then (-1)%Z
                         else (Py.find s' sub + 1)%Z
                     end) by by destruct s.
  rewrite E. destruct (Py.startswith s sub); [done|].
  split; [|done]. destruct s as [|c s]; [done|].
  destruct (Z.ltb_spec (Py.find s sub) 0); lia.
Qed.

Lemma reconciled_first X pc n t :
  normal X → ProcessComment.heading pc = [] →
  ProcessComment.updateHeading X (Comment.init n t) pc
  = Ok (ProcessComment.mk X (Py.lower X) (ProcessComment.keywordsSet pc)
          (ProcessComment.keywordsAllowed pc),
        Comment.setCurrent None (Comment.init n t)).
Proof.
  intros HX Hpc. unfold ProcessComment.updateHeading.
  rewrite decide_True by done. unfold ProcessComment.storeHeading.
  by rewrite HX.
Qed.

(** The first call is [reconciled_first]; [tac] evaluates the second
    call, and fixes what it returns. *)
Ltac reconcile tac :=
  eexists _, _, _, _; rewrite reconciled_first by done;
  do 4 (split; [done|]);
  split;
  [ unfold ProcessComment.updateHeading;
    cbn [ProcessComment.heading ProcessComment.headingLC];
    rewrite decide_False by done; tac
  | split_and!; done ].

Section Reconcile.
Context (X Y : str) (pc : ProcessComment.t).
Context (n1 n2 : nat) (t1 t2 : option str).
Context (HX : normal X) (HY : normal Y) (HXne : X ≠ []).
Context (Hpc : ProcessComment.heading pc = []).

(** The new heading repeats the stored one, case apart. *)
Lemma reconciled_same :
  Py.lower X = Py.lower Y → reconciled X Y pc n1 t1 n2 t2 X [] [].
Proof.
  intros Heq. reconcile ltac:(by rewrite decide_True by done).
Qed.

(** The new heading is longer and starts with the stored one. *)
Lemma reconciled_longer :
  ci_prefix X Y → length X < length Y →
  reconciled X Y pc n1 t1 n2 t2 X [] [].
Proof.
  intros Hpre Hlen.
  assert (Hne : Py.lower X ≠ Py.lower Y).
  { intros H. apply (f_equal length) in H. rewrite !lower_length in H. lia. }
  assert (Hnf : Py.find (Py.lower X) (Py.lower Y) ≠ 0%Z).
  { rewrite find_zero. intros H%startswith_length.
    rewrite !lower_length in H. lia. }
  reconcile ltac:(rewrite (decide_False _ _ Hne), (decide_False _ _ Hnf);
                  by rewrite decide_True by by apply find_zero).
Qed.

(** The new heading is shorter and the stored one starts with it. *)
Lemma reconciled_shorter :
  ci_prefix Y X → length Y < length X →
  reconciled X Y pc n1 t1 n2 t2 Y
    ("will use newly found, shorter heading '" ++ Y ++ "'") [].
Proof.
  intros Hpre Hlen.
  assert (Hne : Py.lower X ≠ Py.lower Y).
  { intros H. apply (f_equal length) in H. rewrite !lower_length in H. lia. }
  reconcile ltac:(rewrite (decide_False _ _ Hne);
                  rewrite decide_True by (by apply find_zero);
                  rewrite addWarning_ok; cbn [mbind result_bind];
                  unfold ProcessComment.storeHeading; rewrite HY;
                  reflexivity).
Qed.

(** Neither heading starts with the other. *)
Lemma reconciled_conflict :
  ¬ ci_prefix X Y → ¬ ci_prefix Y X →
  reconciled X Y pc n1 t1 n2 t2 X []
    ("heading '" ++ Y ++ "' different from previous files' heading '"
     ++ X ++ "'" ++ ["010"%char]).
Proof.
  intros Hxy Hyx.
  assert (Hne : Py.lower X ≠ Py.lower Y).
  { intros H. apply Hxy. unfold ci_prefix. rewrite H. apply startswith_refl. }
  reconcile ltac:(rewrite (decide_False _ _ Hne);
                  rewrite decide_False by (by rewrite find_zero);
                  rewrite decide_False by (by rewrite find_zero);
                  rewrite addError_ok; cbn [mbind result_bind];
                  reflexivity).
Qed.

End Reconcile.

Lemma ci_prefix_length a b : ci_prefix a b → length a ≤ length b.
Proof.
  intros H%startswith_length. by rewrite !lower_length in H.
Qed.

Lemma ci_prefix_same_length a b :
  ci_prefix a b → length a = length b → Py.lower b = Py.lower a.
Proof.
  intros H Hl. apply startswith_same_length; [done|].
  by rewrite !lower_length.
Qed.

(** A text of the scanner, given with the prefix [is_heading] finds
    in it, yields a heading candidate. *)
Lemma heading_candidate_of_line line p h :
  Py.strip line = line → read_heading_prefix line = Some p →
  ProcessComment.tutorialHeading p line = Ok h → heading_candidate h.
Proof. intros. by exists line, p. Qed.

Lemma candidate_lower_x : heading_candidate "Tutorial x".
Proof.
  apply (heading_candidate_of_line "Tutorial x" "Tutorial "); by vm_compute.
Qed.

Lemma candidate_upper_x : heading_candidate "Tutorial X".
Proof.
  apply (heading_candidate_of_line "Tutorial X" "Tutorial "); by vm_compute.
Qed.

(** C2, as worded, fails on two headings that differ in case only:
    the one stored first stays, and no warning is signalled. *)
Lemma same_heading_other_case_counterexample :
  heading_candidate "Tutorial x" ∧ heading_candidate "Tutorial X"
  ∧ ci_prefix "Tutorial x" "Tutorial X"
  ∧ reconciled "Tutorial X" "Tutorial x" ProcessComment.init 1 None 2 None
      "Tutorial X" [] []
  ∧ ¬ shorter_always_wins.
Proof.
  split; [apply candidate_lower_x|]. split; [apply candidate_upper_x|].
  split; [by vm_compute|]. split.
  - by eexists _, _, _, _; split_and!; vm_compute.
  - intros H.
    destruct (H "Tutorial x" "Tutorial X" ProcessComment.init 1 None 2 None
                candidate_lower_x candidate_upper_x eq_refl eq_refl)
      as (_ & w & Hw & pc1 & c1 & pc2 & c2 & H1 & _ & _ & _ & H2 & Hh & _).
    vm_compute in H1. injection H1 as <- <-.
    vm_compute in H2. injection H2 as <- <-.
    vm_compute in Hh. discriminate Hh.
Qed.

(** C2, amended.  For heading candidates [A] and [B] with [A] a
    prefix of [B], case apart, fed to the reconciliation step of an
    aggregator that has no heading yet.  When [A] is shorter than
    [B], [A] is what stays stored in both orders; the order [A], [B]
    signals nothing, and the order [B], [A] signals the warning about
    the shorter heading and no error.  When they have the same length
    (they differ in case at most), the one stored first stays and
    neither order signals anything. *)
Theorem shorter_heading_wins A B pc n1 t1 n2 t2 :
  heading_candidate A → heading_candidate B →
  ProcessComment.heading pc = [] → ci_prefix A B →
  (length A < length B →
     reconciled A B pc n1 t1 n2 t2 A [] []
     ∧ reconciled B A pc n1 t1 n2 t2 A
         ("will use newly found, shorter heading '" ++ A ++ "'") [])
  ∧ (length A = length B →
       reconciled A B pc n1 t1 n2 t2 A [] []
       ∧ reconciled B A pc n1 t1 n2 t2 B [] []).
Proof.
  intros [HA HAne]%heading_candidate_normal [HB HBne]%heading_candidate_normal
    Hpc Hpre.
  split; intros Hlen.
  - split; [by apply reconciled_longer|by apply reconciled_shorter].
  - pose proof (ci_prefix_same_length _ _ Hpre Hlen) as Heq.
    split; by apply reconciled_same.
Qed.

Lemma candidate_1a : heading_candidate "Tutorial 1: a".
Proof.
  apply (heading_candidate_of_line "Tutorial 1: a" "Tutorial "); by vm_compute.
Qed.

Lemma candidate_1ab : heading_candidate "Tutorial 1: a b".
Proof.
  apply (heading_candidate_of_line "Tutorial 1:  a b" "Tutorial ");
    by vm_compute.
Qed.

(** The amended claim at the headings of the scenario of the spec. *)
Lemma shorter_heading_wins_witness :
  reconciled "Tutorial 1: a" "Tutorial 1: a b" ProcessComment.init
    1 None 1 None "Tutorial 1: a" [] []
  ∧ reconciled "Tutorial 1: a b" "Tutorial 1: a" ProcessComment.init
      1 None 1 None "Tutorial 1: a"
      ("will use newly found, shorter heading '" ++ "Tutorial 1: a" ++ "'")
      [].
Proof.
  apply (proj1 (shorter_heading_wins "Tutorial 1: a" "Tutorial 1: a b"
                  ProcessComment.init 1 None 1 None candidate_1a candidate_1ab
                  eq_refl eq_refl)).
  vm_compute. lia.
Defined.

(** ** Fatal errors *)

Lemma scan_files_app files : ∀ more pc result o pc' result' o',
  scan_files files pc result o = inl (pc', result', o') →
  scan_files (files ++ more) pc result o = scan_files more pc' result' o'.
Proof.
  induction files as [|[fn lines] files IH]; intros more pc result o pc' r' o'.
  - by intros [= -> -> ->].
  - cbn [app scan_files].
    destruct (scan_file _ fn pc lines ProcessLine.init o); [|done].
    apply IH.
Qed.

(** What the loop does with a record in which the aggregator has
    logged an error. *)
Lemma scan_file_error fuel fn pc fp pl o c fp' pl' pc' c' :
  ProcessLine.call fp pl = Ok (c, (fp', pl')) →
  ProcessComment.call c pc = Ok (pc', c') →
  Comment.error c' ≠ [] →
  scan_file (S fuel) fn pc fp pl o
  = Stop (Exited 1)
      (write_stderr ("Processing aborted." ++ ["010"%char])
         (handle_error (Comment.error c') fn o)).
Proof.
  intros Hs Ha He. cbn [scan_file]. rewrite Hs, Ha.
  unfold assess_processing_result. by rewrite decide_True by done.
Qed.

(** When the loop over a file ends the run, the run is over: the
    status is 1, the files that follow are not read, and standard
    output is empty. *)
Lemma process_stopped files fn lines files' pc result o o' :
  scan_files files ProcessComment.init None (mkio [] [])
  = inl (pc, result, o) →
  scan_file (S (length lines)) fn pc lines ProcessLine.init o
  = Stop (Exited 1) o' →
  process (files ++ (fn, lines) :: files') = (Exited 1, o') ∧ stdout o' = [].
Proof.
  intros Hrun Hstop. split.
  - unfold process. rewrite (scan_files_app _ _ _ _ _ _ _ _ Hrun).
    cbn [scan_files]. by rewrite Hstop.
  - destruct (scan_files_spec files ProcessComment.init None (mkio [] [])
                snapshot_of_init eq_refl)
      as [(pc1 & r1 & o1 & Heq & _ & _ & _ & _ & Ho)|(o1 & Heq & _)];
      rewrite Heq in Hrun; [|done]. injection Hrun as -> -> ->.
    destruct (scan_file_spec (S (length lines)) fn pc lines ProcessLine.init o
                wf_init (Nat.lt_succ_diag_r _))
      as [(? & ? & ? & Heq' & _)|(o2 & Heq' & Ho2)];
      rewrite Heq' in Hstop; [done|]. injection Hstop as <-.
    by rewrite Ho2, Ho.
Qed.

(** C3. Two heading candidates of which neither is a prefix of the
    other, case apart, fed to the reconciliation step of an aggregator
    that has no heading yet: in either order the second one is
    answered by an error whose message names both headings, and the
    classifier says [ERROR].  On a record with an error the loop over
    the file writes the message and ends the run; the run then has
    status 1, reads no further file and has printed nothing on standard
    output. *)
Theorem irreconcilable_headings A B pc n1 t1 n2 t2 :
  heading_candidate A → heading_candidate B →
  ProcessComment.heading pc = [] →
  ¬ ci_prefix A B → ¬ ci_prefix B A →
  reconciled A B pc n1 t1 n2 t2 A []
    ("heading '" ++ B ++ "' different from previous files' heading '"
     ++ A ++ "'" ++ ["010"%char])
  ∧ reconciled B A pc n1 t1 n2 t2 B []
      ("heading '" ++ A ++ "' different from previous files' heading '"
       ++ B ++ "'" ++ ["010"%char])
  ∧ (∀ c, Comment.error c ≠ [] →
       assess_processing_result c = (ERROR, PMessage (Comment.error c)))
  ∧ (∀ fuel fn pc0 fp pl o c fp' pl' pc' c',
       ProcessLine.call fp pl = Ok (c, (fp', pl')) →
       ProcessComment.call c pc0 = Ok (pc', c') →
       Comment.error c' ≠ [] →
       scan_file (S fuel) fn pc0 fp pl o
       = Stop (Exited 1)
           (write_stderr ("Processing aborted." ++ ["010"%char])
              (handle_error (Comment.error c') fn o)))
  ∧ (∀ files fn lines files' pc0 result o o',
       scan_files files ProcessComment.init None (mkio [] [])
       = inl (pc0, result, o) →
       scan_file (S (length lines)) fn pc0 lines ProcessLine.init o
       = Stop (Exited 1) o' →
       process (files ++ (fn, lines) :: files') = (Exited 1, o')
       ∧ stdout o' = []).
Proof.
  intros [HA HAne]%heading_candidate_normal [HB HBne]%heading_candidate_normal
    Hpc Hab Hba.
  split_and!.
  - by apply reconciled_conflict.
  - by apply reconciled_conflict.
  - intros c Hc. unfold assess_processing_result.
    by rewrite decide_True by done.
  - intros. by eapply scan_file_error.
  - intros. by eapply process_stopped.
Qed.

Lemma candidate_Ax : heading_candidate "Tutorial A: x".
Proof.
  apply (heading_candidate_of_line "Tutorial A: x" "Tutorial "); by vm_compute.
Qed.

Lemma candidate_By : heading_candidate "Tutorial B: y".
Proof.
  apply (heading_candidate_of_line "Tutorial B: y" "Tutorial "); by vm_compute.
Qed.

Lemma Ax_not_prefix_By : ¬ ci_prefix "Tutorial A: x" "Tutorial B: y".
Proof. by vm_compute. Qed.

Lemma By_not_prefix_Ax : ¬ ci_prefix "Tutorial B: y" "Tutorial A: x".
Proof. by vm_compute. Qed.

(** The claim at the headings of the last scenario of the spec, and
    the run over two files that carry them. *)
Lemma irreconcilable_headings_witness :
  reconciled "Tutorial A: x" "Tutorial B: y" ProcessComment.init 1 None 1 None
    "Tutorial A: x" []
    ("heading '" ++ "Tutorial B: y"
     ++ "' different from previous files' heading '"
     ++ "Tutorial A: x" ++ "'" ++ ["010"%char])
  ∧ reconciled "Tutorial B: y" "Tutorial A: x" ProcessComment.init
      1 None 1 None "Tutorial B: y" []
      ("heading '" ++ "Tutorial A: x"
       ++ "' different from previous files' heading '"
       ++ "Tutorial B: y" ++ "'" ++ ["010"%char])
  ∧ process ([("f1" : str, ["# Tutorial A: x" : str])]
             ++ ("f2" : str, ["# Tutorial B: y" : str])
             :: [("f3" : str, ["# KWords: k" : str])])
    = (Exited 1,
       mkio []
         ("f2:heading 'Tutorial B: y' different from previous files' heading "
          ++ "'Tutorial A: x'" ++ ["010"%char] ++ ["010"%char]
          ++ "Processing aborted." ++ ["010"%char])).
Proof.
  destruct (irreconcilable_headings "Tutorial A: x" "Tutorial B: y"
              ProcessComment.init 1 None 1 None candidate_Ax candidate_By
              eq_refl Ax_not_prefix_By By_not_prefix_Ax)
    as (H1 & H2 & _ & _ & H5).
  split; [exact H1|]. split; [exact H2|].
  apply (H5 [("f1" : str, ["# Tutorial A: x" : str])] "f2"
           ["# Tutorial B: y" : str] [("f3" : str, ["# KWords: k" : str])]
           (ProcessComment.mk "Tutorial A: x" "tutorial a: x" ∅ false)
           (Some (Comment.mk 2 (Some []) [] [] "Tutorial A: x" []))
           (mkio [] [])); vm_compute; reflexivity.
Defined.

(** ** The example of the header comment, and the diagnostics *)

(** C1. What the program does on the two files of the example: the
    second line of the first file, marked by one [#] where the file
    opened with two, does not match the continuation pattern made
    from the opening mark; the scanner answers it with the empty text,
    the block of the first file closes after the heading, and [kw2],
    which only that line carries, is missing from the output. *)
Theorem header_example_run :
  secondary_comment_matcher "##"
  = Ok (Some (Bos ⋅ Star Space ⋅ lit "##" ⋅ Star Space)%re)
  ∧ rmatch (Bos ⋅ Star Space ⋅ lit "##" ⋅ Star Space)%re "# KWords: kw1, kw2"
    = None
  ∧ pull 2 file1 ProcessLine.init
    = Ok [Comment.init 1 (Some ("Tutorial #1: summary tut.1" : str));
          Comment.init 2 (Some [])]
  ∧ process [("file1" : str, file1); ("file2" : str, file2)]
    = (Exited 0,
       mkio ("Tutorial #1: summary tut.1" ++ ["010"%char]
             ++ "Keywords: kw1, kw3, kw4" ++ ["010"%char])
            []).
Proof. split_and!; vm_compute; reflexivity. Qed.

(** C4. What the program writes on the diagnostic stream: the name
    of the file, a colon and the message as the aggregator logged it.
    [addError] and [addWarning] store the message as it is given, so
    no line number is written: an error found at line 3 of a file and
    a warning found at line 2 of another show none. *)
Theorem diagnostics_without_line_number :
  (∀ message c, ∃ c',
     Comment.addError message c = Ok c' ∧ Comment.error c' = message)
  ∧ (∀ message c, ∃ c',
       Comment.addWarning message c = Ok c' ∧ Comment.warning c' = message)
  ∧ (∀ message fileName o,
       stderr (handle_error message fileName o)
       = stderr o ++ fileName ++ ":" ++ message ++ ["010"%char])
  ∧ (∀ message fileName o,
       stderr (handle_warning message fileName o)
       = stderr o ++ "Warning:" ++ fileName ++ ":" ++ message ++ ["010"%char])
  ∧ process [("f1" : str, ["# Tutorial A: x" : str]);
             ("f2" : str, ["#" : str; "#" : str; "# Tutorial B: y" : str])]
    = (Exited 1,
       mkio []
         ("f2:heading 'Tutorial B: y' different from previous files' heading "
          ++ "'Tutorial A: x'" ++ ["010"%char] ++ ["010"%char]
          ++ "Processing aborted." ++ ["010"%char]))
  ∧ process [("f1" : str, ["#" : str; "# KWords: x" : str;
                            "# Tutorial A: x" : str; "# KWords: y" : str])]
    = (Exited 0,
       mkio ("Tutorial A: x" ++ ["010"%char] ++ "Keywords: y" ++ ["010"%char])
         ("Warning:f1:Found keywords definition in file with no Tutorial "
          ++ "line: 'KWords: x'" ++ ["010"%char])).
Proof.
  split_and!; try (vm_compute; reflexivity).
  - intros message c. eexists. by rewrite addError_ok.
  - intros message c. eexists. by rewrite addWarning_ok.
Qed.

(** ** The keyword set *)

Lemma updateKeywords_set keywords c pc :
  ProcessComment.keywordsSet (ProcessComment.updateKeywords keywords c pc).1
  = ProcessComment.keywordsSet pc ∪ list_to_set (split_on_commas keywords).
Proof.
  unfold ProcessComment.updateKeywords. cbn [fst ProcessComment.keywordsSet].
  generalize (ProcessComment.keywordsSet pc).
  induction (split_on_commas keywords) as [|kw l IH]; intros S; simpl.
  - by rewrite (right_id_L ∅ (∪)).
  - by rewrite IH, (assoc_L (∪)).
Qed.

Lemma collapse_congr u : ∀ y1 y2,
  collapse y1 = collapse y2 → head_space y1 = head_space y2 →
  collapse (u ++ y1) = collapse (u ++ y2)
  ∧ head_space (u ++ y1) = head_space (u ++ y2).
Proof.
  induction u as [|c u IH]; intros y1 y2 Hc Hh; [done|].
  destruct (IH y1 y2 Hc Hh) as [IHc IHh]. split; [|done].
  rewrite <-!app_comm_cons, !collapse_cons. destruct (Py.isspace c); [|by f_equal].
  unfold head_space in IHh.
  destruct (u ++ y1) as [|d1 s1], (u ++ y2) as [|d2 s2]; try done.
  - apply (f_equal length) in IHc. rewrite collapse_cons in IHc.
    destruct (Py.isspace d2); [done|]. by simpl in IHc.
  - apply (f_equal length) in IHc. rewrite collapse_cons in IHc.
    destruct (Py.isspace d1); [done|]. by simpl in IHc.
  - rewrite <-IHh. destruct (Py.isspace d1); by rewrite IHc.
Qed.

Lemma collapse_run w x :
  allspace w → w ≠ [] → collapse (w ++ x) = " "%char :: collapse (Py.lstrip x).
Proof.
  intros Hw Hne. destruct w as [|c w]; [done|]. inversion Hw; subst.
  rewrite <-app_comm_cons, collapse_space by done.
  by rewrite lstrip_allspace.
Qed.

Lemma lstrip_app_not_allspace u x :
  ¬ allspace u → Py.lstrip (u ++ x) = Py.lstrip u ++ x.
Proof.
  induction u as [|c u IH]; intros Hu; [by destruct Hu; constructor|].
  simpl. destruct (Py.isspace c) eqn:Hc; [|done].
  apply IH. intros H. apply Hu. by constructor.
Qed.

Lemma rstrip_app_not_allspace x v :
  ¬ allspace v → Py.rstrip (x ++ v) = x ++ Py.rstrip v.
Proof.
  intros Hv. unfold Py.rstrip. rewrite reverse_app.
  rewrite lstrip_app_not_allspace by by rewrite allspace_reverse.
  by rewrite reverse_app, reverse_involutive.
Qed.

(** [normalise_text] does not see how long a run of white space
    is. *)
Lemma normalise_text_runs u v w1 w2 :
  allspace w1 → w1 ≠ [] → allspace w2 → w2 ≠ [] →
  normalise_text (u ++ w1 ++ v) = normalise_text (u ++ w2 ++ v).
Proof.
  intros H1 N1 H2 N2. rewrite !normalise_text_collapse. unfold Py.strip.
  destruct (decide (allspace v)) as [Hv|Hv].
  { by rewrite !(rstrip_allspace u) by by apply Forall_app. }
  assert (Hr : ∀ w, Py.rstrip (u ++ w ++ v) = u ++ w ++ Py.rstrip v).
  { intros w. rewrite (assoc_L (++) u w v), rstrip_app_not_allspace by done.
    by rewrite <-(assoc_L (++)). }
  rewrite !Hr.
  destruct (decide (allspace u)) as [Hu|Hu].
  { rewrite !(lstrip_allspace u) by done.
    by rewrite (lstrip_allspace w1), (lstrip_allspace w2) by done. }
  rewrite !lstrip_app_not_allspace by done.
  apply collapse_congr.
  - by rewrite !collapse_run by done.
  - destruct w1 as [|c1 w1], w2 as [|c2 w2]; try done.
    inversion H1; inversion H2; subst. simpl. congruence.
Qed.

Global Instance Py_le_total : Total Py.le.
Proof. intros s t. apply (total String.le). Qed.

Global Instance Py_le_trans : Transitive Py.le.
Proof. intros s t u. apply (transitivity (R := String.le)). Qed.

(** The displayed keywords are the members of the set, each once, in
    the order of [sorted], joined by a comma and a space. *)
Lemma keywordsToString_canonical pc :
  ∃ l, ProcessComment.keywordsToString pc = Py.join ", " l
    ∧ StronglySorted Py.le l ∧ NoDup l
    ∧ ∀ x, x ∈ l ↔ x ∈ ProcessComment.keywordsSet pc.
Proof.
  exists (Py.sorted (elements (ProcessComment.keywordsSet pc))).
  split; [done|]. unfold Py.sorted. split; [apply StronglySorted_merge_sort; apply _|].
  split.
  - rewrite merge_sort_Permutation. apply NoDup_elements.
  - intros x. rewrite merge_sort_Permutation. apply elem_of_elements.
Qed.

(** C5. The keyword set does not depend on the order of the keyword
    strings nor on their repetition; the text of a keyword line is
    normalised in the same way whatever the length of its runs of
    white space; the displayed keywords are the distinct members of
    the set, sorted and joined by a comma and a space; and the strings
    of the example, after a heading, in either order and in any of the
    spellings above, are displayed as [k1, k2, k3], as is one of them
    fed twice as if fed once. *)
Theorem keyword_set_canonical :
  (∀ pc c1 c2 s1 s2,
     ProcessComment.keywordsSet
       (ProcessComment.updateKeywords s2 c2
          (ProcessComment.updateKeywords s1 c1 pc).1).1
     = ProcessComment.keywordsSet
         (ProcessComment.updateKeywords s1 c1
            (ProcessComment.updateKeywords s2 c2 pc).1).1)
  ∧ (∀ pc c1 c2 s,
       ProcessComment.keywordsSet
         (ProcessComment.updateKeywords s c2
            (ProcessComment.updateKeywords s c1 pc).1).1
       = ProcessComment.keywordsSet (ProcessComment.updateKeywords s c1 pc).1)
  ∧ (∀ u v w1 w2,
       allspace w1 → w1 ≠ [] → allspace w2 → w2 ≠ [] →
       normalise_text (u ++ w1 ++ v) = normalise_text (u ++ w2 ++ v)
       ∧ ∀ prefix,
           ProcessComment.tutorialKeywords prefix (prefix ++ u ++ w1 ++ v)
           = ProcessComment.tutorialKeywords prefix (prefix ++ u ++ w2 ++ v))
  ∧ (∀ pc, ∃ l,
       ProcessComment.keywordsToString pc = Py.join ", " l
       ∧ StronglySorted Py.le l ∧ NoDup l
       ∧ ∀ x, x ∈ l ↔ x ∈ ProcessComment.keywordsSet pc)
  ∧ Forall (λ l1, Forall (λ l2,
       rendering ["Tutorial 1: a" : str; l1; l2] = Ok ("k1, k2, k3" : str)
       ∧ rendering ["Tutorial 1: a" : str; l2; l1] = Ok ("k1, k2, k3" : str)
       ∧ rendering ["Tutorial 1: a" : str; l1; l1]
         = rendering ["Tutorial 1: a" : str; l1])
     k2_k3_lines) k1_k2_lines.
Proof.
  split_and!.
  - intros. rewrite !updateKeywords_set.
    by rewrite <-!(assoc_L (∪)), (comm_L (∪) (list_to_set _)).
  - intros. rewrite !updateKeywords_set.
    by rewrite <-(assoc_L (∪)), (idemp_L (∪)).
  - intros u v w1 w2 H1 N1 H2 N2.
    pose proof (normalise_text_runs u v w1 w2 H1 N1 H2 N2) as Hn.
    split; [done|]. intros prefix. unfold ProcessComment.tutorialKeywords.
    rewrite !tail_after_prefix. cbn [mbind result_bind]. by rewrite Hn.
  - apply keywordsToString_canonical.
  - unfold k1_k2_lines, k2_k3_lines.
    repeat first [apply Forall_nil_2 | apply Forall_cons_2 | apply conj];
      vm_compute; reflexivity.
Qed.

(** ** The texts [normalise_text] returns *)

Lemma collapse_single_spaced s :
  (∀ s' c, s = s' ++ [c] → Py.isspace c = false) →
  single_spaced (collapse s).
Proof.
  induction s as [|c s IH]; intros Hlast; [exact I|].
  assert (Hs : ∀ s' d, s = s' ++ [d] → Py.isspace d = false).
  { intros s' d ->. exact (Hlast (c :: s') d eq_refl). }
  rewrite collapse_cons. destruct (Py.isspace c) eqn:Hc.
  - destruct s as [|d s'].
    + rewrite (Hlast [] c eq_refl) in Hc. discriminate.
    + destruct (Py.isspace d) eqn:Hd; [by apply IH|].
      specialize (IH Hs). rewrite collapse_nospace in IH |- * by done.
      cbn [single_spaced]. split; [|exact IH].
      intros _. split_and!; [done|done|]. cbn. exact Hd.
  - cbn [single_spaced]. split; [|by apply IH].
    rewrite Hc. discriminate.
Qed.

Lemma single_spaced_collapse s : single_spaced s → collapse s = s.
Proof.
  induction s as [|c s IH]; [done|]. cbn [single_spaced]. intros [Hc Hs].
  rewrite collapse_cons. destruct (Py.isspace c) eqn:Hsp.
  - destruct (Hc eq_refl) as (-> & Hne & Hh).
    destruct s as [|d s']; [done|]. cbn in Hh. rewrite Hh.
    by rewrite IH.
  - by rewrite IH.
Qed.

Lemma normal_iff s : normal s ↔ trimmed s ∧ single_spaced s.
Proof.
  split.
  - intros Hn. split; [by apply normal_trimmed|].
    rewrite <- Hn, normalise_text_collapse.
    apply collapse_single_spaced. apply strip_trimmed.
  - intros [Ht Hs]. unfold normal.
    by rewrite normalise_text_collapse, trimmed_strip, single_spaced_collapse.
Qed.

Lemma length_collapse s : length (collapse s) ≤ length s.
Proof.
  induction s as [|c s IH]; [done|]. rewrite collapse_cons.
  destruct (Py.isspace c); [|cbn; lia].
  destruct s as [|d s']; [done|].
  destruct (Py.isspace d); cbn in *; lia.
Qed.

Lemma length_strip s : length (Py.strip s) ≤ length s.
Proof.
  unfold Py.strip, Py.rstrip.
  etrans; [apply length_lstrip|].
  rewrite length_reverse. etrans; [apply length_lstrip|].
  by rewrite length_reverse.
Qed.

Lemma length_normalise_text s : length (normalise_text s) ≤ length s.
Proof.
  rewrite normalise_text_collapse.
  etrans; [apply length_collapse|apply length_strip].
Qed.

Lemma filter_allspace w :
  allspace w → filter (λ c, Py.isspace c = false) w = [].
Proof.
  induction 1 as [|c w Hc _ IH]; [done|].
  rewrite filter_cons_False; [done|]. by rewrite Hc.
Qed.

Lemma filter_collapse s :
  filter (λ c, Py.isspace c = false) (collapse s)
  = filter (λ c, Py.isspace c = false) s.
Proof.
  induction s as [|c s IH]; [done|]. rewrite collapse_cons.
  destruct (Py.isspace c) eqn:Hc.
  - rewrite (filter_cons_False _ c) by (by rewrite Hc).
    destruct s as [|d s']; [done|].
    destruct (Py.isspace d); [done|].
    by rewrite filter_cons_False.
  - by rewrite !filter_cons_True, IH.
Qed.

Lemma filter_strip s :
  filter (λ c, Py.isspace c = false) (Py.strip s)
  = filter (λ c, Py.isspace c = false) s.
Proof.
  unfold Py.strip.
  destruct (rstrip_split s) as (w2 & Hw2 & Hs).
  destruct (lstrip_split (Py.rstrip s)) as (w1 & Hw1 & Hr).
  transitivity (filter (λ c, Py.isspace c = false)
                  ((w1 ++ Py.lstrip (Py.rstrip s)) ++ w2)).
  - rewrite !filter_app, (filter_allspace w1), (filter_allspace w2) by done.
    by rewrite app_nil_r.
  - by rewrite <- Hr, <- Hs.
Qed.

(** X1. [normalise_text] is idempotent and returns a canonical text:
    no white space at either end, and every white-space character is
    a single space followed by a character that is not white space.
    The texts of that shape are exactly those it leaves unchanged. *)
Theorem normalise_text_canonical s :
  normalise_text (normalise_text s) = normalise_text s
  ∧ trimmed (normalise_text s)
  ∧ single_spaced (normalise_text s)
  ∧ (normalise_text s = s ↔ trimmed s ∧ single_spaced s).
Proof.
  pose proof (normalise_text_normal s) as Hn.
  split_and!.
  - exact Hn.
  - apply normalise_text_trimmed.
  - by apply normal_iff.
  - apply normal_iff.
Qed.

(** X2. [normalise_text] only touches white space: the characters
    that are not white space are kept, in their order; the result
    is never longer than the text, and it is empty exactly when the
    text holds nothing but white space. *)
Theorem normalise_text_keeps_words s :
  filter (λ c, Py.isspace c = false) (normalise_text s)
  = filter (λ c, Py.isspace c = false) s
  ∧ length (normalise_text s) ≤ length s
  ∧ (normalise_text s = [] ↔ allspace s).
Proof.
  split_and!.
  - by rewrite normalise_text_collapse, filter_collapse, filter_strip.
  - apply length_normalise_text.
  - apply normalise_text_nil.
Qed.

(** ** [tail_after] *)

(** X3. [tail_after] raises [ValueError] exactly when HEAD is longer
    than STRING; otherwise it returns STRING without its first
    [len(HEAD)] characters.  Only the length of HEAD is looked at:
    the tail follows HEAD when HEAD starts STRING, and STRING is cut
    at the same place when it does not.  On what a pattern has
    matched at the start of STRING, as the program calls it, it never
    raises. *)
Theorem tail_after_bounds (string head : str) :
  (length string < length head
   → tail_after string head = Raise (ValueError "HEAD longer than STRING."))
  ∧ (length head ≤ length string
     → tail_after string head = Ok (drop (length head) string)
       ∧ length (drop (length head) string) = length string - length head)
  ∧ (∀ tail, tail_after (head ++ tail) head = Ok tail)
  ∧ (∀ head' : str, length head' = length head
     → tail_after string head' = tail_after string head)
  ∧ (∀ r mo, rmatch r string = Some mo
     → ∃ tail, tail_after string (group mo) = Ok tail
               ∧ string = group mo ++ tail).
Proof.
  unfold tail_after. split_and!.
  - intros H. by rewrite decide_True.
  - intros H. rewrite decide_False by lia. by rewrite length_drop.
  - intros tail. rewrite decide_False by (rewrite length_app; lia).
    by rewrite drop_app_length.
  - by intros head' ->.
  - intros r mo (tail & Hs & Ht)%tail_after_group. by exists tail.
Qed.

(** ** [re.split(",\s*", s)] and [split_on_commas] *)

Lemma match_len_comma pos c s :
  match_len (Chr (Lit ",") ⋅ Star Space)%re pos (c :: s)
  = if bool_decide (c = ","%char) then Some (S (span s)) else None.
Proof.
  unfold match_len. cbn [run cmatch]. case_bool_decide; [|done].
  rewrite star_space_greedy by eauto. f_equal. lia.
Qed.

Lemma split_from_skip r : ∀ n pos s,
  split_from r pos n s = split_from r (pos + n) 0 (drop n s).
Proof.
  induction n as [|n IH]; intros pos s.
  - by rewrite Nat.add_0_r.
  - destruct s as [|c s]; [done|]. cbn [split_from drop]. rewrite IH.
    f_equal. lia.
Qed.

(** The pattern has no anchor: the position plays no part. *)
Lemma split_comma_pos s : ∀ pos pos' skip,
  split_from (Chr (Lit ",") ⋅ Star Space)%re pos skip s
  = split_from (Chr (Lit ",") ⋅ Star Space)%re pos' skip s.
Proof.
  induction s as [|c s IH]; intros pos pos' skip; [done|].
  cbn [split_from]. destruct skip as [|n]; [|apply IH].
  rewrite !match_len_comma. case_bool_decide.
  - f_equal. apply IH.
  - by rewrite (IH (S pos) (S pos') 0).
Qed.

Lemma split_comma_nocomma (a : str) :
  ","%char ∉ a → Re.split (Chr (Lit ",") ⋅ Star Space)%re a = [a].
Proof.
  unfold Re.split. generalize 0 at 1.
  induction a as [|c a IH]; intros pos Ha; [done|].
  apply not_elem_of_cons in Ha as [Hc Ha].
  cbn [split_from]. rewrite match_len_comma, bool_decide_false by done.
  by rewrite IH.
Qed.

Lemma split_comma_cons (a rest : str) :
  ","%char ∉ a →
  Re.split (Chr (Lit ",") ⋅ Star Space)%re (a ++ ","%char :: rest)
  = a :: Re.split (Chr (Lit ",") ⋅ Star Space)%re (Py.lstrip rest).
Proof.
  unfold Re.split. generalize 0 at 1.
  induction a as [|c a IH]; intros pos Ha.
  - cbn [app split_from]. rewrite match_len_comma, bool_decide_true by done.
    rewrite split_from_skip, drop_span. f_equal. apply split_comma_pos.
  - apply not_elem_of_cons in Ha as [Hc Ha].
    cbn [app split_from]. rewrite match_len_comma, bool_decide_false by done.
    by rewrite IH.
Qed.

(** A text holds no comma, or it has a first one. *)
Lemma first_comma (s : str) :
  ","%char ∉ s ∨ ∃ a rest, s = a ++ ","%char :: rest ∧ ","%char ∉ a.
Proof.
  induction s as [|c s IH]; [left; apply not_elem_of_nil|].
  destruct (decide (c = ","%char)) as [->|Hc].
  - right. exists [], s. split; [done|apply not_elem_of_nil].
  - destruct IH as [IH|(a & rest & -> & Ha)].
    + left. by apply not_elem_of_cons.
    + right. exists (c :: a), rest. split; [done|by apply not_elem_of_cons].
Qed.

Lemma split_on_commas_nocomma (a : str) :
  ","%char ∉ a →
  split_on_commas a = if decide (a = []) then [] else [normalise_text a].
Proof.
  intros Ha. unfold split_on_commas. rewrite split_comma_nocomma by done.
  case_decide as H.
  - subst a. by rewrite filter_cons_False by (by intros ?).
  - by rewrite filter_cons_True.
Qed.

Lemma split_on_commas_cons (a rest : str) :
  ","%char ∉ a →
  split_on_commas (a ++ ","%char :: rest)
  = (if decide (a = []) then [] else [normalise_text a])
    ++ split_on_commas (Py.lstrip rest).
Proof.
  intros Ha. unfold split_on_commas. rewrite split_comma_cons by done.
  case_decide as H.
  - subst a. by rewrite filter_cons_False by (by intros ?).
  - by rewrite filter_cons_True.
Qed.

Lemma split_on_commas_ind (P : str → list str → Prop) :
  (∀ a : str, ","%char ∉ a →
     P a (if decide (a = []) then [] else [normalise_text a])) →
  (∀ a rest : str, ","%char ∉ a →
     P (Py.lstrip rest) (split_on_commas (Py.lstrip rest)) →
     P (a ++ ","%char :: rest)
       ((if decide (a = []) then [] else [normalise_text a])
        ++ split_on_commas (Py.lstrip rest))) →
  ∀ s, P s (split_on_commas s).
Proof.
  intros H1 H2.
  assert (H : ∀ n (s : str), length s ≤ n → P s (split_on_commas s));
    [|by intros s; apply (H (length s))].
  induction n as [|n IH]; intros s Hn.
  - destruct s; [|simpl in Hn; lia].
    rewrite split_on_commas_nocomma by apply not_elem_of_nil.
    apply (H1 []), not_elem_of_nil.
  - destruct (first_comma s) as [Hs|(a & rest & -> & Ha)].
    + rewrite split_on_commas_nocomma by done. by apply H1.
    + rewrite split_on_commas_cons by done. apply H2; [done|].
      apply IH. pose proof (length_lstrip rest).
      rewrite length_app in Hn. simpl in Hn. lia.
Qed.

Lemma head_space_lstrip s : head_space (Py.lstrip s) = false.
Proof.
  induction s as [|c s IH]; [done|]. simpl.
  destruct (Py.isspace c) eqn:Hc; [done|]. simpl. exact Hc.
Qed.

Lemma head_space_allspace (w : str) : w ≠ [] → allspace w → head_space w = true.
Proof. intros Hw Ha. destruct Ha; [done|]. done. Qed.

Lemma head_space_app (a b : str) : a ≠ [] → head_space (a ++ b) = head_space a.
Proof. by destruct a. Qed.

Lemma comma_not_allspace (w : str) : allspace w → ","%char ∉ w.
Proof.
  intros Hw Hin. unfold allspace in Hw. rewrite Forall_forall in Hw.
  by apply Hw in Hin.
Qed.

Lemma normalise_text_no_comma (a : str) :
  ","%char ∉ a → ","%char ∉ normalise_text a.
Proof.
  intros Ha Hin. apply Ha.
  assert (H : ","%char ∈ filter (λ c, Py.isspace c = false) (normalise_text a))
    by (by apply list_elem_of_filter).
  rewrite normalise_text_collapse, filter_collapse, filter_strip in H.
  by apply list_elem_of_filter in H as [_ H].
Qed.

Lemma split_on_commas_normal s :
  Forall (λ t, normal t ∧ ","%char ∉ t) (split_on_commas s).
Proof.
  apply (split_on_commas_ind (λ _ l, Forall (λ t, normal t ∧ ","%char ∉ t) l)).
  - intros a Ha. case_decide; [done|]. apply Forall_singleton.
    split; [apply normalise_text_normal|by apply normalise_text_no_comma].
  - intros a rest Ha IH. apply Forall_app. split; [|done].
    case_decide; [done|]. apply Forall_singleton.
    split; [apply normalise_text_normal|by apply normalise_text_no_comma].
Qed.

Lemma split_on_commas_nonempty s :
  head_space s = false → Forall (λ t, t ≠ []) (split_on_commas s).
Proof.
  apply (split_on_commas_ind
           (λ s l, head_space s = false → Forall (λ t, t ≠ []) l)).
  - intros a Ha Hh. case_decide as Hne; [done|]. apply Forall_singleton.
    rewrite normalise_text_nil. intros Hall.
    by rewrite head_space_allspace in Hh.
  - intros a rest Ha IH Hh. apply Forall_app.
    split; [|apply IH, head_space_lstrip].
    case_decide as Hne; [done|]. apply Forall_singleton.
    rewrite normalise_text_nil. intros Hall.
    rewrite head_space_app, head_space_allspace in Hh; done.
Qed.

(** X4. The terms [split_on_commas] returns are normalised and hold
    no comma.  An empty term is returned only for white space that
    stands before the first comma (or is the whole text); a text
    that does not start with white space gives no empty term. *)
Theorem split_on_commas_terms (s : str) :
  Forall (λ t, normal t ∧ ","%char ∉ t) (split_on_commas s)
  ∧ ([] ∈ split_on_commas s
     ↔ ∃ w rest : str, w ≠ [] ∧ allspace w
         ∧ (s = w ∨ s = w ++ ","%char :: rest))
  ∧ (head_space s = false → [] ∉ split_on_commas s).
Proof.
  assert (Hne : ∀ s, head_space s = false → [] ∉ split_on_commas s).
  { intros s' Hh Hin. pose proof (split_on_commas_nonempty s' Hh) as HF.
    rewrite Forall_forall in HF. by apply HF in Hin. }
  split_and!; [apply split_on_commas_normal| |apply Hne].
  split.
  - destruct (first_comma s) as [Hs|(a & rest & -> & Ha)].
    + rewrite split_on_commas_nocomma by done.
      case_decide as Ha; [by intros ?%elem_of_nil|].
      intros Hin%list_elem_of_singleton. symmetry in Hin.
      apply normalise_text_nil in Hin. exists s, []. eauto.
    + rewrite split_on_commas_cons by done.
      intros [Hin|Hin]%elem_of_app.
      * case_decide as Hne'; [by apply elem_of_nil in Hin|].
        apply list_elem_of_singleton in Hin. symmetry in Hin.
        apply normalise_text_nil in Hin. exists a, rest. eauto.
      * by apply Hne in Hin; [|apply head_space_lstrip].
  - intros (w & rest & Hw & Hall & [->| ->]).
    + rewrite split_on_commas_nocomma by by apply comma_not_allspace.
      rewrite decide_False by done. apply list_elem_of_singleton.
      symmetry. by apply normalise_text_nil.
    + rewrite split_on_commas_cons by by apply comma_not_allspace.
      rewrite decide_False by done. apply elem_of_app. left.
      apply list_elem_of_singleton. symmetry. by apply normalise_text_nil.
Qed.

Lemma head_space_lstrip_id s : head_space s = false → Py.lstrip s = s.
Proof. destruct s as [|c s]; [done|]. simpl. by intros ->. Qed.

Lemma head_space_normal (k : str) : normal k → head_space k = false.
Proof.
  intros [Hk _]%normal_trimmed. destruct k as [|c k]; [done|].
  simpl. by apply (Hk c k).
Qed.

Lemma head_space_join sep (k : str) l :
  k ≠ [] → head_space (Py.join sep (k :: l)) = head_space k.
Proof. intros Hk. destruct l; [done|]. cbn [Py.join]. by destruct k. Qed.

(** The keywords joined with a comma and any white space. *)
Lemma split_join (w : str) (ks : list str) :
  allspace w →
  Forall (λ k, k ≠ [] ∧ normal k ∧ ","%char ∉ k) ks →
  split_on_commas (Py.join (","%char :: w) ks) = ks.
Proof.
  intros Hw. induction 1 as [|k ks (Hne & Hn & Hc) Hks IH].
  - rewrite split_on_commas_nocomma by apply not_elem_of_nil. done.
  - destruct ks as [|k' l].
    + cbn [Py.join]. rewrite split_on_commas_nocomma by done.
      by rewrite decide_False, Hn.
    + change (Py.join (","%char :: w) (k :: k' :: l))
        with (k ++ ","%char :: w ++ Py.join (","%char :: w) (k' :: l)).
      rewrite split_on_commas_cons by done.
      rewrite decide_False, Hn by done.
      apply Forall_cons_1 in Hks as [(Hne' & Hn' & _) _].
      rewrite lstrip_allspace by done.
      rewrite head_space_lstrip_id, IH; [done|].
      rewrite head_space_join by done. by apply head_space_normal.
Qed.

(** X5. Parsing undoes rendering: for keywords that are not empty,
    are normalised and hold no comma, [split_on_commas] of the
    keywords joined with a comma and a space gives the keywords
    back, in the same order; and so it does whatever white space
    follows the commas. *)
Theorem split_on_commas_join (ks : list str) :
  Forall (λ k, k ≠ [] ∧ normal k ∧ ","%char ∉ k) ks →
  split_on_commas (Py.join ", " ks) = ks
  ∧ ∀ w : str, allspace w →
      split_on_commas (Py.join (","%char :: w) ks) = ks.
Proof.
  intros Hks. split.
  - apply (split_join " "); [by repeat constructor|done].
  - intros w Hw. by apply split_join.
Qed.

Lemma split_on_commas_join_witness :
  split_on_commas (Py.join ", " ["k1" : str; "k 2" : str; "k3" : str])
  = ["k1" : str; "k 2" : str; "k3" : str]
  ∧ ∀ w : str, allspace w →
      split_on_commas
        (Py.join (","%char :: w) ["k1" : str; "k 2" : str; "k3" : str])
      = ["k1" : str; "k 2" : str; "k3" : str].
Proof.
  apply split_on_commas_join.
  repeat first [apply Forall_nil_2 | apply Forall_cons_2];
    (split_and!; [done|vm_compute; reflexivity|]);
    intros H; repeat (apply elem_of_cons in H as [H|H]; [done|]);
    by apply elem_of_nil in H.
Defined.

(** ** The keywords of the set *)

Lemma keyword_inv_init : keyword_inv ProcessComment.init.
Proof. intros k Hk. by apply elem_of_empty in Hk. Qed.

Lemma call_preserves_keyword_inv c pc pc' c' :
  keyword_inv pc → ProcessComment.call c pc = Ok (pc', c') → keyword_inv pc'.
Proof.
  intros Hinv. unfold ProcessComment.call.
  destruct (Comment.current c) as [line|]; [|done].
  destruct (read_heading_prefix line) as [p|] eqn:Hp.
  - destruct (tutorialHeading_shape _ _ Hp) as (tail & _ & Hh & _).
    rewrite Hh. cbn [mbind result_bind].
    unfold ProcessComment.updateHeading.
    repeat case_decide; rewrite ?addWarning_ok, ?addError_ok;
      cbn [mbind result_bind]; intros [= <- <-]; exact Hinv.
  - destruct (read_kwords_prefix line) as [q|] eqn:Hq.
    + apply group_or_None_inv in Hq as (_ & tail & _ & _ & Ht).
      destruct (ProcessComment.keywordsAllowed pc) eqn:Hgate; cbn [negb].
      * unfold ProcessComment.tutorialKeywords. rewrite Ht.
        cbn [mbind result_bind]. intros Heq.
        assert (Heq' : ProcessComment.updateKeywords (normalise_text tail) c pc
                       = (pc', c')) by congruence.
        replace pc'
          with (ProcessComment.updateKeywords (normalise_text tail) c pc).1
          by (by rewrite Heq').
        intros k. rewrite updateKeywords_set.
        intros [Hk|Hk%elem_of_list_to_set]%elem_of_union; [by apply Hinv|].
        pose proof (split_on_commas_normal (normalise_text tail)) as Hn.
        pose proof (split_on_commas_nonempty (normalise_text tail)
                      (head_space_normal _ (normalise_text_normal tail))) as He.
        rewrite Forall_forall in Hn, He.
        destruct (Hn k Hk). split_and!; auto.
      * rewrite addWarning_ok. cbn [mbind result_bind].
        intros [= <- <-]. exact Hinv.
    + intros [= <- <-]. exact Hinv.
Qed.

Lemma reachable_keyword_inv pc : reachable pc → keyword_inv pc.
Proof.
  revert pc. apply rtc_ind_r; [apply keyword_inv_init|].
  intros pc1 pc2 _ (c & c' & Hstep) IH. by eapply call_preserves_keyword_inv.
Qed.

Lemma join_nil sep (l : list str) :
  Forall (λ k, k ≠ []) l → Py.join sep l = [] → l = [].
Proof.
  intros Hl. destruct l as [|x [|y l]]; [done| |].
  - apply Forall_cons_1 in Hl as [Hx _]. done.
  - apply Forall_cons_1 in Hl as [Hx _]. cbn [Py.join].
    by intros [? _]%app_eq_nil.
Qed.

Lemma sorted_Permutation l : Py.sorted l ≡ₚ l.
Proof. apply merge_sort_Permutation. Qed.

Lemma keywordsToString_nil pc :
  keyword_inv pc →
  ProcessComment.keywordsToString pc = [] ↔ ProcessComment.keywordsSet pc = ∅.
Proof.
  intros Hinv. split.
  - intros H. apply join_nil in H.
    + apply leibniz_equiv, elements_empty_inv.
      apply Permutation_nil_r. rewrite <- H.
      symmetry. apply sorted_Permutation.
    + apply Forall_forall. intros k Hk. rewrite sorted_Permutation in Hk.
      apply elem_of_elements in Hk. by apply Hinv.
  - intros H. unfold ProcessComment.keywordsToString,
      ProcessComment.values_of_set. by rewrite H, elements_empty.
Qed.

(** X6. In every state the aggregator can reach, each keyword of the
    set is not empty, is normalised and holds no comma.  So the
    rendering of the set is empty exactly when the set is. *)
Theorem keyword_set_wellformed pc :
  reachable pc →
  (∀ k, k ∈ ProcessComment.keywordsSet pc →
     k ≠ [] ∧ normalise_text k = k ∧ ","%char ∉ k)
  ∧ (ProcessComment.keywordsToString pc = []
     ↔ ProcessComment.keywordsSet pc = ∅).
Proof.
  intros Hr. pose proof (reachable_keyword_inv pc Hr) as Hinv.
  split; [exact Hinv|by apply keywordsToString_nil].
Qed.

Lemma two_keywords_state_reachable : reachable two_keywords_state.
Proof.
  apply (rtc_l _ _ (ProcessComment.mk "Tutorial x" "tutorial x" ∅ true)).
  { exists (Comment.init 1 (Some ("Tutorial x" : str))).
    eexists. vm_compute. reflexivity. }
  apply rtc_once.
  exists (Comment.init 2 (Some ("KWords: a, b c" : str))).
  eexists. vm_compute. reflexivity.
Qed.

Lemma keyword_set_wellformed_witness :
  (∀ k, k ∈ ProcessComment.keywordsSet two_keywords_state →
     k ≠ [] ∧ normalise_text k = k ∧ ","%char ∉ k)
  ∧ (ProcessComment.keywordsToString two_keywords_state = []
     ↔ ProcessComment.keywordsSet two_keywords_state = ∅).
Proof.
  apply keyword_set_wellformed, two_keywords_state_reachable.
Defined.

(** ** What a run prints *)


(** ** More on the line scanner *)



(** X9. Once the scanner has chosen the pattern of the continuation
    lines of a file, no later call changes it, nor the pattern of the
    right border. *)
Theorem profile_fixed_once_set fp : ∀ self c fp' self' second,
  ProcessLine.isSecondComment self = Some second →
  ProcessLine.call fp self = Ok (c, (fp', self')) →
  ProcessLine.isSecondComment self' = Some second
  ∧ ProcessLine.borderCommentRE self' = ProcessLine.borderCommentRE self.
Proof.
  induction fp as [|raw fp IH]; intros self c fp' self' second Hsec.
  - by intros [= _ _ <-].
  - cbn [ProcessLine.call]. case_decide as Hline.
    { by intros [= _ _ <-]. }
    unfold ProcessLine.getComment. cbn [ProcessLine.isSecondComment].
    rewrite Hsec.
    destruct (ProcessLine.commentText _ _ _) as [text|e]; [|done].
    cbn [mbind result_bind].
    repeat case_decide; try (by intros [= _ _ <-]).
    intros Hcall. by apply (IH _ _ _ _ second) in Hcall.
Qed.

Lemma profile_fixed_once_set_witness :
  ProcessLine.isSecondComment (hash_scanner 2)
  = Some (Bos ⋅ single_char_comment_mark_regex "#")%re
  ∧ ProcessLine.borderCommentRE (hash_scanner 2)
    = ProcessLine.borderCommentRE (hash_scanner 1).
Proof.
  apply (profile_fixed_once_set ["# KWords: a" : str; "// b" : str]
           (hash_scanner 1) (Comment.init 2 (Some ("KWords: a" : str)))
           ["// b" : str]).
  - reflexivity.
  - vm_compute. reflexivity.
Defined.

(** X10. The number a record carries is the number of lines read so
    far from the file: the counter of the scanner before the call
    plus the number of lines the call has consumed, and one more
    when the call has read past the last line. *)
Theorem record_line_number fp : ∀ self c fp' self',
  ProcessLine.call fp self = Ok (c, (fp', self')) →
  Comment.lineNo c = ProcessLine.lineNo self'
  ∧ ((∃ consumed, consumed ≠ [] ∧ fp = consumed ++ fp'
        ∧ ProcessLine.lineNo self'
          = ProcessLine.lineNo self + length consumed)
     ∨ (fp' = []
        ∧ ProcessLine.lineNo self' = ProcessLine.lineNo self + length fp + 1
        ∧ Comment.current c = Some [])).
Proof.
  induction fp as [|raw fp IH]; intros self c fp' self'.
  - intros [= <- <- <-]. split; [done|]. right. simpl.
    split_and!; [done|lia|done].
  - cbn [ProcessLine.call].
    assert (Hrec : ∀ a b,
      ProcessLine.call fp (ProcessLine.mk (S (ProcessLine.lineNo self)) a b)
      = Ok (c, (fp', self')) →
      Comment.lineNo c = ProcessLine.lineNo self'
      ∧ ((∃ consumed, consumed ≠ [] ∧ raw :: fp = consumed ++ fp'
            ∧ ProcessLine.lineNo self'
              = ProcessLine.lineNo self + length consumed)
         ∨ (fp' = []
            ∧ ProcessLine.lineNo self'
              = ProcessLine.lineNo self + length (raw :: fp) + 1
            ∧ Comment.current c = Some []))).
    { intros a b Hcall.
      apply IH in Hcall as [H1 [(consumed & Hne & -> & Hl)|(-> & Hl & Hc)]].
      - split; [done|]. left. exists (raw :: consumed).
        split_and!; [done|done|]. simpl in *. lia.
      - split; [done|]. right. split_and!; [done| |done]. simpl in *. lia. }
    assert (Hstop : ∀ t a b,
      Ok (ProcessLine.newComment
            (ProcessLine.mk (S (ProcessLine.lineNo self)) a b) t,
          (fp, ProcessLine.mk (S (ProcessLine.lineNo self)) a b))
      = Ok (c, (fp', self')) →
      Comment.lineNo c = ProcessLine.lineNo self'
      ∧ ((∃ consumed, consumed ≠ [] ∧ raw :: fp = consumed ++ fp'
            ∧ ProcessLine.lineNo self'
              = ProcessLine.lineNo self + length consumed)
         ∨ (fp' = []
            ∧ ProcessLine.lineNo self'
              = ProcessLine.lineNo self + length (raw :: fp) + 1
            ∧ Comment.current c = Some []))).
    { intros t a b [= <- <- <-]. split; [done|]. left. exists [raw].
      split_and!; [done|done|]. simpl. lia. }
    case_decide as Hline; [apply Hstop|].
    unfold ProcessLine.getComment, ProcessLine.getFirstComment.
    intros Hcall.
    repeat (first
      [ progress cbn [mbind result_bind] in Hcall
      | match type of Hcall with
        | context [match ?x with _ => _ end] => destruct x eqn:?
        end
      | match type of Hcall with
        | context [mbind _ ?m] =>
            lazymatch m with
            | context [mbind _ _] => fail
            | _ => destruct m eqn:?
            end
        end ]);
      try done;
      first [by eapply Hrec; exact Hcall | by eapply Hstop; exact Hcall].
Qed.

Lemma record_line_number_witness :
  Comment.lineNo (Comment.init 3 (Some ("KWords: a" : str)))
  = ProcessLine.lineNo (hash_scanner 3)
  ∧ ((∃ consumed, consumed ≠ []
        ∧ ["#" : str; "# KWords: a" : str; "# b" : str]
          = consumed ++ ["# b" : str]
        ∧ ProcessLine.lineNo (hash_scanner 3)
          = ProcessLine.lineNo (hash_scanner 1) + length consumed)
     ∨ (["# b" : str] = []
        ∧ ProcessLine.lineNo (hash_scanner 3)
          = ProcessLine.lineNo (hash_scanner 1)
            + length ["#" : str; "# KWords: a" : str; "# b" : str] + 1
        ∧ Comment.current (Comment.init 3 (Some ("KWords: a" : str)))
          = Some [])).
Proof.
  apply (record_line_number ["#" : str; "# KWords: a" : str; "# b" : str]
           (hash_scanner 1)).
  vm_compute. reflexivity.
Defined.

(** ** The opening marks and the patterns they determine *)

Lemma star_lit_replicate c (w : str) :
  Forall (λ x, cmatch (Lit c) x = true) w → w = replicate (length w) c.
Proof.
  induction 1 as [|x w Hx _ IH]; [done|].
  apply bool_decide_eq_true in Hx as ->. simpl. by rewrite <- IH.
Qed.

Lemma plus_lit_replicate c (w : str) :
  matches (Plus (Lit c)) w → ∃ n, w = replicate (S n) c.
Proof.
  intros (w1 & w2 & -> & (x & -> & ->%bool_decide_eq_true) & Hw2).
  exists (length w2). simpl. f_equal. by apply star_lit_replicate.
Qed.

(** X11. Whenever [is_comment] accepts a line, its group holds an
    opening mark of one of six kinds: a run of [#], a run of [;],
    or one of the two-character marks of C, C++, SQL and ML; and for
    each of them [define_comment_border_regex] and
    [secondary_comment_matcher] return a pattern (they neither raise
    nor return [None]). *)
Theorem comment_mark_families line mo :
  is_comment line = Some mo →
  ∃ mark border second,
    group1 mo = Some mark
    ∧ ((∃ n, mark = replicate (S n) "#"%char)
       ∨ mark = "/*" ∨ mark = "//" ∨ mark = "--" ∨ mark = paren_star
       ∨ (∃ n, mark = replicate (S n) ";"%char))
    ∧ define_comment_border_regex mark = Ok (Some border)
    ∧ secondary_comment_matcher mark = Ok (Some second).
Proof.
  intros (mark & Hg & Hm)%is_comment_group1.
  destruct (opening_mark_profile mark Hm) as (border & second & Hb & Hs).
  exists mark, border, second. split_and!; [done| |done|done].
  clear Hb Hs Hg. unfold opening_mark_re, paren_star in *.
  cbn [matches lit list_ascii_of_string] in Hm.
  destruct Hm as [[[[[H|H]|H]|H]|H]|H].
  - left. apply (plus_lit_replicate "#"%char). exact H.
  - destruct H as (? & ? & -> & (c & -> & ->%bool_decide_eq_true)
                   & (d & -> & ->%bool_decide_eq_true)). auto.
  - destruct H as (? & ? & -> & (c & -> & ->%bool_decide_eq_true)
                   & (d & -> & ->%bool_decide_eq_true)). auto.
  - destruct H as (? & ? & -> & (c & -> & ->%bool_decide_eq_true)
                   & (d & -> & ->%bool_decide_eq_true)). auto.
  - destruct H as (? & ? & -> & (c & -> & ->%bool_decide_eq_true)
                   & (d & -> & ->%bool_decide_eq_true)). auto 6.
  - do 5 right. apply (plus_lit_replicate ";"%char). exact H.
Qed.

Lemma comment_mark_families_witness :
  ∃ mark border second,
    group1 {| group := "  ## "; group1 := Some ("##" : str) |} = Some mark
    ∧ ((∃ n, mark = replicate (S n) "#"%char)
       ∨ mark = "/*" ∨ mark = "//" ∨ mark = "--" ∨ mark = paren_star
       ∨ (∃ n, mark = replicate (S n) ";"%char))
    ∧ define_comment_border_regex mark = Ok (Some border)
    ∧ secondary_comment_matcher mark = Ok (Some second).
Proof.
  apply (comment_mark_families "  ## Tutorial 1").
  vm_compute. reflexivity.
Defined.

Lemma lit_matches s : ∀ w, matches (lit s) w → w = s.
Proof.
  induction s as [|c s IH]; intros w; [done|].
  destruct s as [|d s'].
  - by intros (x & -> & ->%bool_decide_eq_true).
  - intros (w1 & w2 & -> & (x & -> & ->%bool_decide_eq_true) & Hw2).
    simpl. f_equal. by apply IH.
Qed.

(** White space followed by a character that is none: the white
    space is determined. *)
Lemma allspace_prefix_eq (a b x y : str) c d :
  allspace a → allspace b → Py.isspace c = false → Py.isspace d = false →
  a ++ c :: x = b ++ d :: y → a = b ∧ c :: x = d :: y.
Proof.
  intros Ha. revert b. induction Ha as [|e a He _ IH]; intros b Hb Hc Hd Heq.
  - destruct Hb as [|e b He _]; [done|].
    injection Heq as -> _. congruence.
  - destruct Hb as [|e' b He' Hb].
    + injection Heq as -> _. congruence.
    + injection Heq as -> Heq. destruct (IH b Hb Hc Hd Heq) as [-> ?]. done.
Qed.

Lemma replicate_shorter_neq (ch : ascii) : ∀ k n (rest z : str),
  k < n → head rest ≠ Some ch →
  replicate k ch ++ rest ≠ replicate n ch ++ z.
Proof.
  induction k as [|k IH]; intros n rest z Hk Hrest Heq.
  - destruct n as [|n]; [lia|]. destruct rest; simpl in *; congruence.
  - destruct n as [|n]; [lia|]. injection Heq as Heq.
    apply (IH n rest z); [lia|done|done].
Qed.

Lemma rmatch_shorter_run (ch : ascii) (n k : nat) (w rest : str) :
  Py.isspace ch = false → allspace w → 1 ≤ k ≤ n → head rest ≠ Some ch →
  rmatch (Bos ⋅ single_char_comment_mark_regex (replicate (S n) ch))%re
    (w ++ replicate k ch ++ rest) = None.
Proof.
  intros Hch Hw Hk Hrest.
  destruct (rmatch _ _) as [mo|] eqn:Hm; [exfalso|done].
  apply rmatch_sound in Hm as (s' & Heq & Hg).
  unfold single_char_comment_mark_regex in Hg. cbn [matches] in Hg.
  destruct Hg as (w0 & g1 & Hg & -> & wa & g2 & -> & Hwa & m & wb & ->
                  & Hmark & Hwb).
  apply lit_matches in Hmark as ->. rewrite Hg in Heq. clear Hg.
  destruct k as [|k]; [lia|].
  cbn [app replicate] in Heq. rewrite <- !(assoc_L (++)) in Heq.
  cbn [app] in Heq.
  apply allspace_prefix_eq in Heq as [_ [= Heq]]; [|done..].
  rewrite <- (assoc_L (++)) in Heq.
  by apply replicate_shorter_neq in Heq; [|lia|].
Qed.

Lemma secondary_single_char (ch : ascii) (mark : str) :
  ch = "#"%char ∨ ch = ";"%char →
  secondary_comment_matcher (ch :: mark)
  = Ok (Some (Bos ⋅ single_char_comment_mark_regex (ch :: mark))%re).
Proof.
  unfold secondary_comment_matcher. cbn [index0 mbind result_bind].
  intros [-> | ->].
  - by rewrite (bool_decide_true ("#"%char = "#"%char)).
  - rewrite (bool_decide_true (";"%char = ";"%char)) by done.
    by rewrite orb_true_r.
Qed.

(** X12. In a file whose first comment line opens with a run of
    [#] (or of [;]), a later line that opens with a shorter run of
    the same character is not taken as a comment line: the scanner
    returns the empty text for it, which ends the comment section. *)
Theorem shorter_mark_run_ends_comment (ch : ascii) (n k : nat)
    (w rest raw : str) (fp : list str) (self : ProcessLine.t) :
  ch = "#"%char ∨ ch = ";"%char →
  secondary_comment_matcher (replicate (S n) ch)
  = Ok (ProcessLine.isSecondComment self) →
  Py.rstrip raw = w ++ replicate k ch ++ rest →
  allspace w → 1 ≤ k ≤ n → head rest ≠ Some ch →
  ProcessLine.call (raw :: fp) self
  = Ok (Comment.init (S (ProcessLine.lineNo self)) (Some []),
        (fp, ProcessLine.mk (S (ProcessLine.lineNo self))
               (ProcessLine.isSecondComment self)
               (ProcessLine.borderCommentRE self))).
Proof.
  intros Hch Hsec Hraw Hw Hk Hrest.
  assert (Hsp : Py.isspace ch = false) by (by destruct Hch as [-> | ->]).
  assert (Hsec' : ProcessLine.isSecondComment self
                  = Some (Bos ⋅ single_char_comment_mark_regex
                                  (replicate (S n) ch))%re).
  { change (replicate (S n) ch) with (ch :: replicate n ch) in *.
    rewrite secondary_single_char in Hsec by done. congruence. }
  cbn [ProcessLine.call]. rewrite Hraw.
  rewrite decide_False by (destruct k; [lia|by destruct w]).
  unfold ProcessLine.getComment. cbn [ProcessLine.isSecondComment].
  rewrite Hsec', rmatch_shorter_run by done.
  cbn [ProcessLine.commentText mbind result_bind].
  rewrite decide_False by done. rewrite decide_False by (by intros []).
  done.
Qed.

Lemma shorter_mark_run_ends_comment_witness :
  ProcessLine.call [" # KWords: kw1, kw2" : str]
    (ProcessLine.mk 1
       (Some (Bos ⋅ single_char_comment_mark_regex "##")%re)
       (Some (single_char_comment_mark_regex "##" ⋅ Eos)%re))
  = Ok (Comment.init 2 (Some []),
        ([], ProcessLine.mk 2
               (Some (Bos ⋅ single_char_comment_mark_regex "##")%re)
               (Some (single_char_comment_mark_regex "##" ⋅ Eos)%re))).
Proof.
  apply (shorter_mark_run_ends_comment "#"%char 1 1 " " " KWords: kw1, kw2"
           " # KWords: kw1, kw2" []
           (ProcessLine.mk 1
              (Some (Bos ⋅ single_char_comment_mark_regex "##")%re)
              (Some (single_char_comment_mark_regex "##" ⋅ Eos)%re))).
  - by left.
  - reflexivity.
  - reflexivity.
  - by repeat constructor.
  - lia.
  - done.
Defined.

(** ** Heading lines and the stored heading *)

(** X13. No text is both a heading line and a keyword line: the two
    tests of the aggregator exclude each other, in either order. *)
Theorem heading_and_keyword_lines_disjoint (line : str) :
  read_heading_prefix line = None ∨ read_kwords_prefix line = None.
Proof.
  destruct (read_kwords_prefix line) as [q|] eqn:Hq; [|by right].
  left. by eapply kwords_not_heading.
Qed.

(** X14. A heading line is white space, the word [tutorial] in any
    case, white space again, and a rest.  Whatever the case of the
    word and the white space around it, the heading extracted from
    the line is [Tutorial], one space and the rest normalised. *)
Theorem extracted_heading_shape (line p : str) :
  read_heading_prefix line = Some p →
  ∃ w1 t w2 tail : str,
    p = w1 ++ t ++ w2 ∧ line = p ++ tail
    ∧ allspace w1 ∧ Py.lower t = "tutorial" ∧ allspace w2 ∧ w2 ≠ []
    ∧ ProcessComment.tutorialHeading p line
      = Ok ("Tutorial " ++ normalise_text tail).
Proof.
  intros Hp.
  destruct (tutorialHeading_shape _ _ Hp) as (tail & Hl & Hh & _).
  apply group_or_None_inv in Hp as (_ & _ & _ & Hm & _).
  apply heading_prefix_shape in Hm as (w1 & t & w2 & -> & H1 & Ht & H2 & Hne).
  by exists w1, t, w2, tail.
Qed.

Lemma extracted_heading_shape_witness :
  ∃ w1 t w2 tail : str,
    ("tUTORIAL   " : str) = w1 ++ t ++ w2
    ∧ ("tUTORIAL   1:  a" : str) = "tUTORIAL   " ++ tail
    ∧ allspace w1 ∧ Py.lower t = "tutorial" ∧ allspace w2 ∧ w2 ≠ []
    ∧ ProcessComment.tutorialHeading "tUTORIAL   " "tUTORIAL   1:  a"
      = Ok ("Tutorial " ++ normalise_text tail).
Proof.
  apply (extracted_heading_shape "tUTORIAL   1:  a" "tUTORIAL   ").
  vm_compute. reflexivity.
Defined.

Lemma normalise_text_heading (y : str) :
  normal y →
  Py.startswith (normalise_text ("Tutorial" ++ " " ++ y)) "Tutorial" = true
  ∧ ∃ r : str,
      ("Tutorial" ++ " " ++ y : str)
      = normalise_text ("Tutorial" ++ " " ++ y) ++ r.
Proof.
  intros Hy. destruct (decide (y = [])) as [->|Hne].
  - split; [by vm_compute|]. exists " ". by vm_compute.
  - assert (Hn : normal ("Tutorial" ++ " " ++ y)).
    { apply normal_word_space; [done|apply nospace_Tutorial|done|done]. }
    rewrite Hn. split; [done|]. exists []. by rewrite app_nil_r.
Qed.

Lemma heading_inv_init : heading_inv ProcessComment.init.
Proof. split_and!; [done|by vm_compute|by left]. Qed.

Lemma storeHeading_inv (y : str) pc :
  normal y →
  heading_inv (ProcessComment.storeHeading ("Tutorial" ++ " " ++ y) pc).
Proof.
  intros Hy. unfold heading_inv, ProcessComment.storeHeading.
  cbn [ProcessComment.heading ProcessComment.headingLC].
  split_and!; [done|apply normalise_text_normal|].
  right. by apply normalise_text_heading.
Qed.

Lemma call_preserves_heading_inv c pc pc' c' :
  heading_inv pc → ProcessComment.call c pc = Ok (pc', c') → heading_inv pc'.
Proof.
  intros Hinv. unfold ProcessComment.call.
  destruct (Comment.current c) as [line|]; [|done].
  destruct (read_heading_prefix line) as [p|] eqn:Hp.
  - destruct (tutorialHeading_shape _ _ Hp) as (tail & _ & Hh & _).
    rewrite Hh. cbn [mbind result_bind].
    unfold ProcessComment.updateHeading.
    repeat case_decide; rewrite ?addWarning_ok, ?addError_ok;
      cbn [mbind result_bind]; intros [= <- <-];
      first [exact Hinv
            |apply (storeHeading_inv (normalise_text tail)),
               normalise_text_normal].
  - destruct (read_kwords_prefix line) as [q|] eqn:Hq.
    + apply group_or_None_inv in Hq as (_ & tail & _ & _ & Ht).
      destruct (ProcessComment.keywordsAllowed pc) eqn:Hgate; cbn [negb].
      * unfold ProcessComment.tutorialKeywords. rewrite Ht.
        cbn [mbind result_bind]. intros [= <- <-]. exact Hinv.
      * rewrite addWarning_ok. cbn [mbind result_bind].
        intros [= <- <-]. exact Hinv.
    + intros [= <- <-]. exact Hinv.
Qed.

Lemma reachable_heading_inv pc : reachable pc → heading_inv pc.
Proof.
  revert pc. apply rtc_ind_r; [apply heading_inv_init|].
  intros pc1 pc2 _ (c & c' & Hstep) IH. by eapply call_preserves_heading_inv.
Qed.

(** X15. In every state the aggregator can reach, the lower-case
    copy of the heading is the lower case of the stored heading, the
    stored heading is normalised, and when it is not empty it starts
    with the word [Tutorial], capitalised, whatever the case of the
    word in the files. *)
Theorem stored_heading_invariant pc :
  reachable pc →
  ProcessComment.headingLC pc = Py.lower (ProcessComment.heading pc)
  ∧ normalise_text (ProcessComment.heading pc) = ProcessComment.heading pc
  ∧ (ProcessComment.heading pc = []
     ∨ ∃ rest : str, ProcessComment.heading pc = "Tutorial" ++ rest).
Proof.
  intros (HLC & Hn & Hs)%reachable_heading_inv. split_and!; [done|done|].
  destruct Hs as [Hs|Hs]; [by left|right].
  by apply startswith_prefix in Hs.
Qed.

Lemma stored_heading_invariant_witness :
  ProcessComment.headingLC two_keywords_state
  = Py.lower (ProcessComment.heading two_keywords_state)
  ∧ normalise_text (ProcessComment.heading two_keywords_state)
    = ProcessComment.heading two_keywords_state
  ∧ (ProcessComment.heading two_keywords_state = []
     ∨ ∃ rest : str,
         ProcessComment.heading two_keywords_state = "Tutorial" ++ rest).
Proof.
  apply stored_heading_invariant, two_keywords_state_reachable.
Defined.

(** ** Sequences of headings *)

Lemma ci_prefix_refl a : ci_prefix a a.
Proof. apply startswith_refl. Qed.

Lemma ci_prefix_trans a b c : ci_prefix a b → ci_prefix b c → ci_prefix a c.
Proof.
  unfold ci_prefix. rewrite !startswith_prefix.
  intros (r1 & ->) (r2 & ->). exists (r1 ++ r2). by rewrite (assoc_L (++)).
Qed.

Lemma ci_prefix_antisym a b :
  ci_prefix a b → ci_prefix b a → Py.lower a = Py.lower b.
Proof.
  intros Hab Hba. symmetry. apply ci_prefix_same_length; [done|].
  apply ci_prefix_length in Hab, Hba. lia.
Qed.

(** What the reconciliation step does once a heading is stored. *)
Lemma updateHeading_stored (h : str) c pc :
  normal h → ProcessComment.heading pc ≠ [] →
  ProcessComment.headingLC pc = Py.lower (ProcessComment.heading pc) →
  (ci_prefix (ProcessComment.heading pc) h
   ∧ ProcessComment.updateHeading h c pc = Ok (pc, Comment.setCurrent None c))
  ∨ (ci_prefix h (ProcessComment.heading pc)
     ∧ ¬ ci_prefix (ProcessComment.heading pc) h
     ∧ ProcessComment.updateHeading h c pc
       = Ok (ProcessComment.mk h (Py.lower h) (ProcessComment.keywordsSet pc)
               (ProcessComment.keywordsAllowed pc),
             Comment.mk (Comment.lineNo c) None (Comment.error c)
               ("will use newly found, shorter heading '" ++ h ++ "'")
               (Comment.heading c) (Comment.keywords c)))
  ∨ (¬ ci_prefix (ProcessComment.heading pc) h
     ∧ ¬ ci_prefix h (ProcessComment.heading pc)
     ∧ ProcessComment.updateHeading h c pc
       = Ok (pc,
             Comment.mk (Comment.lineNo c) (Comment.current c)
               ("heading '" ++ h ++ "' different from previous files' heading '"
                ++ ProcessComment.heading pc ++ "'" ++ ["010"%char])
               (Comment.warning c) (Comment.heading c) (Comment.keywords c))).
Proof.
  intros Hn Hne HLC. unfold ProcessComment.updateHeading.
  rewrite decide_False by done. rewrite HLC.
  destruct (decide (Py.lower (ProcessComment.heading pc) = Py.lower h))
    as [Heq|Hneq].
  { left. split; [|done]. unfold ci_prefix. rewrite Heq.
    apply startswith_refl. }
  destruct (decide (Py.find (Py.lower (ProcessComment.heading pc))
                      (Py.lower h) = 0%Z)) as [H1|H1].
  { right; left. apply find_zero in H1. split_and!; [exact H1| |].
    - intros H2. apply Hneq. by apply ci_prefix_antisym.
    - rewrite addWarning_ok. cbn [mbind result_bind].
      unfold ProcessComment.storeHeading. by rewrite Hn. }
  rewrite find_zero in H1.
  destruct (decide (Py.find (Py.lower h)
                      (Py.lower (ProcessComment.heading pc)) = 0%Z))
    as [H2|H2].
  { left. by apply find_zero in H2. }
  rewrite find_zero in H2.
  right; right. split_and!; [exact H2|exact H1|].
  by rewrite addError_ok.
Qed.

Lemma accept_stored hs : ∀ pc pc' seen,
  Forall (λ h, normal h ∧ h ≠ []) hs →
  ProcessComment.heading pc ≠ [] →
  ProcessComment.headingLC pc = Py.lower (ProcessComment.heading pc) →
  ProcessComment.heading pc ∈ seen →
  Forall (ci_prefix (ProcessComment.heading pc)) seen →
  accept hs pc = Some pc' →
  ProcessComment.heading pc' ∈ seen ++ hs
  ∧ Forall (ci_prefix (ProcessComment.heading pc')) (seen ++ hs).
Proof.
  induction hs as [|h hs IH]; intros pc pc' seen Hhs Hne HLC Hin Hall.
  - intros [= <-]. by rewrite app_nil_r.
  - apply Forall_cons_1 in Hhs as [[Hh Hh'] Hhs]. cbn [accept].
    replace (seen ++ h :: hs) with ((seen ++ [h]) ++ hs)
      by (by rewrite <- (assoc_L (++))).
    destruct (updateHeading_stored h (Comment.init 0 None) pc Hh Hne HLC)
      as [(Hp & ->)|[(Hp & Hnp & ->)|(_ & _ & ->)]].
    + rewrite decide_True by done. apply IH; [done|done|done| |].
      * apply elem_of_app. by left.
      * apply Forall_app. split; [done|]. by apply Forall_singleton.
    + rewrite decide_True by done.
      apply IH; cbn [ProcessComment.heading ProcessComment.headingLC];
        [done|done|done| |].
      * apply elem_of_app. right. by apply list_elem_of_singleton.
      * apply Forall_app. split; [|apply Forall_singleton, ci_prefix_refl].
        eapply Forall_impl; [exact Hall|]. intros s Hs.
        by eapply ci_prefix_trans.
    + rewrite decide_False; [done|]. cbn [Comment.error].
      by destruct h.
Qed.

(** X16. When the headings of a run are reconciled one after the
    other and no error is signalled, the heading that stays stored
    is one of them and is, case apart, a prefix of each of them. *)
Theorem accepted_headings_common_prefix (hs : list str) pc pc' :
  Forall heading_candidate hs → hs ≠ [] →
  ProcessComment.heading pc = [] →
  accept hs pc = Some pc' →
  ProcessComment.heading pc' ∈ hs
  ∧ Forall (ci_prefix (ProcessComment.heading pc')) hs.
Proof.
  intros Hhs Hne Hpc. destruct hs as [|h hs]; [done|].
  apply Forall_cons_1 in Hhs as [Hh Hhs].
  apply heading_candidate_normal in Hh as [Hh Hhne].
  cbn [accept]. rewrite reconciled_first by done.
  rewrite decide_True by done.
  apply (accept_stored hs _ pc' [h]);
    cbn [ProcessComment.heading ProcessComment.headingLC];
    [|done|done|by apply list_elem_of_singleton
     |apply Forall_singleton, ci_prefix_refl].
  eapply Forall_impl; [exact Hhs|].
  intros x Hx. by apply heading_candidate_normal in Hx.
Qed.

Lemma accepted_headings_common_prefix_witness :
  ProcessComment.heading
    (ProcessComment.mk "Tutorial 1: a" "tutorial 1: a" ∅ false)
  ∈ ["Tutorial 1: a b" : str; "Tutorial 1: a" : str; "Tutorial 1: a b" : str]
  ∧ Forall
      (ci_prefix
         (ProcessComment.heading
            (ProcessComment.mk "Tutorial 1: a" "tutorial 1: a" ∅ false)))
      ["Tutorial 1: a b" : str; "Tutorial 1: a" : str; "Tutorial 1: a b" : str].
Proof.
  apply (accepted_headings_common_prefix
           ["Tutorial 1: a b" : str; "Tutorial 1: a" : str;
            "Tutorial 1: a b" : str]
           ProcessComment.init).
  - repeat first [apply Forall_nil_2 | apply Forall_cons_2];
      first [apply candidate_1a | apply candidate_1ab].
  - done.
  - done.
  - vm_compute. reflexivity.
Defined.

(** X17. Whether a set of headings is accepted depends on the order
    in which they come: when [S] is, case apart, a prefix of both
    [H1] and [H2], and neither of these is a prefix of the other, the
    order [S], [H1], [H2] is accepted and leaves [S] stored, while the
    order [H1], [H2], [S] ends with an error. *)
Theorem acceptance_depends_on_order (S0 H1 H2 : str) pc :
  heading_candidate S0 → heading_candidate H1 → heading_candidate H2 →
  ProcessComment.heading pc = [] →
  ci_prefix S0 H1 → ci_prefix S0 H2 →
  ¬ ci_prefix H1 H2 → ¬ ci_prefix H2 H1 →
  (∃ pc', accept [S0; H1; H2] pc = Some pc'
          ∧ ProcessComment.heading pc' = S0)
  ∧ accept [H1; H2; S0] pc = None.
Proof.
  intros [HS HSne]%heading_candidate_normal
         [Hn1 Hne1]%heading_candidate_normal
         [Hn2 Hne2]%heading_candidate_normal Hpc HS1 HS2 H12 H21.
  split.
  - cbn [accept]. rewrite reconciled_first by done.
    rewrite decide_True by done.
    set (pc1 := ProcessComment.mk S0 _ _ _).
    destruct (updateHeading_stored H1 (Comment.init 0 None) pc1 Hn1 HSne
                eq_refl) as [(_ & ->)|[(Hp & Hnp & _)|(Hnp & _ & _)]];
      [|by destruct Hnp..].
    rewrite decide_True by done.
    destruct (updateHeading_stored H2 (Comment.init 0 None) pc1 Hn2 HSne
                eq_refl) as [(_ & ->)|[(Hp & Hnp & _)|(Hnp & _ & _)]];
      [|by destruct Hnp..].
    rewrite decide_True by done. by exists pc1.
  - cbn [accept]. rewrite reconciled_first by done.
    rewrite decide_True by done.
    set (pc1 := ProcessComment.mk H1 _ _ _).
    destruct (updateHeading_stored H2 (Comment.init 0 None) pc1 Hn2 Hne1
                eq_refl) as [(Hp & _)|[(Hp & _ & _)|(_ & _ & ->)]];
      [by destruct H12|by destruct H21|].
    rewrite decide_False; [done|]. cbn [Comment.error]. by destruct H2.
Qed.

Lemma candidate_1ac : heading_candidate "Tutorial 1: a c".
Proof.
  apply (heading_candidate_of_line "Tutorial 1: a c" "Tutorial ");
    by vm_compute.
Qed.

Lemma acceptance_depends_on_order_witness :
  (∃ pc', accept ["Tutorial 1: a" : str; "Tutorial 1: a b" : str;
                  "Tutorial 1: a c" : str] ProcessComment.init = Some pc'
          ∧ ProcessComment.heading pc' = "Tutorial 1: a")
  ∧ accept ["Tutorial 1: a b" : str; "Tutorial 1: a c" : str;
            "Tutorial 1: a" : str] ProcessComment.init = None.
Proof.
  apply (acceptance_depends_on_order "Tutorial 1: a" "Tutorial 1: a b"
           "Tutorial 1: a c" ProcessComment.init).
  - apply candidate_1a.
  - apply candidate_1ab.
  - apply candidate_1ac.
  - done.
  - by vm_compute.
  - by vm_compute.
  - by vm_compute.
  - by vm_compute.
Defined.

(** ** What the aggregator never undoes *)

Lemma lower_app (a b : str) : Py.lower (a ++ b) = Py.lower a ++ Py.lower b.
Proof. apply fmap_app. Qed.

Lemma call_monotone c pc pc' c' :
  heading_inv pc → ProcessComment.call c pc = Ok (pc', c') →
  ProcessComment.keywordsSet pc ⊆ ProcessComment.keywordsSet pc'
  ∧ (ProcessComment.heading pc ≠ [] →
     ProcessComment.heading pc' ≠ []
     ∧ ci_prefix (ProcessComment.heading pc') (ProcessComment.heading pc)).
Proof.
  intros (HLC & _ & _). unfold ProcessComment.call.
  destruct (Comment.current c) as [line|]; [|done].
  assert (Hsame : ∀ b,
    ProcessComment.keywordsSet pc
    ⊆ ProcessComment.keywordsSet (ProcessComment.setKeywordsAllowed b pc)
    ∧ (ProcessComment.heading pc ≠ [] →
       ProcessComment.heading (ProcessComment.setKeywordsAllowed b pc) ≠ []
       ∧ ci_prefix
           (ProcessComment.heading (ProcessComment.setKeywordsAllowed b pc))
           (ProcessComment.heading pc))).
  { intros b. split; [done|]. intros Hne. split; [done|apply ci_prefix_refl]. }
  destruct (read_heading_prefix line) as [p|] eqn:Hp.
  - destruct (tutorialHeading_shape _ _ Hp) as (tail & _ & Hh & _).
    pose proof (tutorialHeading_nonblank _ _ _ Hp Hh) as Hnb.
    destruct (normalise_text_heading (normalise_text tail)
                (normalise_text_normal tail)) as (_ & r' & Hr').
    rewrite Hh. clear Hh.
    generalize dependent ("Tutorial" ++ " " ++ normalise_text tail : str).
    intros h Hnb Hr'. cbn [mbind result_bind].
    unfold ProcessComment.updateHeading.
    cbn [ProcessComment.heading ProcessComment.headingLC
         ProcessComment.setKeywordsAllowed].
    destruct (decide (ProcessComment.heading pc = [])) as [Hnil|Hnil].
    { intros [= <- <-]. split; [done|]. by intros ?. }
    repeat case_decide; rewrite ?addWarning_ok, ?addError_ok;
      cbn [mbind result_bind]; intros [= <- <-];
      try exact (Hsame true).
    split; [done|]. intros _. split; [exact Hnb|].
    cbn [ProcessComment.storeHeading ProcessComment.heading].
    match goal with H : Py.find _ _ = 0%Z |- _ =>
      apply find_zero, startswith_prefix in H as (r & Hr) end.
    unfold ci_prefix. apply startswith_prefix.
    rewrite <- HLC, Hr. exists (Py.lower r' ++ r).
    by rewrite (assoc_L (++)), <- lower_app, <- Hr'.
  - destruct (read_kwords_prefix line) as [q|] eqn:Hq.
    + apply group_or_None_inv in Hq as (_ & tail & _ & _ & Ht).
      destruct (ProcessComment.keywordsAllowed pc) eqn:Hgate; cbn [negb].
      * unfold ProcessComment.tutorialKeywords. rewrite Ht.
        cbn [mbind result_bind]. intros Heq.
        assert (Heq' : ProcessComment.updateKeywords (normalise_text tail) c pc
                       = (pc', c')) by congruence.
        replace pc'
          with (ProcessComment.updateKeywords (normalise_text tail) c pc).1
          by (by rewrite Heq').
        rewrite updateKeywords_set. split; [apply union_subseteq_l|].
        intros Hne. split; [done|apply ci_prefix_refl].
      * rewrite addWarning_ok. cbn [mbind result_bind].
        intros [= <- <-]. split; [done|]. intros Hne.
        split; [done|apply ci_prefix_refl].
    + intros [= <- <-]. exact (Hsame false).
Qed.

Lemma steps_monotone pc pc' :
  rtc agg_step pc pc' → heading_inv pc →
  ProcessComment.keywordsSet pc ⊆ ProcessComment.keywordsSet pc'
  ∧ (ProcessComment.heading pc ≠ [] →
     ProcessComment.heading pc' ≠ []
     ∧ ci_prefix (ProcessComment.heading pc') (ProcessComment.heading pc)).
Proof.
  induction 1 as [pc|pc pc1 pc2 (c & c' & Hstep) _ IH]; intros Hinv.
  - split; [done|]. intros Hne. split; [done|apply ci_prefix_refl].
  - destruct (call_monotone _ _ _ _ Hinv Hstep) as [Hk Hh].
    destruct (IH (call_preserves_heading_inv _ _ _ _ Hinv Hstep)) as [Hk' Hh'].
    split; [by etrans|]. intros Hne.
    destruct (Hh Hne) as [Hne1 Hp1]. destruct (Hh' Hne1) as [Hne2 Hp2].
    split; [done|]. by eapply ci_prefix_trans.
Qed.

(** X18. The aggregator never takes a keyword back, and once a
    heading is stored it is never cleared: whatever records follow,
    the keyword set only grows, and the stored heading stays a
    heading that is, case apart, a prefix of the one stored before,
    so it never gets longer. *)
Theorem aggregator_monotone pc pc' :
  reachable pc → rtc agg_step pc pc' →
  ProcessComment.keywordsSet pc ⊆ ProcessComment.keywordsSet pc'
  ∧ (ProcessComment.heading pc ≠ [] →
     ProcessComment.heading pc' ≠ []
     ∧ ci_prefix (ProcessComment.heading pc') (ProcessComment.heading pc)
     ∧ length (ProcessComment.heading pc')
       ≤ length (ProcessComment.heading pc)).
Proof.
  intros Hr Hsteps.
  destruct (steps_monotone pc pc' Hsteps (reachable_heading_inv pc Hr))
    as [Hk Hh].
  split; [done|]. intros Hne. destruct (Hh Hne) as [Hne' Hp].
  split_and!; [done|done|by apply ci_prefix_length].
Qed.

Lemma one_heading_state_reachable : reachable one_heading_state.
Proof.
  apply rtc_once. exists (Comment.init 1 (Some ("Tutorial x" : str))).
  eexists. vm_compute. reflexivity.
Qed.

Lemma one_heading_state_step :
  rtc agg_step one_heading_state two_keywords_state.
Proof.
  apply rtc_once. exists (Comment.init 2 (Some ("KWords: a, b c" : str))).
  eexists. vm_compute. reflexivity.
Qed.

Lemma aggregator_monotone_witness :
  ProcessComment.keywordsSet one_heading_state
  ⊆ ProcessComment.keywordsSet two_keywords_state
  ∧ (ProcessComment.heading one_heading_state ≠ [] →
     ProcessComment.heading two_keywords_state ≠ []
     ∧ ci_prefix (ProcessComment.heading two_keywords_state)
         (ProcessComment.heading one_heading_state)
     ∧ length (ProcessComment.heading two_keywords_state)
       ≤ length (ProcessComment.heading one_heading_state)).
Proof.
  apply aggregator_monotone;
    [apply one_heading_state_reachable|apply one_heading_state_step].
Defined.

(** ** The command line *)

Lemma help_requested (args : list str) :
  ("-h" : str) ∈ args ∨ ("--help" : str) ∈ args →
  bool_decide (("-h" : str) ∈ args) || bool_decide (("--help" : str) ∈ args)
  = true.
Proof.
  intros [H|H]; apply orb_true_iff; [left|right]; by apply bool_decide_eq_true.
Qed.

Lemma help_not_requested (args : list str) :
  ("-h" : str) ∉ args → ("--help" : str) ∉ args →
  bool_decide (("-h" : str) ∈ args) || bool_decide (("--help" : str) ∈ args)
  = false.
Proof. intros H1 H2. by rewrite !bool_decide_false. Qed.

(** X19. The help option wins: when [-h] or [--help] stands
    anywhere on the command line, the program writes the syntax line
    and the manual on the error stream, prints nothing, and ends with
    status 0, whatever the other arguments are and whether or not the
    directory exists. *)
Theorem help_takes_precedence (e : env) :
  ("-h" : str) ∈ argv e ∨ ("--help" : str) ∈ argv e →
  ∃ argv0 rest,
    argv e = argv0 :: rest
    ∧ main e
      = (Exited 0, mkio [] (command_line_syntax argv0 ++ nl ++ manual_text)).
Proof.
  intros H. unfold main, get_args. rewrite help_requested by done.
  destruct (argv e) as [|argv0 rest].
  - destruct H as [H|H]; by apply elem_of_nil in H.
  - exists argv0, rest. split; [done|].
    cbn [display_manual item lookup list_lookup mbind result_bind].
    rewrite decide_True by done.
    unfold write_stderr. cbn [stdout stderr app].
    by rewrite <- (assoc_L (++)).
Qed.

Lemma help_takes_precedence_witness :
  ∃ argv0 rest,
    argv (example_env ["prog" : str; "nowhere" : str; "--help" : str]
            CalledProcessError) = argv0 :: rest
    ∧ main (example_env ["prog" : str; "nowhere" : str; "--help" : str]
              CalledProcessError)
      = (Exited 0, mkio [] (command_line_syntax argv0 ++ nl ++ manual_text)).
Proof.
  apply help_takes_precedence. right.
  do 2 apply list_elem_of_further. apply list_elem_of_here.
Defined.

(** X20. Without the help option, a command line with no directory,
    or with a directory that does not exist, makes the program end
    with status 1 and nothing printed; the message on the error
    stream starts with [Error:Error:], since [get_args] passes a
    message that already starts with [Error:], and it ends with the
    syntax line.  Arguments after the directory are not looked at. *)
Theorem invalid_command_line (e : env) :
  ("-h" : str) ∉ argv e → ("--help" : str) ∉ argv e →
  (∀ argv0, argv e = [argv0] →
     main e
     = (Exited 1,
        mkio [] ("Error:Error: invalid command line" ++ nl
                 ++ "Syntax: " ++ command_line_syntax argv0 ++ nl)))
  ∧ (∀ argv0 dir rest,
       argv e = argv0 :: dir :: rest → path_exists e dir = false →
       main e
       = (Exited 1,
          mkio [] ("Error:Error: non-existent directory: '" ++ dir ++ "'"
                   ++ nl ++ "Syntax: " ++ command_line_syntax argv0 ++ nl))).
Proof.
  intros H1 H2. split.
  - intros argv0 Hargv. unfold main, get_args.
    rewrite help_not_requested by done. rewrite Hargv.
    rewrite decide_True by (simpl; lia). done.
  - intros argv0 dir rest Hargv Hex. unfold main, get_args.
    rewrite help_not_requested by done. rewrite Hargv.
    rewrite decide_False by (simpl; lia).
    cbn [item lookup list_lookup mbind result_bind]. rewrite Hex.
    cbn [report_command_line_error item lookup list_lookup mbind result_bind].
    unfold write_stderr. cbn [stdout stderr app].
    do 2 f_equal. by rewrite <- !(assoc_L (++)).
Qed.

Lemma not_help_args (args : list str) :
  Forall (λ a, a ≠ ("-h" : str) ∧ a ≠ ("--help" : str)) args →
  (("-h" : str) ∉ args) ∧ (("--help" : str) ∉ args).
Proof.
  intros H. rewrite Forall_forall in H.
  split; intros Hin; apply H in Hin as [? ?]; done.
Qed.

Lemma invalid_command_line_witness :
  (∀ argv0,
     argv (example_env ["prog" : str; "nowhere" : str; "x" : str]
             (Output [])) = [argv0] →
     main (example_env ["prog" : str; "nowhere" : str; "x" : str] (Output []))
     = (Exited 1,
        mkio [] ("Error:Error: invalid command line" ++ nl
                 ++ "Syntax: " ++ command_line_syntax argv0 ++ nl)))
  ∧ (∀ argv0 dir rest,
       argv (example_env ["prog" : str; "nowhere" : str; "x" : str]
               (Output [])) = argv0 :: dir :: rest →
       path_exists (example_env ["prog" : str; "nowhere" : str; "x" : str]
                      (Output [])) dir = false →
       main (example_env ["prog" : str; "nowhere" : str; "x" : str]
               (Output []))
       = (Exited 1,
          mkio [] ("Error:Error: non-existent directory: '" ++ dir ++ "'"
                   ++ nl ++ "Syntax: " ++ command_line_syntax argv0 ++ nl))).
Proof.
  apply invalid_command_line;
    apply (not_help_args ["prog" : str; "nowhere" : str; "x" : str]);
    repeat first [apply Forall_nil_2 | apply Forall_cons_2]; by split.
Defined.

(** ** The enumeration of the files *)

Lemma match_len_newline pos c s :
  match_len (Chr (Lit "010")) pos (c :: s)
  = if bool_decide (c = "010"%char) then Some 1 else None.
Proof.
  unfold match_len. cbn [run cmatch]. case_bool_decide; [|done].
  f_equal. lia.
Qed.

Lemma split_newline_last (t : str) pos :
  "010"%char ∉ t → split_from (Chr (Lit "010")) pos 0 t = [t].
Proof.
  revert pos. induction t as [|c t IH]; intros pos Ht; [done|].
  apply not_elem_of_cons in Ht as [Hc Ht].
  cbn [split_from]. rewrite match_len_newline, bool_decide_false by done.
  by rewrite IH.
Qed.

Lemma split_newline_line (l rest : str) pos :
  "010"%char ∉ l →
  split_from (Chr (Lit "010")) pos 0 (l ++ nl ++ rest)
  = l :: split_from (Chr (Lit "010")) (pos + length l + 1) 0 rest.
Proof.
  revert pos. induction l as [|c l IH]; intros pos Hl.
  - cbn [app nl split_from]. rewrite match_len_newline, bool_decide_true by done.
    do 2 f_equal. simpl. lia.
  - apply not_elem_of_cons in Hl as [Hc Hl].
    cbn [app split_from]. rewrite match_len_newline, bool_decide_false by done.
    rewrite IH by done. do 2 f_equal. simpl. lia.
Qed.

Lemma split_newline_unlines (ls : list str) (t : str) : ∀ pos,
  Forall (λ l, "010"%char ∉ l) ls → "010"%char ∉ t →
  split_from (Chr (Lit "010")) pos 0 (unlines ls ++ t) = ls ++ [t].
Proof.
  induction ls as [|l ls IH]; intros pos Hls Ht.
  - by apply split_newline_last.
  - apply Forall_cons_1 in Hls as [Hl Hls].
    unfold unlines. cbn [fmap list_fmap concat].
    rewrite <- !(assoc_L (++)). rewrite split_newline_line by done.
    cbn [app]. f_equal. by apply IH.
Qed.

Lemma get_file_names_output (e : env) (dir : str) (o : io)
    (ls : list str) (t : str) :
  check_output e (all_text_files dir) = Output (unlines ls ++ t) →
  Forall (λ l, "010"%char ∉ l) ls → "010"%char ∉ t →
  get_file_names e dir o
  = (if decide (ls = [] ∧ t = []) then None
     else Some (filter kept_name ls ++ filter kept_name [t]),
     o).
Proof.
  intros Hout Hls Ht. unfold get_file_names. rewrite Hout.
  destruct (decide (ls = [] ∧ t = [])) as [[-> ->]|Hne].
  - by rewrite decide_True.
  - rewrite decide_False.
    + unfold Re.split. rewrite split_newline_unlines by done.
      by rewrite filter_app.
    + intros Hlen. apply Hne. apply nil_length_inv in Hlen.
      apply app_eq_nil in Hlen as [Hu ->]. split; [|done].
      destruct ls as [|l ls']; [done|].
      unfold unlines in Hu. cbn [fmap list_fmap concat] in Hu.
      apply app_eq_nil in Hu as [Hu _]. by apply app_eq_nil in Hu as [_ ?].
Qed.

(** X21. [get_file_names] returns the lines of the output of the
    shell command, in their order, without the empty names and the
    names that end with [~] or with [#]; it writes nothing.  It
    returns [None] only when the output is empty. *)
Theorem get_file_names_lines (e : env) (dir : str) (o : io)
    (ls : list str) (t : str) :
  check_output e (all_text_files dir) = Output (unlines ls ++ t) →
  Forall (λ l, "010"%char ∉ l) ls → "010"%char ∉ t →
  get_file_names e dir o
  = (if decide (ls = [] ∧ t = []) then None
     else Some (filter kept_name ls ++ filter kept_name [t]),
     o)
  ∧ Forall (λ fn, fn ∈ ls ++ [t] ∧ fn ≠ [] ∧ ("010"%char ∉ fn)
                  ∧ last fn ≠ Some "~"%char ∧ last fn ≠ Some "#"%char)
      (filter kept_name ls ++ filter kept_name [t]).
Proof.
  intros Hout Hls Ht. split; [by apply get_file_names_output|].
  rewrite <- filter_app. apply Forall_forall. intros fn Hin.
  apply list_elem_of_filter in Hin as [(Hne & H1 & H2) Hin].
  split_and!; [done|done| |done|done].
  apply elem_of_app in Hin as [Hin|Hin%list_elem_of_singleton].
  - rewrite Forall_forall in Hls. by apply Hls.
  - by subst fn.
Qed.

Lemma get_file_names_lines_witness :
  get_file_names
    (example_env ["prog" : str; "d" : str]
       (Output (unlines ["d/a.txt" : str; "d/a.txt~" : str; "d/#b#" : str;
                         "d/c" : str] ++ [])))
    "d" (mkio [] [])
  = (if decide (["d/a.txt" : str; "d/a.txt~" : str; "d/#b#" : str;
                 "d/c" : str] = [] ∧ ([] : str) = [])
     then None
     else Some (filter kept_name ["d/a.txt" : str; "d/a.txt~" : str;
                                  "d/#b#" : str; "d/c" : str]
                ++ filter kept_name [[]]),
     mkio [] [])
  ∧ Forall (λ fn, fn ∈ ["d/a.txt" : str; "d/a.txt~" : str; "d/#b#" : str;
                        "d/c" : str] ++ [[]]
                  ∧ fn ≠ [] ∧ ("010"%char ∉ fn)
                  ∧ last fn ≠ Some "~"%char ∧ last fn ≠ Some "#"%char)
      (filter kept_name ["d/a.txt" : str; "d/a.txt~" : str; "d/#b#" : str;
                         "d/c" : str]
       ++ filter kept_name [[]]).
Proof.
  apply get_file_names_lines.
  - reflexivity.
  - repeat first [apply Forall_nil_2 | apply Forall_cons_2];
      intros H; repeat (apply elem_of_cons in H as [H|H]; [done|]);
      by apply elem_of_nil in H.
  - apply not_elem_of_nil.
Defined.

(** ** The whole program *)

Lemma io_app_empty o : io_app (mkio [] []) o = o.
Proof. by destruct o. Qed.

Lemma main_browses e argv0 dir rest :
  browses e argv0 dir rest →
  main e
  = match get_file_names e dir (mkio [] []) with
    | (Some fileNames, o) =>
        let '(st, o') :=
          process ((λ fn, (fn, read_lines e fn)) <$> fileNames) in
        (st, io_app o o')
    | (None, o) => (Exited 0, o)
    end.
Proof.
  intros (H1 & H2 & Hargv & Hex & Hne). unfold main, get_args.
  rewrite help_not_requested by done. rewrite Hargv.
  rewrite decide_False by (simpl; lia).
  cbn [item lookup list_lookup mbind result_bind]. rewrite Hex.
  by rewrite decide_False.
Qed.

(** X22. When the enumeration of the files gives nothing, the
    program ends with status 0 and prints nothing: so it does when
    the shell command has no output, and also when the command
    fails, after the message of the failure on the error stream. *)
Theorem empty_enumeration_exits_0 (e : env) (argv0 dir : str)
    (rest : list str) :
  browses e argv0 dir rest →
  (check_output e (all_text_files dir) = Output []
   → main e = (Exited 0, mkio [] []))
  ∧ (check_output e (all_text_files dir) = CalledProcessError
     → main e
       = (Exited 0,
          mkio [] ("Failed to execute: " ++ all_text_files dir ++ nl)))
  ∧ (∀ exc_type,
       check_output e (all_text_files dir) = OtherError exc_type
       → main e = (Exited 0, mkio [] ("Error: " ++ exc_type ++ nl))).
Proof.
  intros Hb. rewrite (main_browses _ _ _ _ Hb). unfold get_file_names.
  split_and!.
  - by intros ->.
  - by intros ->.
  - by intros exc_type ->.
Qed.

Lemma example_env_browses r :
  browses (example_env ["prog" : str; "d" : str] r) "prog" "d" [].
Proof.
  split_and!; [| |done|done|done];
    intros H; repeat (apply elem_of_cons in H as [H|H]; [done|]);
    by apply elem_of_nil in H.
Qed.

Lemma empty_enumeration_exits_0_witness :
  (check_output (example_env ["prog" : str; "d" : str] CalledProcessError)
     (all_text_files "d") = Output []
   → main (example_env ["prog" : str; "d" : str] CalledProcessError)
     = (Exited 0, mkio [] []))
  ∧ (check_output (example_env ["prog" : str; "d" : str] CalledProcessError)
       (all_text_files "d") = CalledProcessError
     → main (example_env ["prog" : str; "d" : str] CalledProcessError)
       = (Exited 0,
          mkio [] ("Failed to execute: " ++ all_text_files "d" ++ nl)))
  ∧ (∀ exc_type,
       check_output (example_env ["prog" : str; "d" : str] CalledProcessError)
         (all_text_files "d") = OtherError exc_type
       → main (example_env ["prog" : str; "d" : str] CalledProcessError)
         = (Exited 0, mkio [] ("Error: " ++ exc_type ++ nl))).
Proof.
  apply (empty_enumeration_exits_0 _ "prog" "d" []), example_env_browses.
Defined.

(** X23. With a directory that exists and a shell command whose
    output is not empty, the status and the streams of the program
    are those of [process] run on the names of the output that are
    kept, each with the lines of its file, in the order of the
    output. *)
Theorem main_runs_process (e : env) (argv0 dir : str) (rest ls : list str)
    (t : str) :
  browses e argv0 dir rest →
  check_output e (all_text_files dir) = Output (unlines ls ++ t) →
  Forall (λ l, "010"%char ∉ l) ls → "010"%char ∉ t →
  ¬ (ls = [] ∧ t = []) →
  main e
  = process ((λ fn, (fn, read_lines e fn))
             <$> (filter kept_name ls ++ filter kept_name [t])).
Proof.
  intros Hb Hout Hls Ht Hne. rewrite (main_browses _ _ _ _ Hb).
  rewrite (get_file_names_output e dir (mkio [] []) ls t Hout Hls Ht).
  rewrite decide_False by done.
  destruct (process _) as [st o']. by rewrite io_app_empty.
Qed.

Lemma no_newline_names :
  Forall (λ l : str, "010"%char ∉ l) ["d/a.txt" : str; "d/a.txt~" : str].
Proof.
  repeat first [apply Forall_nil_2 | apply Forall_cons_2];
    intros H; repeat (apply elem_of_cons in H as [H|H]; [done|]);
    by apply elem_of_nil in H.
Qed.

Lemma main_runs_process_witness :
  main (example_env ["prog" : str; "d" : str]
          (Output (unlines ["d/a.txt" : str; "d/a.txt~" : str] ++ [])))
  = process ((λ fn, (fn, read_lines
                           (example_env ["prog" : str; "d" : str]
                              (Output (unlines ["d/a.txt" : str;
                                                "d/a.txt~" : str] ++ [])))
                           fn))
             <$> (filter kept_name ["d/a.txt" : str; "d/a.txt~" : str]
                  ++ filter kept_name [[]])).
Proof.
  apply (main_runs_process _ "prog" "d" []).
  - apply example_env_browses.
  - reflexivity.
  - apply no_newline_names.
  - apply not_elem_of_nil.
  - by intros [? _].
Defined.

Lemma filter_kept_none (ls : list str) :
  Forall (λ l, l = [] ∨ last l = Some "~"%char ∨ last l = Some "#"%char) ls →
  filter kept_name ls = [].
Proof.
  induction 1 as [|l ls Hl _ IH]; [done|].
  rewrite filter_cons_False; [done|].
  intros (H1 & H2 & H3). by destruct Hl as [?|[?|?]].
Qed.

(** X24. When the shell command lists nothing but names that are
    not kept (backup files, auto-saved files), the program does not
    end with status 0 as it does for an empty output: [process] is
    run on no file, and the program ends with status 1 and the
    message of the empty list. *)
Theorem only_backup_files_exit_1 (e : env) (argv0 dir : str)
    (rest ls : list str) :
  browses e argv0 dir rest →
  check_output e (all_text_files dir) = Output (unlines ls) →
  ls ≠ [] →
  Forall (λ l, "010"%char ∉ l) ls →
  Forall (λ l, l = [] ∨ last l = Some "~"%char ∨ last l = Some "#"%char) ls →
  main e
  = (Exited 1,
     mkio [] ("AssertionError: input file names list empty." ++ nl)).
Proof.
  intros Hb Hout Hne Hls Hback. rewrite (main_browses _ _ _ _ Hb).
  rewrite (get_file_names_output e dir (mkio [] []) ls []);
    [|by rewrite app_nil_r|done|apply not_elem_of_nil].
  rewrite decide_False by (by intros [? _]).
  by rewrite (filter_kept_none ls Hback).
Qed.

Lemma only_backup_files_exit_1_witness :
  main (example_env ["prog" : str; "d" : str]
          (Output (unlines ["d/a.txt~" : str; "d/#b#" : str])))
  = (Exited 1,
     mkio [] ("AssertionError: input file names list empty." ++ nl)).
Proof.
  apply (only_backup_files_exit_1 _ "prog" "d" []
           ["d/a.txt~" : str; "d/#b#" : str]).
  - apply example_env_browses.
  - reflexivity.
  - done.
  - repeat first [apply Forall_nil_2 | apply Forall_cons_2];
      intros H; repeat (apply elem_of_cons in H as [H|H]; [done|]);
      by apply elem_of_nil in H.
  - repeat first [apply Forall_nil_2 | apply Forall_cons_2]; auto.
Defined.

(** ** What is read of a file *)

(** How [__getComment] ends: with a further call of the scanner,
    with a record and the lines as they are, or with an exception;
    which of the three, and with what, does not depend on the lines
    that follow. *)
Lemma getComment_cases self line :
  (∃ self', ∀ call fp,
     ProcessLine.getComment call fp self line = call self')
  ∨ (∃ c self', ∀ call fp,
       ProcessLine.getComment call fp self line = Ok (c, (fp, self')))
  ∨ (∃ e, ∀ call fp, ProcessLine.getComment call fp self line = Raise e).
Proof.
  unfold ProcessLine.getComment, ProcessLine.getFirstComment.
  destruct (ProcessLine.isSecondComment self) as [second|].
  - destruct (ProcessLine.commentText self line (rmatch second line))
      as [text|e]; cbn [mbind result_bind]; [|by right; right; exists e].
    repeat case_decide; eauto 6.
  - destruct (is_comment line) as [mo|]; [|eauto 6].
    case_decide; [eauto|].
    destruct (group1 mo) as [mark|]; [|right; right; by eexists].
    destruct (define_comment_border_regex mark) as [border|e];
      cbn [mbind result_bind]; [|right; right; by exists e].
    destruct (ProcessLine.commentText _ line (Some mo)) as [text|e];
      cbn [mbind result_bind]; [|right; right; by exists e].
    case_decide; [eauto|].
    destruct (secondary_comment_matcher mark) as [second|e];
      cbn [mbind result_bind]; [eauto 6|right; right; by exists e].
Qed.

(** One call of the scanner on a file and on the same file cut
    before a blank line: the two calls go the same way, until the
    blank line or the end is met. *)
Lemma call_cut pre (l : str) (rest : list str) :
  Py.rstrip l = [] → ∀ self,
  (∃ c fp' self',
     ProcessLine.call (pre ++ l :: rest) self
     = Ok (c, (fp' ++ l :: rest, self'))
     ∧ ProcessLine.call pre self = Ok (c, (fp', self'))
     ∧ length fp' < length pre)
  ∨ (∃ self',
       ProcessLine.call (pre ++ l :: rest) self
       = Ok (Comment.init (ProcessLine.lineNo self') (Some []), (rest, self'))
       ∧ ProcessLine.call pre self
         = Ok (Comment.init (ProcessLine.lineNo self') (Some []), ([], self')))
  ∨ (∃ e, ProcessLine.call (pre ++ l :: rest) self = Raise e
          ∧ ProcessLine.call pre self = Raise e).
Proof.
  intros Hl. induction pre as [|raw pre IH]; intros self.
  - right; left. cbn [app ProcessLine.call]. rewrite decide_True by done.
    eexists. split; reflexivity.
  - cbn [app ProcessLine.call].
    set (self1 := ProcessLine.mk _ _ _).
    case_decide as Hraw.
    { left. exists (ProcessLine.newComment self1 (Some [])), pre, self1.
      split_and!; [done|done|simpl; lia]. }
    destruct (getComment_cases self1 (Py.rstrip raw))
      as [(self' & Hg)|[(c & self' & Hg)|(e & Hg)]]; rewrite !Hg.
    + destruct (IH self')
        as [(c & fp' & s' & -> & -> & Hlen)|[(s' & -> & ->)|(e & -> & ->)]].
      * left. exists c, fp', s'. split_and!; [done|done|simpl; lia].
      * right; left. by exists s'.
      * right; right. by exists e.
    + left. exists c, pre, self'. split_and!; [done|done|simpl; lia].
    + right; right. by exists e.
Qed.

Lemma empty_text_done n pc :
  assess_processing_result (closing pc (Comment.init n (Some [])))
  = (DONE, PComment (closing pc (Comment.init n (Some [])))).
Proof. done. Qed.

Lemma scan_file_cut (l : str) (rest : list str) fn :
  Py.rstrip l = [] → ∀ n pre fuel1 fuel2 pc self o,
  length pre ≤ n → length pre < fuel1 → length pre < fuel2 →
  scan_file fuel1 fn pc (pre ++ l :: rest) self o
  = scan_file fuel2 fn pc pre self o.
Proof.
  intros Hl. induction n as [|n IH];
    intros pre fuel1 fuel2 pc self o Hn H1 H2;
    (destruct fuel1 as [|f1]; [lia|]); (destruct fuel2 as [|f2]; [lia|]);
    cbn [scan_file];
    destruct (call_cut pre l rest Hl self)
      as [(c & fp' & s' & -> & -> & Hlen)|[(s' & -> & ->)|(e & -> & ->)]];
    try (rewrite empty_text_closes, empty_text_done); try done; try lia.
  destruct (ProcessComment.call c pc) as [[pc' c']|e]; [|done].
  destruct (assess_processing_result c') as [[] []]; try done;
    apply IH; lia.
Qed.

Lemma scan_files_cut (l : str) (rest pre : list str) fn files2 :
  Py.rstrip l = [] → ∀ files1 pc result o,
  scan_files (files1 ++ (fn, pre ++ l :: rest) :: files2) pc result o
  = scan_files (files1 ++ (fn, pre) :: files2) pc result o.
Proof.
  intros Hl. induction files1 as [|[fn1 lines1] files1 IH];
    intros pc result o.
  - cbn [app scan_files].
    rewrite (scan_file_cut l rest fn Hl (length pre) pre
               (S (length (pre ++ l :: rest))) (S (length pre)));
      [done|done| |lia].
    rewrite length_app. simpl. lia.
  - cbn [app scan_files]. destruct (scan_file _ _ _ _ _ _); [apply IH|done].
Qed.

(** X25. A file is read up to its first blank line only: what
    follows a blank line (a line of white space) can be changed or
    removed, the blank line with it, and the run of the program stays
    the same, status and streams. *)
Theorem lines_after_blank_line_unread (files1 files2 : list file)
    (fn l : str) (pre rest : list str) :
  Py.rstrip l = [] →
  process (files1 ++ (fn, pre ++ l :: rest) :: files2)
  = process (files1 ++ (fn, pre) :: files2).
Proof.
  intros Hl. unfold process. by rewrite (scan_files_cut l rest pre fn files2).
Qed.

Lemma lines_after_blank_line_unread_witness :
  process ([("f1" : str, file1)]
           ++ ("f2" : str,
               ["# Tutorial #1: summary tut.1" : str; "# KWords: kw5" : str]
               ++ ("  " : str)
               :: ["# KWords: kw6" : str; "# Tutorial 2" : str])
           :: [("f3" : str, file2)])
  = process ([("f1" : str, file1)]
             ++ ("f2" : str,
                 ["# Tutorial #1: summary tut.1" : str;
                  "# KWords: kw5" : str])
             :: [("f3" : str, file2)]).
Proof.
  apply lines_after_blank_line_unread. reflexivity.
Defined.

(** X26. Between two files the gate of the keywords is shut and
    the last record is the snapshot of the aggregator: whenever the
    loop over the files comes to its end, the state reached is one
    the aggregator can reach, keywords are not allowed in it, and
    (unless there was no file) [result] holds the stored heading and
    the rendering of the keyword set. *)
Theorem state_between_files (files : list file) pc result o :
  scan_files files ProcessComment.init None (mkio [] []) = inl (pc, result, o) →
  reachable pc
  ∧ ProcessComment.keywordsAllowed pc = false
  ∧ stdout o = []
  ∧ (files = [] ∧ result = None
     ∨ ∃ r, result = Some r
         ∧ Comment.heading r = ProcessComment.heading pc
         ∧ Comment.keywords r = ProcessComment.keywordsToString pc).
Proof.
  intros Hrun.
  destruct (scan_files_spec files ProcessComment.init None (mkio [] [])
              snapshot_of_init eq_refl)
    as [(pc1 & result1 & o1 & Heq & Hr & Hsnap & Hgate & Hnone & Hout)
       |(o1 & Heq & _)];
    rewrite Heq in Hrun; [|done].
  injection Hrun as -> -> ->. split_and!; [done|done|done|].
  destruct result as [r|].
  - right. exists r. by destruct (Hsnap r eq_refl).
  - left. by destruct (Hnone eq_refl).
Qed.

Lemma state_between_files_witness :
  reachable (ProcessComment.mk "Tutorial x" "tutorial x" (∅ ∪ {["a" : str]})
               false)
  ∧ ProcessComment.keywordsAllowed
      (ProcessComment.mk "Tutorial x" "tutorial x" (∅ ∪ {["a" : str]}) false)
    = false
  ∧ stdout (mkio [] []) = []
  ∧ ([("f" : str, ["# Tutorial x" : str; "# KWords: a" : str])] = []
     ∧ Some (Comment.mk 3 (Some []) [] [] "Tutorial x" "a") = None
     ∨ ∃ r, Some (Comment.mk 3 (Some []) [] [] "Tutorial x" "a") = Some r
         ∧ Comment.heading r
           = ProcessComment.heading
               (ProcessComment.mk "Tutorial x" "tutorial x"
                  (∅ ∪ {["a" : str]}) false)
         ∧ Comment.keywords r
           = ProcessComment.keywordsToString
               (ProcessComment.mk "Tutorial x" "tutorial x"
                  (∅ ∪ {["a" : str]}) false)).
Proof.
  apply (state_between_files
           [("f" : str, ["# Tutorial x" : str; "# KWords: a" : str])]).
  vm_compute. reflexivity.
Defined.

(** ** The text of a comment line *)

(** A greedy run takes all of [w] when what follows [w] does not
    belong to the class and the continuation succeeds there. *)
Lemma star_run {A} cl (k : nat → str → option A) (w s : str) : ∀ pos,
  Forall (λ c, cmatch cl c = true) w →
  match s with c :: _ => cmatch cl c = false | [] => True end →
  is_Some (k (pos + length w) s) →
  star cl k pos (w ++ s) = k (pos + length w) s.
Proof.
  intros pos Hw. revert pos.
  induction Hw as [|c w Hc _ IH]; intros pos Hs Hk.
  - cbn [app length] in *. rewrite Nat.add_0_r in *.
    destruct s as [|c s]; [done|]. cbn [star]. by rewrite Hs.
  - cbn [app star length] in *. rewrite Hc.
    replace (pos + S (length w)) with (S pos + length w) in * by lia.
    rewrite IH by done. by destruct Hk as [x ->].
Qed.

Lemma run_alt_left {A} r1 r2 pos s cap (k : @cont A) x :
  run r1 pos s cap k = Some x → run (Alt r1 r2) pos s cap k = Some x.
Proof. intros H. cbn [run]. by rewrite H. Qed.

Lemma head_not_space_not_hash (w2 body : str) :
  allspace w2 → body ≠ [] → trimmed body → "#"%char ∉ body →
  match w2 ++ body with
  | c :: _ => cmatch (Lit "#") c = false
  | [] => True
  end
  ∧ match body with c :: _ => cmatch Space c = false | [] => True end.
Proof.
  intros Hw2 Hne [Ht _] Hb. destruct body as [|b body]; [done|].
  split; [|by apply (Ht b body)].
  destruct Hw2 as [|c w2 Hc _]; cbn [app cmatch].
  - apply bool_decide_eq_false. intros ->. apply Hb. apply list_elem_of_here.
  - apply bool_decide_eq_false. by intros ->.
Qed.

Lemma star_run_some {A} cl (k : nat → str → option A) (w s : str) pos x :
  Forall (λ c, cmatch cl c = true) w →
  match s with c :: _ => cmatch cl c = false | [] => True end →
  k (pos + length w) s = Some x →
  star cl k pos (w ++ s) = Some x.
Proof. intros Hw Hs Hk. rewrite star_run; [done|done|done|by rewrite Hk]. Qed.

(** What [is_comment] finds in a line that opens with one [#]. *)
Lemma is_comment_hash (w w2 body : str) :
  allspace w → allspace w2 → body ≠ [] → trimmed body → "#"%char ∉ body →
  is_comment (w ++ "#"%char :: w2 ++ body)
  = Some {| group := w ++ "#"%char :: w2; group1 := Some ("#" : str) |}.
Proof.
  intros Hw Hw2 Hne Ht Hb.
  destruct (head_not_space_not_hash w2 body Hw2 Hne Ht Hb) as [Hh1 Hh2].
  unfold is_comment, rmatch, is_comment_re. cbn [run].
  rewrite decide_True by done.
  apply star_run_some; [done|done|].
  unfold opening_mark_re. do 5 apply run_alt_left.
  unfold Plus. cbn [run cmatch]. rewrite bool_decide_true by done.
  apply (star_run_some (Lit "#") _ [] (w2 ++ body)); [done|done|].
  apply star_run_some; [done|done|].
  f_equal. f_equal.
  - replace (w ++ "#"%char :: w2 ++ body)
      with ((w ++ "#"%char :: w2) ++ body)
      by (by rewrite <- (assoc_L (++))).
    rewrite take_app_length'; [done|].
    rewrite length_app. simpl. lia.
  - cbn [fmap option_fmap option_map]. f_equal.
    replace (S (0 + length w) + length ([] : str))
      with (length w + length ("#" : str)) by (simpl; lia).
    apply (slice_app w "#" (w2 ++ body)).
Qed.

(** What the pattern of the continuation lines finds in it. *)
Lemma rmatch_second_hash (w w2 body : str) :
  allspace w → allspace w2 → body ≠ [] → trimmed body → "#"%char ∉ body →
  rmatch (Bos ⋅ single_char_comment_mark_regex "#")%re
    (w ++ "#"%char :: w2 ++ body)
  = Some {| group := w ++ "#"%char :: w2; group1 := None |}.
Proof.
  intros Hw Hw2 Hne Ht Hb.
  destruct (head_not_space_not_hash w2 body Hw2 Hne Ht Hb) as [Hh1 Hh2].
  unfold rmatch, single_char_comment_mark_regex.
  cbn [run lit list_ascii_of_string].
  rewrite decide_True by done.
  apply star_run_some; [done|done|].
  cbn [cmatch]. rewrite bool_decide_true by done.
  apply star_run_some; [done|done|].
  f_equal. f_equal.
  replace (w ++ "#"%char :: w2 ++ body)
    with ((w ++ "#"%char :: w2) ++ body)
    by (by rewrite <- (assoc_L (++))).
  rewrite take_app_length'; [done|].
  rewrite length_app. simpl. lia.
Qed.

(** A substitution changes nothing where the pattern matches
    nowhere. *)
Lemma sub_from_nomatch r repl (s : str) :
  (∀ pos s2 n, s2 `suffix_of` s → match_len r pos s2 ≠ Some (S n)) →
  ∀ pos, sub_from r repl pos 0 s = s.
Proof.
  induction s as [|c s IH]; intros H pos; [done|].
  cbn [sub_from].
  assert (IH' : sub_from r repl (S pos) 0 s = s).
  { apply IH. intros pos' s2 n Hs. apply H. by apply suffix_cons_r. }
  destruct (match_len r pos (c :: s)) as [[|n]|] eqn:Hm;
    [by rewrite IH'| |by rewrite IH'].
  by apply H in Hm.
Qed.

(** The border pattern of the [#] family matches only where a [#]
    stands. *)
Lemma border_hash_nomatch (body : str) :
  "#"%char ∉ body →
  Re.sub (single_char_comment_mark_regex "#" ⋅ Eos)%re "" body = body.
Proof.
  intros Hb. apply sub_from_nomatch. intros pos s2 n [k Hk] Hm.
  unfold match_len in Hm.
  apply run_sound in Hm as (w & s' & cap' & -> & Hw & _).
  unfold single_char_comment_mark_regex in Hw.
  cbn [matches lit list_ascii_of_string] in Hw.
  destruct Hw as (wx & we & -> & (w1 & w23 & -> & _ & m & w3 & -> & Hm & _)
                  & _).
  destruct Hm as (c & -> & ->%bool_decide_eq_true).
  apply Hb. rewrite Hk. rewrite !elem_of_app.
  right. left. left. right. left. apply list_elem_of_here.
Qed.

Lemma rstrip_trimmed (s wt : str) :
  s ≠ [] → (∀ s' c, s = s' ++ [c] → Py.isspace c = false) → allspace wt →
  Py.rstrip (s ++ wt) = s.
Proof.
  intros Hne Hlast Hwt. rewrite rstrip_allspace by done.
  destruct (List.exists_last Hne) as (s' & c & ->).
  apply rstrip_snoc_nospace. by eapply Hlast.
Qed.

Lemma rstrip_hash_line (w w2 body wt : str) :
  allspace wt → trimmed body → body ≠ [] →
  Py.rstrip (w ++ "#"%char :: w2 ++ body ++ wt) = w ++ "#"%char :: w2 ++ body.
Proof.
  intros Hwt Ht Hne.
  replace (w ++ "#"%char :: w2 ++ body ++ wt)
    with ((w ++ "#"%char :: w2 ++ body) ++ wt)
    by (by rewrite <- (assoc_L (++)); cbn [app]; rewrite <- (assoc_L (++))).
  apply rstrip_trimmed; [by destruct w| |done].
  intros s' c Heq. destruct Ht as [_ Ht].
  destruct (List.exists_last Hne) as (b' & d & ->).
  replace (w ++ "#"%char :: w2 ++ b' ++ [d])
    with ((w ++ "#"%char :: w2 ++ b') ++ [d]) in Heq
    by (by rewrite <- (assoc_L (++)); cbn [app]; rewrite <- (assoc_L (++))).
  apply app_inj_tail in Heq as [_ <-]. by apply (Ht b').
Qed.

Lemma tail_after_hash_line (w w2 body : str) :
  tail_after (w ++ "#"%char :: w2 ++ body) (w ++ "#"%char :: w2) = Ok body.
Proof.
  replace (w ++ "#"%char :: w2 ++ body)
    with ((w ++ "#"%char :: w2) ++ body)
    by (by rewrite <- (assoc_L (++))).
  apply tail_after_prefix.
Qed.

(** The first comment line of a file. *)
Lemma call_first_hash_line (w w2 body wt : str) (fp : list str) n b :
  allspace w → allspace w2 → allspace wt →
  trimmed body → body ≠ [] → "#"%char ∉ body →
  take 3 (w ++ "#"%char :: w2 ++ body) ≠ "#!/" →
  ProcessLine.call ((w ++ "#"%char :: w2 ++ body ++ wt) :: fp)
    (ProcessLine.mk n None b)
  = Ok (Comment.init (S n) (Some body), (fp, hash_scanner (S n))).
Proof.
  intros Hw Hw2 Hwt Ht Hne Hb Hsh.
  cbn [ProcessLine.call]. rewrite rstrip_hash_line by done.
  rewrite decide_False by (by destruct w).
  unfold ProcessLine.getComment. cbn [ProcessLine.isSecondComment].
  unfold ProcessLine.getFirstComment.
  rewrite is_comment_hash by done. rewrite decide_False by done.
  cbn [group1].
  replace (define_comment_border_regex "#")
    with (Ok (Some (single_char_comment_mark_regex "#" ⋅ Eos)%re)
          : result (option regex)) by done.
  cbn [mbind result_bind ProcessLine.commentText group
       ProcessLine.borderCommentRE ProcessLine.lineNo
       ProcessLine.isSecondComment].
  rewrite tail_after_hash_line. cbn [mbind result_bind].
  rewrite border_hash_nomatch by done.
  rewrite trimmed_strip by done.
  rewrite decide_False by (intros [= ?]; done).
  done.
Qed.

(** A continuation line. *)
Lemma call_next_hash_line (w w2 body wt : str) (fp : list str) n :
  allspace w → allspace w2 → allspace wt →
  trimmed body → body ≠ [] → "#"%char ∉ body →
  ProcessLine.call ((w ++ "#"%char :: w2 ++ body ++ wt) :: fp)
    (hash_scanner n)
  = Ok (Comment.init (S n) (Some body), (fp, hash_scanner (S n))).
Proof.
  intros Hw Hw2 Hwt Ht Hne Hb.
  cbn [ProcessLine.call]. rewrite rstrip_hash_line by done.
  rewrite decide_False by (by destruct w).
  unfold ProcessLine.getComment, hash_scanner.
  cbn [ProcessLine.isSecondComment].
  rewrite rmatch_second_hash by done.
  cbn [mbind result_bind ProcessLine.commentText group
       ProcessLine.borderCommentRE ProcessLine.lineNo].
  rewrite tail_after_hash_line. cbn [mbind result_bind].
  rewrite border_hash_nomatch by done.
  rewrite trimmed_strip by done.
  rewrite decide_False by (intros [= ?]; done).
  rewrite decide_True by done. done.
Qed.

(** X27. A line that holds white space, one [#], white space, a
    text with no [#] in it and no white space at its ends, and
    white space again, gives a record whose text is that text,
    numbered with the line; it does so as the first comment line of a
    file (unless it is a shebang line) and as a continuation line of
    a file whose comments open with one [#].  The scanner is left
    with the patterns of the [#] family. *)
Theorem hash_comment_line_text (w w2 body wt : str) (fp : list str)
    (self : ProcessLine.t) (n : nat) (b : option regex) :
  allspace w → allspace w2 → allspace wt →
  trimmed body → body ≠ [] → "#"%char ∉ body →
  (self = ProcessLine.mk n None b
   ∧ take 3 (w ++ "#"%char :: w2 ++ body) ≠ "#!/")
  ∨ self = hash_scanner n →
  ProcessLine.call ((w ++ "#"%char :: w2 ++ body ++ wt) :: fp) self
  = Ok (Comment.init (S n) (Some body), (fp, hash_scanner (S n))).
Proof.
  intros Hw Hw2 Hwt Ht Hne Hb [[-> Hsh]| ->].
  - by apply call_first_hash_line.
  - by apply call_next_hash_line.
Qed.

Lemma hash_comment_line_text_witness :
  ProcessLine.call
    (("  " ++ "#"%char :: " " ++ "KWords: a, b" ++ "   ") :: [])
    (hash_scanner 1)
  = Ok (Comment.init 2 (Some ("KWords: a, b" : str)), ([], hash_scanner 2)).
Proof.
  apply (hash_comment_line_text "  " " " "KWords: a, b" "   " []
           (hash_scanner 1) 1 None).
  - by repeat constructor.
  - by repeat constructor.
  - by repeat constructor.
  - apply normal_trimmed. by vm_compute.
  - done.
  - intros H. repeat (apply elem_of_cons in H as [H|H]; [done|]).
    by apply elem_of_nil in H.
  - by right.
Defined.

(** ** A file with a heading line and a keyword line *)

(** A literal under [re.I] consumes a text that is the same when
    case is ignored. *)
Lemma run_litI {A} (s : str) : s ≠ [] →
  ∀ (s' rest : str) pos cap (k : @cont A),
    Py.lower s' = Py.lower s →
    run (litI s) pos (s' ++ rest) cap k = k (pos + length s') rest cap.
Proof.
  induction s as [|c s IH]; [done|]. intros _ s' rest pos cap k Hl.
  destruct s' as [|c' s']; [done|]. injection Hl as Hc Hl.
  destruct s as [|d s].
  - destruct s'; [|done]. cbn [litI run app cmatch length].
    rewrite bool_decide_true by done. f_equal. lia.
  - change (litI (c :: d :: s)) with (Seq (Chr (LitI c)) (litI (d :: s))).
    cbn [run app cmatch]. rewrite bool_decide_true by done.
    rewrite IH by done. cbn [length]. f_equal. lia.
Qed.

Lemma read_heading_prefix_Tutorial (y : str) :
  head_space y = false →
  read_heading_prefix ("Tutorial" ++ " " ++ y) = Some ("Tutorial " : str).
Proof.
  intros Hy.
  assert (Hm : is_heading ("Tutorial" ++ " " ++ y)
               = Some {| group := "Tutorial "; group1 := None |}).
  { unfold is_heading, rmatch, is_heading_re. cbn [run].
    rewrite decide_True by done.
    apply (star_run_some Space _ [] ("Tutorial" ++ " " ++ y)); [done|done|].
    rewrite run_litI by done.
    unfold Plus. cbn [run app list_ascii_of_string cmatch].
    change (Py.isspace " ") with true. cbv iota.
    apply (star_run_some Space _ [] y); [done|by destruct y|].
    done. }
  unfold read_heading_prefix. rewrite Hm. done.
Qed.

Lemma read_kwords_prefix_KWords (rest : str) :
  read_kwords_prefix ("KWords" ++ ":" ++ rest) = Some ("KWords:" : str).
Proof.
  assert (Hm : is_kwords ("KWords" ++ ":" ++ rest)
               = Some {| group := "KWords:"; group1 := None |}).
  { unfold is_kwords, rmatch, is_kwords_re. cbn [run].
    rewrite decide_True by done.
    apply (star_run_some Space _ [] ("KWords" ++ ":" ++ rest)); [done|done|].
    rewrite run_litI by done.
    apply (star_run_some Space _ [] (":" ++ rest)); [done|done|].
    cbn [app list_ascii_of_string cmatch].
    rewrite bool_decide_true by done. done. }
  unfold read_kwords_prefix. rewrite Hm. done.
Qed.

(** Keywords as they are rendered: joined, they make a normalised
    text. *)
Lemma single_spaced_app (a b : str) :
  single_spaced a → single_spaced b → single_spaced (a ++ b).
Proof.
  induction a as [|c a IH]; [done|]. cbn [app single_spaced].
  intros [Hc Ha] Hb. split; [|by apply IH].
  intros Hsp. destruct (Hc Hsp) as (-> & Hne & Hh). split_and!; [done| |].
  - by destruct a.
  - by rewrite head_space_app.
Qed.

Lemma trimmed_app (a m b : str) :
  trimmed a → a ≠ [] → trimmed b → b ≠ [] → trimmed (a ++ m ++ b).
Proof.
  intros [Ha _] Hane [_ Hb] Hbne. split.
  - intros c s' Heq. destruct a as [|c' a']; [done|].
    injection Heq as -> _. by apply (Ha c a').
  - intros s' c Heq. destruct (List.exists_last Hbne) as (b' & d & ->).
    rewrite !(assoc_L (++)) in Heq. apply app_inj_tail in Heq as [_ <-].
    by apply (Hb b').
Qed.

Lemma join_normal (ks : list str) :
  ks ≠ [] → Forall (λ k, k ≠ [] ∧ normal k) ks →
  Py.join ", " ks ≠ [] ∧ normal (Py.join ", " ks).
Proof.
  intros Hne Hks. rewrite normal_iff.
  induction Hks as [|k ks [Hk Hn] Hks IH]; [done|].
  apply normal_iff in Hn as [Ht Hs].
  destruct ks as [|k' l]; [done|].
  destruct IH as (Hjne & Hjt & Hjs); [done|].
  assert (Hhj : head_space (Py.join ", " (k' :: l)) = false).
  { destruct Hjt as [Hjt _].
    destruct (Py.join ", " (k' :: l)) as [|c j]; [done|].
    by apply (Hjt c j). }
  change (Py.join ", " (k :: k' :: l))
    with (k ++ ", " ++ Py.join ", " (k' :: l)).
  split_and!.
  - by destruct k.
  - by apply trimmed_app.
  - apply single_spaced_app; [done|].
    change (", " ++ Py.join ", " (k' :: l))
      with (","%char :: " "%char :: Py.join ", " (k' :: l)).
    cbn [single_spaced].
    split; [done|]. split; [|done].
    intros _. split_and!; [done|exact Hjne|exact Hhj].
Qed.

Lemma elem_of_Py_join (c : ascii) sep (l : list str) :
  c ∈ Py.join sep l → c ∈ sep ∨ ∃ k, k ∈ l ∧ c ∈ k.
Proof.
  induction l as [|k l IH]; [by intros ?%elem_of_nil|].
  destruct l as [|k' l'].
  - intros Hc. right. exists k. split; [apply list_elem_of_here|done].
  - change (Py.join sep (k :: k' :: l'))
      with (k ++ sep ++ Py.join sep (k' :: l')).
    rewrite !elem_of_app. intros [Hc|[Hc|Hc]].
    + right. exists k. split; [apply list_elem_of_here|done].
    + by left.
    + destruct (IH Hc) as [?|(k0 & Hk0 & ?)]; [by left|].
      right. exists k0. split; [by apply list_elem_of_further|done].
Qed.

(** The aggregator on a heading line, when no heading is stored. *)
Lemma call_heading_first (y : str) n pc :
  normal y → y ≠ [] → ProcessComment.heading pc = [] →
  ProcessComment.call (Comment.init n (Some ("Tutorial" ++ " " ++ y))) pc
  = Ok (ProcessComment.mk ("Tutorial" ++ " " ++ y)
          (Py.lower ("Tutorial" ++ " " ++ y))
          (ProcessComment.keywordsSet pc) true,
        Comment.init n None).
Proof.
  intros Hy Hne Hpc. unfold ProcessComment.call.
  cbn [Comment.current Comment.init].
  rewrite read_heading_prefix_Tutorial by by apply head_space_normal.
  unfold ProcessComment.tutorialHeading.
  assert (Htl : tail_after ("Tutorial" ++ " " ++ y) "Tutorial " = Ok y)
    by apply (tail_after_prefix "Tutorial " y).
  rewrite Htl. cbn [mbind result_bind].
  replace (Py.capitalize (normalise_text "Tutorial ")) with ("Tutorial" : str)
    by (by vm_compute).
  rewrite Hy.
  rewrite (reconciled_first ("Tutorial" ++ " " ++ y)); [done| |done].
  apply normal_word_space; [done|apply nospace_Tutorial|done|done].
Qed.

(** The aggregator on a keyword line, when keywords are allowed. *)
Lemma call_keywords_allowed (ks : list str) n pc :
  ks ≠ [] → Forall (λ k, k ≠ [] ∧ normal k ∧ ","%char ∉ k) ks →
  ProcessComment.keywordsAllowed pc = true →
  ∃ pc',
    ProcessComment.call
      (Comment.init n (Some ("KWords" ++ ":" ++ " " ++ Py.join ", " ks))) pc
    = Ok (pc', Comment.init n None)
    ∧ ProcessComment.heading pc' = ProcessComment.heading pc
    ∧ ProcessComment.headingLC pc' = ProcessComment.headingLC pc
    ∧ ProcessComment.keywordsSet pc'
      = ProcessComment.keywordsSet pc ∪ list_to_set ks.
Proof.
  intros Hne Hks Hgate.
  destruct (join_normal ks Hne) as [Hjne Hjn].
  { eapply Forall_impl; [exact Hks|]. by intros k (? & ? & _). }
  unfold ProcessComment.call. cbn [Comment.current Comment.init].
  pose proof (read_kwords_prefix_KWords (" " ++ Py.join ", " ks)) as Hq.
  rewrite (kwords_not_heading _ _ Hq), Hq, Hgate. cbn [negb].
  unfold ProcessComment.tutorialKeywords.
  assert (Htl : tail_after ("KWords" ++ ":" ++ " " ++ Py.join ", " ks)
                  "KWords:" = Ok (" " ++ Py.join ", " ks))
    by apply (tail_after_prefix "KWords:" (" " ++ Py.join ", " ks)).
  rewrite Htl. cbn [mbind result_bind].
  assert (Hnt : normalise_text (" " ++ Py.join ", " ks) = Py.join ", " ks).
  { rewrite normalise_text_collapse.
    rewrite <- (app_nil_r (Py.join ", " ks)) at 1.
    rewrite strip_around;
      [by apply normal_collapse|by repeat constructor|by constructor
      |by apply normal_trimmed]. }
  rewrite Hnt. eexists. split; [reflexivity|]. split; [done|].
  split; [done|].
  pose proof (updateKeywords_set (Py.join ", " ks) (Comment.init n
    (Some ("KWords" ++ ":" ++ " " ++ Py.join ", " ks))) pc) as Hset.
  rewrite (split_join " ") in Hset; [exact Hset|by repeat constructor|done].
Qed.

(** The aggregator on a heading line that repeats the stored
    heading. *)
Lemma call_heading_again (y : str) n pc :
  normal y → y ≠ [] →
  ProcessComment.heading pc = "Tutorial" ++ " " ++ y →
  ProcessComment.headingLC pc = Py.lower ("Tutorial" ++ " " ++ y) →
  ProcessComment.call (Comment.init n (Some ("Tutorial" ++ " " ++ y))) pc
  = Ok (ProcessComment.setKeywordsAllowed true pc, Comment.init n None).
Proof.
  intros Hy Hne Hpc HLC. unfold ProcessComment.call.
  cbn [Comment.current Comment.init].
  rewrite read_heading_prefix_Tutorial by by apply head_space_normal.
  unfold ProcessComment.tutorialHeading.
  assert (Htl : tail_after ("Tutorial" ++ " " ++ y) "Tutorial " = Ok y)
    by apply (tail_after_prefix "Tutorial " y).
  rewrite Htl. cbn [mbind result_bind].
  replace (Py.capitalize (normalise_text "Tutorial ")) with ("Tutorial" : str)
    by (by vm_compute).
  rewrite Hy. unfold ProcessComment.updateHeading.
  cbn [ProcessComment.heading ProcessComment.headingLC
       ProcessComment.setKeywordsAllowed].
  rewrite decide_False by (by rewrite Hpc).
  by rewrite decide_True.
Qed.

(** The loop over a file made of a heading line and a keyword line,
    when the aggregator holds no heading or the same one. *)
Lemma scan_heading_keywords_file (fn y : str) (ks : list str) pc o :
  normal y → y ≠ [] → "#"%char ∉ y → ks ≠ [] →
  Forall (λ k, k ≠ [] ∧ normal k ∧ (","%char ∉ k) ∧ ("#"%char ∉ k)) ks →
  ProcessComment.heading pc = []
  ∨ (ProcessComment.heading pc = "Tutorial" ++ " " ++ y
     ∧ ProcessComment.headingLC pc = Py.lower ("Tutorial" ++ " " ++ y)) →
  ∃ pc' r,
    scan_file 3 fn pc
      [("#" : str) ++ " " ++ "Tutorial" ++ " " ++ y;
       ("#" : str) ++ " " ++ "KWords" ++ ":" ++ " " ++ Py.join ", " ks]
      ProcessLine.init o
    = Break pc' r o
    ∧ ProcessComment.heading pc' = "Tutorial" ++ " " ++ y
    ∧ ProcessComment.headingLC pc' = Py.lower ("Tutorial" ++ " " ++ y)
    ∧ ProcessComment.keywordsSet pc'
      = ProcessComment.keywordsSet pc ∪ list_to_set ks
    ∧ Comment.heading r = "Tutorial" ++ " " ++ y
    ∧ Comment.keywords r = ProcessComment.keywordsToString pc'.
Proof.
  intros Hy Hyne Hyh Hne Hks Hpc.
  assert (Hks' : Forall (λ k, k ≠ [] ∧ normal k ∧ ","%char ∉ k) ks).
  { eapply Forall_impl; [exact Hks|]. by intros k (? & ? & ? & _). }
  destruct (join_normal ks Hne) as [Hjne Hjn].
  { eapply Forall_impl; [exact Hks|]. by intros k (? & ? & _). }
  (* the two lines, as the scanner sees them *)
  assert (Hh : normal ("Tutorial" ++ " " ++ y)).
  { apply normal_word_space; [done|apply nospace_Tutorial|done|done]. }
  assert (Hk : trimmed ("KWords" ++ ":" ++ " " ++ Py.join ", " ks)).
  { change ("KWords" ++ ":" ++ " " ++ Py.join ", " ks)
      with ("KWords:" ++ " " ++ Py.join ", " ks).
    apply trimmed_app; [by apply nospace_trimmed; repeat constructor|done
                       |by apply normal_trimmed|done]. }
  assert (Hhh : "#"%char ∉ ("Tutorial" ++ " " ++ y : str)).
  { rewrite !elem_of_app. intros [H|[H|H]]; [| |done];
      repeat (apply elem_of_cons in H as [H|H]; [done|]);
      by apply elem_of_nil in H. }
  assert (Hkh : "#"%char ∉ ("KWords" ++ ":" ++ " " ++ Py.join ", " ks : str)).
  { rewrite !elem_of_app. intros [H|[H|[H|H]]];
      [| | |apply elem_of_Py_join in H as [H|(k & Hin & H)]];
      try (repeat (apply elem_of_cons in H as [H|H]; [done|]);
           by apply elem_of_nil in H).
    rewrite Forall_forall in Hks. by destruct (Hks k Hin) as (_ & _ & _ & ?). }
  (* the aggregator on the two texts *)
  assert (Hc1 : ∃ pc1,
    ProcessComment.call (Comment.init 1 (Some ("Tutorial" ++ " " ++ y))) pc
    = Ok (pc1, Comment.init 1 None)
    ∧ ProcessComment.heading pc1 = "Tutorial" ++ " " ++ y
    ∧ ProcessComment.headingLC pc1 = Py.lower ("Tutorial" ++ " " ++ y)
    ∧ ProcessComment.keywordsSet pc1 = ProcessComment.keywordsSet pc
    ∧ ProcessComment.keywordsAllowed pc1 = true).
  { destruct Hpc as [Hpc|[Hpc HLC]].
    - eexists. split; [by apply call_heading_first|done].
    - eexists. split; [by apply call_heading_again|done]. }
  destruct Hc1 as (pc1 & Hc1 & Hhead1 & HLC1 & Hset1 & Hgate1).
  destruct (call_keywords_allowed ks 2 pc1 Hne Hks' Hgate1)
    as (pc2 & Hc2 & Hhead & HLC & Hset).
  exists (ProcessComment.setKeywordsAllowed false pc2),
    (closing pc2 (Comment.init 3 (Some []))).
  split.
  - cbn [scan_file].
    change (("#" : str) ++ " " ++ "Tutorial" ++ " " ++ y)
      with ([] ++ "#"%char :: " " ++ ("Tutorial" ++ " " ++ y)).
    rewrite <- (app_nil_r ("Tutorial" ++ " " ++ y)) at 1.
    unfold ProcessLine.init.
    rewrite (call_first_hash_line [] " " ("Tutorial" ++ " " ++ y) []);
      [|by constructor|by repeat constructor|by constructor
       |by apply normal_trimmed|done|done|done].
    rewrite Hc1.
    change (assess_processing_result (Comment.init 1 None))
      with (NOT_DONE, PComment (Comment.init 1 None)).
    cbv iota beta.
    change (("#" : str) ++ " " ++ "KWords" ++ ":" ++ " " ++ Py.join ", " ks)
      with ([] ++ "#"%char :: " "
            ++ ("KWords" ++ ":" ++ " " ++ Py.join ", " ks)).
    rewrite <- (app_nil_r ("KWords" ++ ":" ++ " " ++ Py.join ", " ks)) at 1.
    rewrite (call_next_hash_line [] " "
               ("KWords" ++ ":" ++ " " ++ Py.join ", " ks) []);
      [|by constructor|by repeat constructor|by constructor|done|done
       |done].
    rewrite Hc2.
    change (assess_processing_result (Comment.init 2 None))
      with (NOT_DONE, PComment (Comment.init 2 None)).
    cbv iota beta.
    cbn [ProcessLine.call]. unfold ProcessLine.newComment, hash_scanner.
    cbn [ProcessLine.lineNo]. rewrite empty_text_closes, empty_text_done.
    done.
  - cbn [ProcessComment.setKeywordsAllowed ProcessComment.heading
         ProcessComment.headingLC ProcessComment.keywordsSet closing
         Comment.heading Comment.keywords Comment.setKeywords
         Comment.setHeading].
    rewrite Hhead, Hhead1, HLC, HLC1, Hset, Hset1. done.
Qed.

Lemma keywordsToString_set pc pc' :
  ProcessComment.keywordsSet pc = ProcessComment.keywordsSet pc' →
  ProcessComment.keywordsToString pc = ProcessComment.keywordsToString pc'.
Proof. unfold ProcessComment.keywordsToString. by intros ->. Qed.

(** What [display_metadata] prints for a heading and keywords. *)
Lemma display_heading_keywords r (h kw : str) o :
  Comment.heading r = h → Comment.keywords r = kw → h ≠ [] → kw ≠ [] →
  display_metadata r o
  = Ok (mkio (stdout o ++ h ++ nl ++ "Keywords: " ++ kw ++ nl) (stderr o)).
Proof.
  intros <- <- Hh Hkw. unfold display_metadata.
  rewrite decide_True by done. unfold print, write_stdout.
  cbn [stdout stderr]. do 2 f_equal. by rewrite <- !(assoc_L (++)).
Qed.

Lemma keywordsToString_nonnil pc k :
  k ∈ ProcessComment.keywordsSet pc →
  (∀ k', k' ∈ ProcessComment.keywordsSet pc → k' ≠ []) →
  ProcessComment.keywordsToString pc ≠ [].
Proof.
  intros Hk Hall Hnil. apply join_nil in Hnil.
  - apply (f_equal length) in Hnil.
    unfold Py.sorted in Hnil. rewrite merge_sort_Permutation in Hnil.
    apply nil_length_inv, elements_empty_inv in Hnil.
    apply Hnil in Hk. by apply elem_of_empty in Hk.
  - apply Forall_forall. intros k' Hin.
    unfold Py.sorted in Hin. rewrite merge_sort_Permutation in Hin.
    apply elem_of_elements in Hin. by apply Hall.
Qed.

(** X28. A file made of the heading line [# Tutorial y] and the
    keyword line [# KWords: k1, k2, ...] makes the program print the
    heading and, on the line [Keywords: ], the keywords sorted and
    without duplicates, joined with a comma and a space; nothing is
    written on the error stream and the status is 0. *)
Theorem heading_and_keywords_file (fn y : str) (ks : list str) :
  normal y → y ≠ [] → "#"%char ∉ y → ks ≠ [] →
  Forall (λ k, k ≠ [] ∧ normal k ∧ (","%char ∉ k) ∧ ("#"%char ∉ k)) ks →
  ∃ l,
    StronglySorted Py.le l ∧ NoDup l ∧ (∀ k, k ∈ l ↔ k ∈ ks)
    ∧ process [(fn, [("#" : str) ++ " " ++ "Tutorial" ++ " " ++ y;
                     ("#" : str) ++ " " ++ "KWords" ++ ":" ++ " "
                     ++ Py.join ", " ks])]
      = (Exited 0,
         mkio ("Tutorial" ++ " " ++ y ++ nl ++ "Keywords: "
               ++ Py.join ", " l ++ nl) []).
Proof.
  intros Hy Hyne Hyh Hne Hks.
  destruct (scan_heading_keywords_file fn y ks ProcessComment.init
              (mkio [] []) Hy Hyne Hyh Hne Hks (or_introl eq_refl))
    as (pc' & r & Hscan & Hhead & _ & Hset & Hrh & Hrk).
  assert (Hin : ∀ k, k ∈ ProcessComment.keywordsSet pc' ↔ k ∈ ks).
  { intros k. rewrite Hset, elem_of_union, elem_of_list_to_set.
    split; [intros [H|H]; [by apply elem_of_empty in H|done]|by right]. }
  exists (Py.sorted (elements (ProcessComment.keywordsSet pc'))).
  split_and!.
  - apply StronglySorted_merge_sort; apply _.
  - unfold Py.sorted. rewrite merge_sort_Permutation. apply NoDup_elements.
  - intros k. unfold Py.sorted. rewrite merge_sort_Permutation.
    by rewrite elem_of_elements.
  - unfold process. cbn [scan_files length]. rewrite Hscan.
    rewrite (display_heading_keywords r ("Tutorial" ++ " " ++ y)
               (ProcessComment.keywordsToString pc')); [done|done|done|done|].
    destruct ks as [|k ks']; [done|].
    apply (keywordsToString_nonnil pc' k).
    + apply Hin, list_elem_of_here.
    + intros k' Hk'%Hin. rewrite Forall_forall in Hks.
      by destruct (Hks k' Hk').
Qed.

Lemma heading_and_keywords_file_witness :
  ∃ l,
    StronglySorted Py.le l ∧ NoDup l
    ∧ (∀ k, k ∈ l ↔ k ∈ ["kw2" : str; "kw 1" : str; "kw2" : str])
    ∧ process [("f" : str,
                [("#" : str) ++ " " ++ "Tutorial" ++ " " ++ "1: a";
                 ("#" : str) ++ " " ++ "KWords" ++ ":" ++ " "
                 ++ Py.join ", " ["kw2" : str; "kw 1" : str; "kw2" : str]])]
      = (Exited 0,
         mkio ("Tutorial" ++ " " ++ "1: a" ++ nl ++ "Keywords: "
               ++ Py.join ", " l ++ nl) []).
Proof.
  apply heading_and_keywords_file.
  - by vm_compute.
  - done.
  - intros H. repeat (apply elem_of_cons in H as [H|H]; [done|]).
    by apply elem_of_nil in H.
  - done.
  - repeat first [apply Forall_nil_2 | apply Forall_cons_2];
      (split_and!; [done|by vm_compute| |]);
      intros H; repeat (apply elem_of_cons in H as [H|H]; [done|]);
      by apply elem_of_nil in H.
Defined.

(** ** Several files with the same heading *)

Lemma scan_files_same_heading (y : str) (fs : list (str * list str)) :
  normal y → y ≠ [] → "#"%char ∉ y →
  Forall (λ f, f.2 ≠ []
               ∧ Forall (λ k, k ≠ [] ∧ normal k ∧ (","%char ∉ k)
                              ∧ ("#"%char ∉ k)) f.2) fs →
  ∀ pc result o,
    ProcessComment.heading pc = []
    ∨ (ProcessComment.heading pc = "Tutorial" ++ " " ++ y
       ∧ ProcessComment.headingLC pc = Py.lower ("Tutorial" ++ " " ++ y)) →
    ∃ pc' result',
      scan_files (heading_keywords_file y <$> fs) pc result o
      = inl (pc', result', o)
      ∧ ProcessComment.keywordsSet pc'
        = ProcessComment.keywordsSet pc ∪ list_to_set (mjoin (fs.*2))
      ∧ ((fs = [] ∧ pc' = pc ∧ result' = result)
         ∨ ∃ r, result' = Some r
             ∧ Comment.heading r = "Tutorial" ++ " " ++ y
             ∧ Comment.keywords r = ProcessComment.keywordsToString pc').
Proof.
  intros Hy Hyne Hyh Hfs.
  induction Hfs as [|[fn ks] fs [Hne Hks] Hfs IH]; intros pc result o Hpc.
  - exists pc, result. split; [done|]. split; [|by left].
    cbn. by rewrite (right_id_L ∅ (∪)).
  - cbn [fmap list_fmap scan_files heading_keywords_file fst snd length]
      in *.
    destruct (scan_heading_keywords_file fn y ks pc o Hy Hyne Hyh Hne Hks Hpc)
      as (pc1 & r & -> & Hhead & HLC & Hset & Hrh & Hrk).
    destruct (IH pc1 (Some r) o (or_intror (conj Hhead HLC)))
      as (pc' & result' & -> & Hset' & Hres).
    exists pc', result'. split; [done|]. split.
    + rewrite Hset', Hset. cbn [mjoin list_join].
      by rewrite list_to_set_app_L, (assoc_L (∪)).
    + right. destruct Hres as [(_ & -> & ->)|Hres]; [|done].
      by exists r.
Qed.

(** The run on such files, in terms of the keyword set that is
    reached. *)
Lemma process_same_heading (y : str) (fs : list (str * list str)) :
  normal y → y ≠ [] → "#"%char ∉ y → fs ≠ [] →
  Forall (λ f, f.2 ≠ []
               ∧ Forall (λ k, k ≠ [] ∧ normal k ∧ (","%char ∉ k)
                              ∧ ("#"%char ∉ k)) f.2) fs →
  ∃ pc',
    (∀ k, k ∈ ProcessComment.keywordsSet pc' ↔ ∃ f, f ∈ fs ∧ k ∈ f.2)
    ∧ process (heading_keywords_file y <$> fs)
      = (Exited 0,
         mkio ("Tutorial" ++ " " ++ y ++ nl ++ "Keywords: "
               ++ ProcessComment.keywordsToString pc' ++ nl) []).
Proof.
  intros Hy Hyne Hyh Hne Hfs.
  destruct (scan_files_same_heading y fs Hy Hyne Hyh Hfs ProcessComment.init
              None (mkio [] []) (or_introl eq_refl))
    as (pc' & result' & Hscan & Hset & [(? & _)|(r & -> & Hrh & Hrk)]);
    [done|].
  assert (Hin : ∀ k, k ∈ ProcessComment.keywordsSet pc'
                     ↔ ∃ f, f ∈ fs ∧ k ∈ f.2).
  { intros k. rewrite Hset, elem_of_union, elem_of_list_to_set,
      list_elem_of_join. split.
    - intros [H|(ks & Hk & Hks)]; [by apply elem_of_empty in H|].
      apply list_elem_of_fmap in Hks as (f & -> & Hf). by exists f.
    - intros (f & Hf & Hk). right. exists f.2. split; [done|].
      apply list_elem_of_fmap. by exists f. }
  exists pc'. split; [exact Hin|].
  unfold process. rewrite Hscan.
  rewrite (display_heading_keywords r ("Tutorial" ++ " " ++ y)
             (ProcessComment.keywordsToString pc')); [done|done|done|done|].
  pose proof Hfs as HF.
  destruct fs as [|[fn ks] fs']; [done|].
  apply Forall_cons_1 in Hfs as [[Hks Hok] Hfs]. cbn [snd] in *.
  destruct ks as [|k ks']; [done|].
  apply (keywordsToString_nonnil pc' k).
  - apply Hin. exists (fn, k :: ks'). split; apply list_elem_of_here.
  - intros k' (f & Hf & Hk')%Hin.
    rewrite Forall_forall in HF. destruct (HF f Hf) as [_ Hkf].
    rewrite Forall_forall in Hkf. by destruct (Hkf k' Hk').
Qed.

(** X29. Files that each hold the same heading line [# Tutorial y]
    and a keyword line [# KWords: k1, k2, ...] make the program print
    the heading once and, on the line [Keywords: ], the keywords of
    all the files, sorted and without duplicates; nothing is written
    on the error stream and the status is 0. *)
Theorem same_heading_files_accumulate (y : str)
    (fs : list (str * list str)) :
  normal y → y ≠ [] → "#"%char ∉ y → fs ≠ [] →
  Forall (λ f, f.2 ≠ []
               ∧ Forall (λ k, k ≠ [] ∧ normal k ∧ (","%char ∉ k)
                              ∧ ("#"%char ∉ k)) f.2) fs →
  ∃ l,
    StronglySorted Py.le l ∧ NoDup l
    ∧ (∀ k, k ∈ l ↔ ∃ f, f ∈ fs ∧ k ∈ f.2)
    ∧ process (heading_keywords_file y <$> fs)
      = (Exited 0,
         mkio ("Tutorial" ++ " " ++ y ++ nl ++ "Keywords: "
               ++ Py.join ", " l ++ nl) []).
Proof.
  intros Hy Hyne Hyh Hne Hfs.
  destruct (process_same_heading y fs Hy Hyne Hyh Hne Hfs)
    as (pc' & Hin & Hrun).
  exists (Py.sorted (elements (ProcessComment.keywordsSet pc'))).
  split_and!; [| | |exact Hrun].
  - apply StronglySorted_merge_sort; apply _.
  - unfold Py.sorted. rewrite merge_sort_Permutation. apply NoDup_elements.
  - intros k. unfold Py.sorted. rewrite merge_sort_Permutation.
    by rewrite elem_of_elements.
Qed.

Lemma two_files_ok :
  Forall (λ f : str * list str,
            f.2 ≠ []
            ∧ Forall (λ k, k ≠ [] ∧ normal k ∧ (","%char ∉ k)
                           ∧ ("#"%char ∉ k)) f.2)
    [("f1" : str, ["kw2" : str; "kw 1" : str]);
     ("f2" : str, ["kw3" : str; "kw2" : str])].
Proof.
  repeat first [apply Forall_nil_2 | apply Forall_cons_2];
    (split; [done|]);
    repeat first [apply Forall_nil_2 | apply Forall_cons_2];
    (split_and!; [done|by vm_compute| |]);
    intros H; repeat (apply elem_of_cons in H as [H|H]; [done|]);
    by apply elem_of_nil in H.
Qed.

Lemma same_heading_files_accumulate_witness :
  ∃ l,
    StronglySorted Py.le l ∧ NoDup l
    ∧ (∀ k, k ∈ l
            ↔ ∃ f, f ∈ [("f1" : str, ["kw2" : str; "kw 1" : str]);
                        ("f2" : str, ["kw3" : str; "kw2" : str])]
                   ∧ k ∈ f.2)
    ∧ process (heading_keywords_file "1: a"
               <$> [("f1" : str, ["kw2" : str; "kw 1" : str]);
                    ("f2" : str, ["kw3" : str; "kw2" : str])])
      = (Exited 0,
         mkio ("Tutorial" ++ " " ++ "1: a" ++ nl ++ "Keywords: "
               ++ Py.join ", " l ++ nl) []).
Proof.
  apply same_heading_files_accumulate.
  - by vm_compute.
  - done.
  - intros H. repeat (apply elem_of_cons in H as [H|H]; [done|]).
    by apply elem_of_nil in H.
  - done.
  - apply two_files_ok.
Defined.

(** X30. For such files only the set of the keywords counts: two
    lists of files with the same heading line and, taken together,
    the same keywords give the same run, whatever the order of the
    files, the way the keywords are spread over them and their
    repetitions. *)
Theorem same_heading_files_any_order (y : str)
    (fs fs' : list (str * list str)) :
  normal y → y ≠ [] → "#"%char ∉ y → fs ≠ [] → fs' ≠ [] →
  Forall (λ f, f.2 ≠ []
               ∧ Forall (λ k, k ≠ [] ∧ normal k ∧ (","%char ∉ k)
                              ∧ ("#"%char ∉ k)) f.2) fs →
  Forall (λ f, f.2 ≠ []
               ∧ Forall (λ k, k ≠ [] ∧ normal k ∧ (","%char ∉ k)
                              ∧ ("#"%char ∉ k)) f.2) fs' →
  (∀ k, (∃ f, f ∈ fs ∧ k ∈ f.2) ↔ (∃ f, f ∈ fs' ∧ k ∈ f.2)) →
  process (heading_keywords_file y <$> fs)
  = process (heading_keywords_file y <$> fs').
Proof.
  intros Hy Hyne Hyh Hne Hne' Hfs Hfs' Hsame.
  destruct (process_same_heading y fs Hy Hyne Hyh Hne Hfs)
    as (pc1 & Hin1 & ->).
  destruct (process_same_heading y fs' Hy Hyne Hyh Hne' Hfs')
    as (pc2 & Hin2 & ->).
  rewrite (keywordsToString_set pc1 pc2); [done|].
  apply set_eq. intros k. by rewrite Hin1, Hin2.
Qed.

Lemma two_files_swapped_ok :
  Forall (λ f : str * list str,
            f.2 ≠ []
            ∧ Forall (λ k, k ≠ [] ∧ normal k ∧ (","%char ∉ k)
                           ∧ ("#"%char ∉ k)) f.2)
    [("f2" : str, ["kw3" : str; "kw2" : str]);
     ("f1" : str, ["kw2" : str; "kw 1" : str])].
Proof.
  pose proof two_files_ok as H.
  apply Forall_cons_1 in H as [H1 H]. apply Forall_cons_1 in H as [H2 _].
  apply Forall_cons_2; [exact H2|]. apply Forall_cons_2; [exact H1|].
  apply Forall_nil_2.
Qed.

Lemma same_heading_files_any_order_witness :
  process (heading_keywords_file "1: a"
           <$> [("f1" : str, ["kw2" : str; "kw 1" : str]);
                ("f2" : str, ["kw3" : str; "kw2" : str])])
  = process (heading_keywords_file "1: a"
             <$> [("f2" : str, ["kw3" : str; "kw2" : str]);
                  ("f1" : str, ["kw2" : str; "kw 1" : str])]).
Proof.
  apply same_heading_files_any_order.
  - by vm_compute.
  - done.
  - intros H. repeat (apply elem_of_cons in H as [H|H]; [done|]).
    by apply elem_of_nil in H.
  - done.
  - done.
  - apply two_files_ok.
  - apply two_files_swapped_ok.
  - intros k. split; intros (f & Hf & Hk); exists f; split; try done;
      repeat (apply elem_of_cons in Hf as [->|Hf];
              [by repeat constructor|]);
      by apply elem_of_nil in Hf.
Defined.

(** ** The recursion limit *)

Lemma call_within_0 fp self :
  ProcessLine.call_within 0 fp self = Raise RuntimeError.
Proof. by destruct fp. Qed.

(** Whatever the depth that is allowed, the scanner under the limit
    raises [RuntimeError] or does what the scanner does when the
    stack is not counted. *)
Lemma call_within_refines fp : ∀ depth self,
  ProcessLine.call_within depth fp self = Raise RuntimeError
  ∨ ProcessLine.call_within depth fp self = ProcessLine.call fp self.
Proof.
  induction fp as [|raw fp IH]; intros [|depth] self;
    cbn [ProcessLine.call_within ProcessLine.enter ProcessLine.call];
    try (by left); [by right|].
  case_decide; [by right|].
  destruct depth as [|depth]; cbn [ProcessLine.enter]; [by left|].
  set (self1 := ProcessLine.mk _ _ _).
  assert (Hcases : ∀ d,
    ProcessLine.getComment (ProcessLine.call_within d fp) fp self1
      (Py.rstrip raw) = Raise RuntimeError
    ∨ ProcessLine.getComment (ProcessLine.call_within d fp) fp self1
        (Py.rstrip raw)
      = ProcessLine.getComment (ProcessLine.call fp) fp self1 (Py.rstrip raw)).
  { intros d.
    destruct (getComment_cases self1 (Py.rstrip raw))
      as [(self' & Hg)|[(c & self' & Hg)|(e & Hg)]]; rewrite !Hg;
      [apply IH|by right|by right]. }
  destruct (ProcessLine.isSecondComment self1) eqn:Hsec; [apply Hcases|].
  destruct depth as [|depth]; cbn [ProcessLine.enter]; [by left|].
  specialize (Hcases depth). unfold ProcessLine.getComment in *.
  by rewrite Hsec in *.
Qed.

(** Three nested calls for each line of the file, and one more,
    are enough for every call of the scanner. *)
Lemma call_within_enough fp : ∀ depth self,
  3 * length fp < depth →
  ProcessLine.call_within depth fp self = ProcessLine.call fp self.
Proof.
  induction fp as [|raw fp IH]; intros depth self Hd;
    (destruct depth as [|depth]; [simpl in Hd; lia|]);
    cbn [ProcessLine.call_within ProcessLine.enter ProcessLine.call];
    [done|].
  case_decide; [done|]. cbn [length] in Hd.
  destruct depth as [|depth]; [lia|]. cbn [ProcessLine.enter].
  set (self1 := ProcessLine.mk _ _ _).
  assert (Hcases : ∀ d, 3 * length fp < d →
    ProcessLine.getComment (ProcessLine.call_within d fp) fp self1
      (Py.rstrip raw)
    = ProcessLine.getComment (ProcessLine.call fp) fp self1 (Py.rstrip raw)).
  { intros d Hlt.
    destruct (getComment_cases self1 (Py.rstrip raw))
      as [(self' & Hg)|[(c & self' & Hg)|(e & Hg)]]; rewrite !Hg;
      [by apply IH|done|done]. }
  destruct (ProcessLine.isSecondComment self1) eqn:Hsec;
    [apply Hcases; lia|].
  destruct depth as [|depth]; [lia|]. cbn [ProcessLine.enter].
  specialize (Hcases depth). unfold ProcessLine.getComment in *.
  rewrite Hsec in *. apply Hcases. lia.
Qed.

(** The records of the scanner under the limit are those of the
    scanner: no error, no warning. *)
Lemma call_within_fresh depth fp self c fp' self' :
  ProcessLine.call_within depth fp self = Ok (c, (fp', self')) →
  ProcessLine.call fp self = Ok (c, (fp', self'))
  ∧ Comment.error c = [] ∧ Comment.warning c = [].
Proof.
  intros H.
  destruct (call_within_refines fp depth self) as [Hr|Hr];
    rewrite Hr in H; [done|].
  split; [done|].
  by destruct (call_fresh _ _ _ _ _ H) as (n & text & ->).
Qed.

(** A discarded line keeps three calls on the stack: [__call__],
    [__getComment] and [__getFirstComment]. *)
Lemma discarded_call_within raw fp self depth :
  discarded raw → ProcessLine.isSecondComment self = None →
  ∃ border,
    ProcessLine.call_within (S (S (S depth))) (raw :: fp) self
    = ProcessLine.call_within depth fp
        (ProcessLine.mk (S (ProcessLine.lineNo self)) None border).
Proof.
  intros (Hraw & mo & Hm & Hd) Hsec.
  cbn [ProcessLine.call_within ProcessLine.enter].
  rewrite decide_False by done.
  cbn [ProcessLine.isSecondComment]. rewrite Hsec.
  unfold ProcessLine.getFirstComment. rewrite Hm.
  destruct Hd as [Hsh|(mark & border & Hg & Hb & Htext)].
  - rewrite decide_True by done. eauto.
  - case_decide; [eauto|]. rewrite Hg, Hb. cbn [mbind result_bind].
    unfold ProcessLine.commentText.
    destruct (tail_after_group _ _ _ Hm) as (tail & Hl & ->).
    cbn [mbind result_bind ProcessLine.borderCommentRE].
    rewrite Hl, drop_app_length in Htext. rewrite Htext.
    rewrite decide_True by done. eauto.
Qed.

(** Discarded lines at the head of a file, a third as many as the
    calls that are allowed or more: the scanner raises [RuntimeError],
    whatever follows them. *)
Lemma discarded_run_overflows pre : ∀ depth rest self,
  Forall discarded pre → ProcessLine.isSecondComment self = None →
  depth ≤ 3 * length pre →
  ProcessLine.call_within depth (pre ++ rest) self = Raise RuntimeError.
Proof.
  induction pre as [|raw pre IH]; intros depth rest self Hpre Hsec Hd.
  - simpl in Hd. replace depth with 0 by lia. apply call_within_0.
  - inversion Hpre as [|? ? Hraw Hpre']; subst.
    destruct depth as [|[|[|depth]]]; [done|..].
    + cbn [app ProcessLine.call_within ProcessLine.enter].
      destruct Hraw as [Hraw _]. by rewrite decide_False.
    + cbn [app ProcessLine.call_within ProcessLine.enter].
      destruct Hraw as [Hraw _]. rewrite decide_False by done.
      cbn [ProcessLine.isSecondComment]. by rewrite Hsec.
    + destruct (discarded_call_within raw (pre ++ rest) self depth Hraw Hsec)
        as (border & Hc).
      rewrite <-app_comm_cons, Hc. apply IH; [done|done|].
      cbn [length] in Hd. lia.
Qed.

(** A line that holds one [#] and nothing else, read as a
    continuation line of a file whose comments open with one [#],
    keeps two calls on the stack: [__call__] and [__getComment]. *)
Lemma empty_hash_line_within fp n depth :
  ProcessLine.call_within (S (S depth)) (("#" : str) :: fp) (hash_scanner n)
  = ProcessLine.call_within depth fp (hash_scanner (S n)).
Proof. reflexivity. Qed.

Lemma empty_hash_lines_overflow k : ∀ depth rest n,
  depth ≤ 2 * k →
  ProcessLine.call_within depth (replicate k ("#" : str) ++ rest)
    (hash_scanner n) = Raise RuntimeError.
Proof.
  induction k as [|k IH]; intros depth rest n Hd.
  - replace depth with 0 by lia. apply call_within_0.
  - destruct depth as [|[|depth]]; [done|done|].
    cbn [replicate app]. rewrite empty_hash_line_within. apply IH. lia.
Qed.

Lemma discarded_hash : discarded "#".
Proof.
  split; [done|]. eexists. split; [reflexivity|]. right.
  eexists _, _. split; [reflexivity|]. split; [reflexivity|]. reflexivity.
Qed.

(** ** The run under the recursion limit *)

(** At [ProcessLine.call] the run with a scanner is [process]. *)
Lemma scan_file_with_call fuel : ∀ fn pc fp pl o,
  scan_file_with ProcessLine.call fuel fn pc fp pl o
  = scan_file fuel fn pc fp pl o.
Proof.
  induction fuel as [|fuel IH]; intros fn pc fp pl o; [done|].
  cbn [scan_file_with scan_file].
  destruct (ProcessLine.call fp pl) as [[c [fp' pl']]|e]; [|done].
  destruct (ProcessComment.call c pc) as [[pc' c']|e]; [|done].
  destruct (assess_processing_result c') as [[] []]; by rewrite ?IH.
Qed.

Lemma scan_files_with_call files : ∀ pc result o,
  scan_files_with ProcessLine.call files pc result o
  = scan_files files pc result o.
Proof.
  induction files as [|[fn lines] files IH]; intros pc result o; [done|].
  cbn [scan_files_with scan_files]. rewrite scan_file_with_call.
  destruct (scan_file _ _ _ _ _ _); by rewrite ?IH.
Qed.

Lemma process_with_call files :
  process_with ProcessLine.call files = process files.
Proof. unfold process_with, process. by rewrite scan_files_with_call. Qed.

(** The loop over a file writes nothing on standard output, with any
    scanner. *)
Lemma scan_file_with_stdout scanner fuel : ∀ fn pc fp pl o,
  match scan_file_with scanner fuel fn pc fp pl o with
  | Break _ _ o' | Stop _ o' => stdout o' = stdout o
  end.
Proof.
  induction fuel as [|fuel IH]; intros fn pc fp pl o; [done|].
  cbn [scan_file_with].
  destruct (scanner fp pl) as [[c [fp' pl']]|e]; [|done].
  destruct (ProcessComment.call c pc) as [[pc' c']|e]; [|done].
  destruct (assess_processing_result c') as [[] [r|m]]; try done;
    try apply IH.
  specialize (IH fn pc' fp' pl' (handle_warning m fn o)).
  by destruct (scan_file_with _ _ _ _ _ _ _).
Qed.

(** Under the limit the loop over a file does what it does when the
    stack is not counted, or ends with the [RuntimeError] of the
    scanner. *)
Lemma scan_file_within_refines depth fuel : ∀ fn pc fp pl o,
  scan_file_with (ProcessLine.call_within depth) fuel fn pc fp pl o
  = scan_file fuel fn pc fp pl o
  ∨ ∃ o', scan_file_with (ProcessLine.call_within depth) fuel fn pc fp pl o
          = Stop (Uncaught RuntimeError) o'
          ∧ stdout o' = stdout o.
Proof.
  induction fuel as [|fuel IH]; intros fn pc fp pl o; [by left|].
  cbn [scan_file_with scan_file].
  destruct (call_within_refines fp depth pl) as [->| ->]; [right; eauto|].
  destruct (ProcessLine.call fp pl) as [[c [fp' pl']]|e]; [|by left].
  destruct (ProcessComment.call c pc) as [[pc' c']|e]; [|by left].
  destruct (assess_processing_result c') as [[] [r|m]]; try (by left);
    try apply IH.
  destruct (IH fn pc' fp' pl' (handle_warning m fn o))
    as [->|(o' & -> & Ho')]; [by left|right; eauto].
Qed.

Lemma scan_files_within_refines depth files : ∀ pc result o,
  scan_files_with (ProcessLine.call_within depth) files pc result o
  = scan_files files pc result o
  ∨ ∃ o', scan_files_with (ProcessLine.call_within depth) files pc result o
          = inr (Uncaught RuntimeError, o')
          ∧ stdout o' = stdout o.
Proof.
  induction files as [|[fn lines] files IH]; intros pc result o; [by left|].
  cbn [scan_files_with scan_files].
  destruct (scan_file_within_refines depth (S (length lines)) fn pc lines
              ProcessLine.init o) as [->|(o' & -> & Ho')]; [|right; eauto].
  pose proof (scan_file_with_stdout ProcessLine.call (S (length lines)) fn pc
                lines ProcessLine.init o) as Hout.
  rewrite scan_file_with_call in Hout.
  destruct (scan_file _ _ _ _ _ _) as [pc1 r o1|st o1]; [|by left].
  destruct (IH pc1 (Some r) o1) as [->|(o' & -> & Ho')]; [by left|].
  right. exists o'. split; [done|congruence].
Qed.

(** Under the limit a run is the run of [process], or ends with the
    [RuntimeError] of the scanner, which nothing catches, before
    anything is printed. *)
Lemma process_within_refines depth files :
  process_within depth files = process files
  ∨ ∃ o, process_within depth files = (Uncaught RuntimeError, o)
         ∧ stdout o = [].
Proof.
  unfold process_within, process_with, process.
  destruct (scan_files_within_refines depth files ProcessComment.init None
              (mkio [] [])) as [->|(o' & -> & Ho')]; [by left|right; eauto].
Qed.

(** With three nested calls allowed for each line of the longest
    file, and one more, the run is the run of [process]. *)
Lemma scan_file_within_enough depth fuel : ∀ fn pc fp pl o,
  3 * length fp < depth → wf pl →
  scan_file_with (ProcessLine.call_within depth) fuel fn pc fp pl o
  = scan_file fuel fn pc fp pl o.
Proof.
  induction fuel as [|fuel IH]; intros fn pc fp pl o Hd Hwf; [done|].
  cbn [scan_file_with scan_file]. rewrite call_within_enough by done.
  destruct (call_spec fp pl Hwf) as (text & fp' & pl' & -> & Hwf' & Hfp).
  assert (Hd' : 3 * length fp' < depth).
  { destruct Hfp as [(-> & -> & ->)|?]; [done|lia]. }
  destruct (ProcessComment.call _ pc) as [[pc' c']|e]; [|done].
  destruct (assess_processing_result c') as [[] []]; try done; by apply IH.
Qed.

Lemma process_within_enough depth files :
  Forall (λ f : file, 3 * length f.2 < depth) files →
  process_within depth files = process files.
Proof.
  intros Hfiles. unfold process_within, process_with, process. f_equal.
  generalize ProcessComment.init, (@None Comment.t), (mkio [] []).
  induction Hfiles as [|[fn lines] files Hlen _ IH]; intros pc result o;
    [done|].
  cbn [scan_files_with scan_files].
  rewrite scan_file_within_enough by (done || apply wf_init).
  destruct (scan_file _ _ _ _ _ _); by rewrite ?IH.
Qed.

(** The loop over a file that starts with discarded lines, a third as
    many as the calls allowed or more, ends with [RuntimeError]. *)
Lemma scan_file_within_overflows depth fuel fn pc pre rest o :
  Forall discarded pre → depth ≤ 3 * length pre →
  scan_file_with (ProcessLine.call_within depth) (S fuel) fn pc (pre ++ rest)
    ProcessLine.init o
  = Stop (Uncaught RuntimeError) o.
Proof.
  intros Hpre Hd. cbn [scan_file_with].
  by rewrite discarded_run_overflows.
Qed.

(** C8. The scanner fails on long runs of lines it passes over.  It
    calls itself for every line it discards, so with the 1000 nested
    calls of the default recursion limit, or fewer, it raises
    [RuntimeError] on a file of 400 lines that hold one [#] each, and
    on the 600 such lines that follow the comment line [# a]; with
    the stack not counted it returns, for both, the record with the
    empty text that closes the block.  So it is for every limit:
    discarded lines at the head of a file, a third as many as the
    calls allowed, or empty continuation lines, half as many, make
    the scanner raise.  Apart from that exception the scanner under
    the limit does what [ProcessLine.call] does, and the records it
    returns carry no error and no warning. *)
Theorem scanner_reaches_recursion_limit :
  ProcessLine.call_within 1000 (replicate 400 ("#" : str)) ProcessLine.init
  = Raise RuntimeError
  ∧ ProcessLine.call (replicate 400 ("#" : str)) ProcessLine.init
    = Ok (Comment.init 401 (Some []),
          ([], ProcessLine.mk 401 None
                 (Some (single_char_comment_mark_regex "#" ⋅ Eos)%re)))
  ∧ ProcessLine.call_within 1000 (("# a" : str) :: replicate 600 ("#" : str))
      ProcessLine.init
    = Ok (Comment.init 1 (Some ("a" : str)),
          (replicate 600 ("#" : str), hash_scanner 1))
  ∧ ProcessLine.call_within 1000 (replicate 600 ("#" : str)) (hash_scanner 1)
    = Raise RuntimeError
  ∧ ProcessLine.call (replicate 600 ("#" : str)) (hash_scanner 1)
    = Ok (Comment.init 602 (Some []), ([], hash_scanner 602))
  ∧ (∀ depth pre rest,
       Forall discarded pre → depth ≤ 3 * length pre →
       ProcessLine.call_within depth (pre ++ rest) ProcessLine.init
       = Raise RuntimeError)
  ∧ (∀ depth k rest n,
       depth ≤ 2 * k →
       ProcessLine.call_within depth (replicate k ("#" : str) ++ rest)
         (hash_scanner n)
       = Raise RuntimeError)
  ∧ (∀ depth fp self,
       ProcessLine.call_within depth fp self = Raise RuntimeError
       ∨ ProcessLine.call_within depth fp self = ProcessLine.call fp self)
  ∧ (∀ depth fp self c fp' self',
       ProcessLine.call_within depth fp self = Ok (c, (fp', self')) →
       Comment.error c = [] ∧ Comment.warning c = []).
Proof.
  split_and!.
  - vm_compute. reflexivity.
  - vm_compute. reflexivity.
  - vm_compute. reflexivity.
  - vm_compute. reflexivity.
  - vm_compute. reflexivity.
  - intros depth pre rest Hpre Hd. by apply discarded_run_overflows.
  - intros depth k rest n Hd. by apply empty_hash_lines_overflow.
  - intros depth fp self. apply call_within_refines.
  - intros depth fp self c fp' self' H.
    by destruct (call_within_fresh _ _ _ _ _ _ H) as (_ & ? & ?).
Qed.

(** C7. A file whose first line that is not discarded opens no
    comment is not always skipped.  On the file of 400 lines that hold
    one [#] each, which are discarded, and of the line [int main() {],
    which opens no comment, the run ends with the [RuntimeError] of
    the scanner under the 1000 nested calls of the default limit,
    where the run with the stack not counted skips the file and ends
    with status 0.  So it is for every limit and every file that
    starts with discarded lines, a third as many as the calls allowed:
    the loop over the file ends with [RuntimeError], whatever follows
    the discarded lines.  Apart from that exception a run under the
    limit is the run of [process]. *)
Theorem unread_file_reaches_recursion_limit :
  Forall discarded (replicate 400 ("#" : str))
  ∧ is_comment (Py.rstrip "int main() {") = None
  ∧ process_within 1000
      [("f" : str, replicate 400 ("#" : str) ++ ["int main() {" : str])]
    = (Uncaught RuntimeError, mkio [] [])
  ∧ process [("f" : str, replicate 400 ("#" : str) ++ ["int main() {" : str])]
    = (Exited 0, mkio [] [])
  ∧ (∀ depth fuel fn pc pre rest o,
       Forall discarded pre → depth ≤ 3 * length pre →
       scan_file_with (ProcessLine.call_within depth) (S fuel) fn pc
         (pre ++ rest) ProcessLine.init o
       = Stop (Uncaught RuntimeError) o)
  ∧ (∀ depth files,
       process_within depth files = process files
       ∨ ∃ o, process_within depth files = (Uncaught RuntimeError, o)
              ∧ stdout o = []).
Proof.
  split_and!.
  - apply Forall_replicate, discarded_hash.
  - vm_compute. reflexivity.
  - vm_compute. reflexivity.
  - vm_compute. reflexivity.
  - intros depth fuel fn pc pre rest o Hpre Hd.
    by apply scan_file_within_overflows.
  - intros depth files. apply process_within_refines.
Qed.
